(** * Device catalog pipeline: normalizer, catalog builder, publisher, reader

    A shallow embedding of the catalog-fetch Edge Function
    ([fetchDeviceCatalog]: [categorizeDevice], [extractModelName],
    [extractStorageVariants] and the [serve] handler) and of the API-route
    catalog reader ([GET] of [/api/device-catalog.json]).

    Modelling conventions.
    - A JavaScript string is a [string]: each [ascii] stands for one UTF-16
      code unit below 256 (the Latin-1 range), which is closed under
      [toLowerCase] and on which [toLowerCase] preserves the length.
    - An object used as a dictionary ([categories], [brands], [models]) is a
      [gmap string _] over its own properties; reading [obj[k]] also finds
      the names every object inherits from [Object.prototype]
      ([prototype_names]).  A [variants] array is a [list string].
    - An exception is a value beside the state: a step gives the catalog it
      leaves and, when it throws, what it threw.
    - An optional field is an [option]; [None] stands for [undefined] and
      [null].  A string is falsy exactly when it is empty.
    - Network, clock and storage are inputs of the handlers (a [World]);
      what the handlers do to them is recorded as a list of events. *)

From Stdlib Require Import NArith ZArith Ascii String List Bool Lia.
From Stdlib Require Import DecimalString.
From stdpp Require Import base option list gmap strings.

#[local] Arguments String.append : simpl nomatch.

(** ** JavaScript string primitives *)

Module Js.

Definition code (c : ascii) : N := N_of_ascii c.

(** [String.prototype.toLowerCase] on one code unit below 256:
    A-Z, and the Latin-1 capitals U+00C0..U+00DE except U+00D7. *)
Definition lower_char (c : ascii) : ascii :=
  let n := code c in
  if ((65 <=? n) && (n <=? 90))%N
     || ((192 <=? n) && (n <=? 222) && negb (n =? 215))%N
  then ascii_of_N (n + 32) else c.

Fixpoint toLowerCase (s : string) : string :=
  match s with
  | EmptyString => EmptyString
  | String c s' => String (lower_char c) (toLowerCase s')
  end.

(** [Canonicalize] of a case-insensitive (non-unicode) regular expression:
    the code unit's upper case, when that is a single code unit and does not
    turn a non-ASCII unit into an ASCII one.  Below 256 the units whose
    upper case leaves the range (U+00B5, U+00FF) or is not a single unit
    (U+00DF) have a canonical form no other unit of the range shares; they
    are left as they are. *)
Definition canonicalize (c : ascii) : ascii :=
  let n := code c in
  if ((97 <=? n) && (n <=? 122))%N
     || ((224 <=? n) && (n <=? 254) && negb (n =? 247))%N
  then ascii_of_N (n - 32) else c.

(** Line terminators (LF, CR) and white space (TAB, VT, FF, SP, NBSP):
    the code units below 256 that [\s] matches and [trim] removes. *)
Definition is_line_terminator (c : ascii) : bool :=
  ((code c =? 10) || (code c =? 13))%N.

Definition is_space (c : ascii) : bool :=
  ((code c =? 9) || (code c =? 10) || (code c =? 11) || (code c =? 12)
   || (code c =? 13) || (code c =? 32) || (code c =? 160))%N.

Definition is_empty (s : string) : bool :=
  match s with EmptyString => true | _ => false end.

(** [s.startsWith(p)] *)
Fixpoint startsWith (s p : string) {struct p} : bool :=
  match p, s with
  | EmptyString, _ => true
  | String _ _, EmptyString => false
  | String a p', String b s' => if Ascii.eqb a b then startsWith s' p' else false
  end.

(** [s.includes(t)] *)
Fixpoint includes (s t : string) : bool :=
  startsWith s t
  || match s with
     | EmptyString => false
     | String _ s' => includes s' t
     end.

(** [s.substring(n)] *)
Fixpoint substring (n : nat) (s : string) : string :=
  match n, s with
  | O, _ => s
  | S _, EmptyString => EmptyString
  | S n', String _ s' => substring n' s'
  end.

Fixpoint trimStart (s : string) : string :=
  match s with
  | EmptyString => EmptyString
  | String c s' => if is_space c then trimStart s' else s
  end.

Fixpoint trimEnd (s : string) : string :=
  match s with
  | EmptyString => EmptyString
  | String c s' =>
      let r := trimEnd s' in
      if is_space c && is_empty r then EmptyString else String c r
  end.

(** [s.trim()] *)
Definition trim (s : string) : string := trimEnd (trimStart s).

(** [s.split(',')]: never empty, one more piece than there are commas. *)
Fixpoint split_comma (s : string) : list string :=
  match s with
  | EmptyString => [EmptyString]
  | String c s' =>
      if Ascii.eqb c ","%char then EmptyString :: split_comma s'
      else match split_comma s' with
           | [] => [String c EmptyString]
           | p :: ps => String c p :: ps
           end
  end.

(** [a.includes(x)] on an array of strings *)
Definition array_includes (a : list string) (x : string) : bool :=
  existsb (String.eqb x) a.

(** A string that holds a code unit which is not white space. *)
Fixpoint has_non_space (s : string) : bool :=
  match s with
  | EmptyString => false
  | String c s' => negb (is_space c) || has_non_space s'
  end.

End Js.

(** ** Device Normalizer *)

Inductive Category := tablet | smartwatch | phone.

Definition category_name (c : Category) : string :=
  match c with
  | tablet => "tablet"
  | smartwatch => "smartwatch"
  | phone => "phone"
  end.

(** [categorizeDevice(deviceName, deviceData?)]; the second argument is not
    read. *)
Definition categorizeDevice (deviceName : string) : Category :=
  let name := Js.toLowerCase deviceName in
  if Js.includes name "tablet" || Js.includes name "ipad" || Js.includes name "tab"
  then tablet
  else if Js.includes name "watch" || Js.includes name "band"
  then smartwatch
  else phone.

(** *** The two suffix-stripping regular expressions

    Both have the shape [/\s*(t1|...|tn).*$/i] and are used in
    [model.replace(re, '')]: the leftmost match is replaced by the empty
    string.  A match ends at the end of the input ([$] without the [m] flag),
    so the replacement keeps exactly the input before the start of the match. *)

Definition storage_tokens : list string :=
  ["128GB"; "256GB"; "512GB"; "1TB"; "64GB"; "32GB"; "16GB"].

Definition color_tokens : list string :=
  ["Black"; "White"; "Blue"; "Red"; "Gold"; "Silver"; "Space Gray"; "Titanium"].

(** A literal under the [i] flag, at the head of [s]: the rest of [s]. *)
Fixpoint lit_ci (t s : string) {struct t} : option string :=
  match t, s with
  | EmptyString, _ => Some s
  | String _ _, EmptyString => None
  | String a t', String b s' =>
      if Ascii.eqb (Js.canonicalize a) (Js.canonicalize b) then lit_ci t' s' else None
  end.

(** [.*$]: the dot matches everything but a line terminator. *)
Fixpoint dot_star_eol (s : string) : bool :=
  match s with
  | EmptyString => true
  | String c s' => negb (Js.is_line_terminator c) && dot_star_eol s'
  end.

(** [(t1|...|tn).*$] at the head of [s]: the alternatives in order, the next
    one when the continuation of the previous one fails. *)
Definition alt_eol (toks : list string) (s : string) : bool :=
  existsb (fun t => match lit_ci t s with
                    | Some rest => dot_star_eol rest
                    | None => false
                    end) toks.

(** [\s*(t1|...|tn).*$] at the head of [s]: the star is greedy and gives back
    one white space at a time. *)
Fixpoint re_here (toks : list string) (s : string) : bool :=
  match s with
  | EmptyString => alt_eol toks s
  | String c s' => (Js.is_space c && re_here toks s') || alt_eol toks s
  end.

(** [s.replace(/\s*(t1|...|tn).*$/i, '')] *)
Fixpoint re_replace (toks : list string) (s : string) : string :=
  if re_here toks s then EmptyString
  else match s with
       | EmptyString => EmptyString
       | String c s' => String c (re_replace toks s')
       end.

Definition extractModelName (deviceName brandName : string) : string :=
  let model := deviceName in
  let model :=
    if Js.startsWith (Js.toLowerCase model) (Js.toLowerCase brandName)
    then Js.trim (Js.substring (String.length brandName) model)
    else model in
  let model := re_replace storage_tokens model in
  let model := re_replace color_tokens model in
  if Js.is_empty (Js.trim model) then deviceName else Js.trim model.

(** [extractStorageVariants(storage?)] *)
Definition extractStorageVariants (storage : option string) : list string :=
  match storage with
  | None => []
  | Some s =>
      if Js.is_empty s then []
      else filter (fun v => Js.is_empty v = false) (map Js.trim (Js.split_comma s))
  end.

(** ** Data model *)

Module Device.
(** [device.brand], an object with a [name] *)
Record BrandRef := { brand_ref_name : string }.

(** [MobileAPIDevice]; the other provider fields are not read. *)
Record t := {
  id : Z;
  name : string;
  brand : option BrandRef;
  manufacturer_name : option string;
  brand_name : option string;
  storage : option string;
}.
End Device.

Module Manufacturer.
(** [MobileAPIManufacturer] *)
Record t := { id : Z; name : string; website_url : option string }.
End Manufacturer.

Record Model := { variants : list string }.
Record Brand := { models : gmap string Model }.
Record CategoryEntry := { brands : gmap string Brand }.
Record Metadata := { lastUpdated : string; version : string; source : string }.
Record DeviceCatalog := {
  metadata : Metadata;
  categories : gmap string CategoryEntry;
}.

(** [a || b] on possibly missing strings: a missing or empty string is
    falsy. *)
Definition truthy (o : option string) : bool :=
  match o with
  | Some s => negb (Js.is_empty s)
  | None => false
  end.

Definition or_else (o : option string) (otherwise : option string) : option string :=
  if truthy o then o else otherwise.

Definition or_default (o : option string) (otherwise : string) : string :=
  match o with
  | Some s => if Js.is_empty s then otherwise else s
  | None => otherwise
  end.

(** [device.name || device.brand_name || 'Unknown Device'] *)
Definition resolveDeviceName (device : Device.t) : string :=
  or_default (or_else (Some (Device.name device)) (Device.brand_name device))
             "Unknown Device".

(** [device.brand?.name || device.manufacturer_name || device.brand_name
     || manufacturerName] *)
Definition resolveBrandName (device : Device.t) (manufacturerName : string) : string :=
  or_default
    (or_else (Device.brand_ref_name <$> Device.brand device)
       (or_else (Device.manufacturer_name device) (Device.brand_name device)))
    manufacturerName.

(** ** Catalog Builder *)

(** The property names every object inherits from [Object.prototype]
    (ECMAScript, Annex B included).  On an object that has no own property
    of that name, [obj[k]] reads the inherited value: a function, or the
    prototype itself for [__proto__].  That value is truthy and has no
    [brands], [models] or [variants] property. *)
Definition prototype_names : list string :=
  ["constructor"; "__defineGetter__"; "__defineSetter__"; "hasOwnProperty";
   "__lookupGetter__"; "__lookupSetter__"; "isPrototypeOf";
   "propertyIsEnumerable"; "toString"; "valueOf"; "__proto__";
   "toLocaleString"].

Definition inherited (k : string) : bool := Js.array_includes prototype_names k.

(** [if (!obj[k]) obj[k] = fresh]: an own entry is an object, hence truthy,
    and so is what [obj[k]] reads for an inherited name; nothing is created
    in either case. *)
Definition ensure {V : Type} (k : string) (fresh : V) (m : gmap string V) : gmap string V :=
  match m !! k with
  | Some _ => m
  | None => if inherited k then m else <[k := fresh]> m
  end.

(** [if (!existing.includes(v)) existing.push(v)] *)
Definition push_new (existing : list string) (v : string) : list string :=
  if Js.array_includes existing v then existing else existing ++ [v].

(** [for (const variant of storageVariants) ...] *)
Definition merge_variants (existing storageVariants : list string) : list string :=
  fold_left push_new storageVariants existing.

(** [`${modelName} ${device.storage || ''}`.trim()] *)
Definition variantName (modelName : string) (storage : option string) : string :=
  Js.trim (modelName +:+ " " +:+ or_default storage "").

(** The variants of a model after one device: the branch on
    [storageVariants.length > 0]. *)
Definition add_variants (existing storageVariants : list string)
    (modelName : string) (storage : option string) : list string :=
  match storageVariants with
  | _ :: _ => merge_variants existing storageVariants
  | [] =>
      let v := variantName modelName storage in
      if negb (Js.is_empty v) && negb (Js.array_includes existing v)
      then existing ++ [v] else existing
  end.

(** Reads along the path [categories[category].brands[brandName]
    .models[modelName].variants]. *)
Definition brands_of (cats : gmap string CategoryEntry) (category : string)
  : gmap string Brand :=
  match cats !! category with Some c => brands c | None => ∅ end.

Definition models_of (bs : gmap string Brand) (brandName : string) : gmap string Model :=
  match bs !! brandName with Some b => models b | None => ∅ end.

Definition variants_of (ms : gmap string Model) (modelName : string) : list string :=
  match ms !! modelName with Some m => variants m | None => [] end.

Definition lookup_variants (cats : gmap string CategoryEntry)
    (category brandName modelName : string) : option (list string) :=
  c ← cats !! category; b ← brands c !! brandName; m ← models b !! modelName;
  Some (variants m).

(** Whether the step that adds the variants calls [variants.includes]: in
    the loop over the storage variants when there is one, and otherwise
    behind the guard [variantName && ...]. *)
Definition reads_variants (storageVariants : list string) (modelName : string)
    (storage : option string) : bool :=
  match storageVariants with
  | _ :: _ => true
  | [] => negb (Js.is_empty (variantName modelName storage))
  end.

(** The body of the device loop once the device is normalized: create the
    category, the brand and the model when missing, then add the variants.
    Gives the catalog the step leaves and, when it throws, the property
    whose read threw.  Where [obj[k]] reads an inherited value, the next
    property of it ([brands], [models], [variants]) is [undefined], and
    reading a property of [undefined] throws a [TypeError]; what the step
    created before stays in the catalog. *)
Definition fold_device_step (cats : gmap string CategoryEntry)
    (category brandName modelName : string)
    (storageVariants : list string) (storage : option string)
  : gmap string CategoryEntry * option string :=
  let cats := ensure category {| brands := ∅ |} cats in
  match cats !! category with
  | None => (cats, Some brandName)
  | Some _ =>
      let bs := ensure brandName {| models := ∅ |} (brands_of cats category) in
      match bs !! brandName with
      | None => (<[category := {| brands := bs |}]> cats, Some modelName)
      | Some _ =>
          let ms := ensure modelName {| variants := [] |} (models_of bs brandName) in
          match ms !! modelName with
          | None =>
              (<[category := {| brands :=
                   <[brandName := {| models := ms |}]> bs |}]> cats,
               if reads_variants storageVariants modelName storage
               then Some "includes" else None)
          | Some _ =>
              let vs :=
                add_variants (variants_of ms modelName) storageVariants
                  modelName storage in
              (<[category := {| brands :=
                   <[brandName := {| models :=
                       <[modelName := {| variants := vs |}]> ms |}]> bs |}]> cats,
               None)
          end
      end
  end.

(** The catalog the step leaves, completed or not. *)
Definition fold_device (cats : gmap string CategoryEntry)
    (category brandName modelName : string)
    (storageVariants : list string) (storage : option string)
  : gmap string CategoryEntry :=
  fst (fold_device_step cats category brandName modelName storageVariants storage).

(** The property whose read threw, if the step throws. *)
Definition fold_device_throws (cats : gmap string CategoryEntry)
    (category brandName modelName : string)
    (storageVariants : list string) (storage : option string)
  : option string :=
  snd (fold_device_step cats category brandName modelName storageVariants storage).

(** One iteration of [for (const device of devices)]: the catalog it
    leaves. *)
Definition process_device (manufacturerName : string)
    (cats : gmap string CategoryEntry) (device : Device.t)
  : gmap string CategoryEntry :=
  let deviceName := resolveDeviceName device in
  let brandName := resolveBrandName device manufacturerName in
  let category := category_name (categorizeDevice deviceName) in
  let modelName := extractModelName deviceName brandName in
  let storageVariants := extractStorageVariants (Device.storage device) in
  fold_device cats category brandName modelName storageVariants (Device.storage device).

(** The same iteration: what it throws. *)
Definition process_device_throws (manufacturerName : string)
    (cats : gmap string CategoryEntry) (device : Device.t)
  : option string :=
  let deviceName := resolveDeviceName device in
  let brandName := resolveBrandName device manufacturerName in
  let category := category_name (categorizeDevice deviceName) in
  let modelName := extractModelName deviceName brandName in
  let storageVariants := extractStorageVariants (Device.storage device) in
  fold_device_throws cats category brandName modelName storageVariants
    (Device.storage device).

(** [for (const device of devices)]: an iteration that throws ends the
    loop, and the devices after it are not processed. *)
Fixpoint process_devices (manufacturerName : string)
    (cats : gmap string CategoryEntry) (devices : list Device.t)
  : gmap string CategoryEntry * option string :=
  match devices with
  | [] => (cats, None)
  | device :: rest =>
      match process_device_throws manufacturerName cats device with
      | Some property => (process_device manufacturerName cats device, Some property)
      | None =>
          process_devices manufacturerName
            (process_device manufacturerName cats device) rest
      end
  end.

Definition initial_categories : gmap string CategoryEntry :=
  <["smartwatch" := {| brands := ∅ |}]>
    (<["tablet" := {| brands := ∅ |}]>
       (<["phone" := {| brands := ∅ |}]> ∅)).

Definition initial_catalog (now : string) : DeviceCatalog :=
  {| metadata := {| lastUpdated := now; version := "1.0.0"; source := "MobileAPI.dev" |};
     categories := initial_categories |}.

(** ** Publisher pipeline ([serve]) *)

(** What a call of [makeApiRequest] followed by [response.json()] gives. *)
Inductive FetchResult (A : Type) :=
| FetchThrows (message : string)
| FetchNotArray
| FetchArray (items : list A).
Arguments FetchThrows {A} message.
Arguments FetchNotArray {A}.
Arguments FetchArray {A} items.

Module StorageError.
Record t := { message : string; statusCode : string; name : string }.
End StorageError.

(** The environment of one invocation.  [devices_response i name] answers the
    device request of the [i]-th manufacturer; [upload_response k] is the
    [error] of the upload made when [retryCount] is [k]. *)
Record World := {
  env_INTERNAL_API_SECRET : option string;
  env_INTERNAL_API_BASE_URL : option string;
  env_SITE_URL : option string;
  now : string;
  manufacturers_response : FetchResult Manufacturer.t;
  devices_response : nat -> string -> FetchResult Device.t;
  upload_response : nat -> option StorageError.t;
}.

(** What the [catch] of the manufacturer loop receives: the error of the
    request, with its message, or the [TypeError] of reading [property] of
    [undefined], whose message is the engine's. *)
Inductive Thrown :=
| RequestError (message : string)
| TypeErrorReading (property : string).

(** The [console.warn] calls of the handler. *)
Inductive Warning :=
| NoDevicesFound (manufacturerName : string)
| NoDevicesEvent (manufacturerName : string)
| FetchDevicesFailed (manufacturerName : string) (error : Thrown)
| UploadAttemptFailed (attempt : nat) (message : string).

(** Waits, requests, warnings and uploads, in program order; [console.log]
    lines are not recorded. *)
Inductive Event :=
| Sleep (ms : Z)
| FetchManufacturers (endpoint : string)
| FetchDevices (manufacturerName : string)
| Warn (warning : Warning)
| Upload (bucket path : string) (body : DeviceCatalog) (upsert : bool).

Inductive Outcome :=
| Success (lastUpdated : string)
| Failure (error : string).

Definition status (o : Outcome) : Z :=
  match o with Success _ => 200 | Failure _ => 500 end.

Definition RATE_LIMIT_DELAY : Z := 1000.
Definition maxManufacturers : nat := 50.
Definition maxRetries : nat := 3.

(** One iteration of the manufacturer loop: the [try] block and its
    [catch], which receives what the request throws and what the device
    loop throws alike. *)
Definition process_manufacturer (w : World) (i : nat) (m : Manufacturer.t)
    (cats : gmap string CategoryEntry)
  : list Event * gmap string CategoryEntry :=
  let manufacturerName := Manufacturer.name m in
  let request := [Sleep RATE_LIMIT_DELAY; FetchDevices manufacturerName] in
  match devices_response w i manufacturerName with
  | FetchThrows message =>
      ((request ++ [Warn (FetchDevicesFailed manufacturerName
                            (RequestError message))])%list,
       cats)
  | FetchNotArray | FetchArray [] =>
      ((request ++ [Warn (NoDevicesFound manufacturerName);
                    Warn (NoDevicesEvent manufacturerName)])%list,
       cats)
  | FetchArray devices =>
      let '(cats, thrown) := process_devices manufacturerName cats devices in
      match thrown with
      | None => (request, cats)
      | Some property =>
          ((request ++ [Warn (FetchDevicesFailed manufacturerName
                                (TypeErrorReading property))])%list,
           cats)
      end
  end.

(** [for (let i = 0; i < manufacturersToProcess.length; i++)], from index
    [i] on. *)
Fixpoint process_manufacturers (w : World) (i : nat) (ms : list Manufacturer.t)
    (cats : gmap string CategoryEntry)
  : list Event * gmap string CategoryEntry :=
  match ms with
  | [] => ([], cats)
  | m :: rest =>
      let '(ev, cats) := process_manufacturer w i m cats in
      let '(evs, cats) := process_manufacturers w (S i) rest cats in
      ((ev ++ evs)%list, cats)
  end.

(** [while (retryCount <= maxRetries)]: [remaining] is
    [maxRetries + 1 - retryCount], the number of iterations the condition
    still allows.  Returns the final [uploadError]. *)
Fixpoint upload_loop (w : World) (catalog : DeviceCatalog)
    (remaining retryCount : nat) (uploadError : option StorageError.t)
  : list Event * option StorageError.t :=
  match remaining with
  | O => ([], uploadError)
  | S remaining =>
      let wait := if (0 <? retryCount)%nat then [Sleep 1000] else [] in
      let attempt := Upload "catalogs" "deviceCatalog.json" catalog true in
      match upload_response w retryCount with
      | None => ((wait ++ [attempt])%list, None)
      | Some error =>
          let '(evs, result) :=
            upload_loop w catalog remaining (S retryCount) (Some error) in
          ((wait ++ attempt
                 :: Warn (UploadAttemptFailed (retryCount + 1)
                            (StorageError.message error))
                 :: evs)%list,
           result)
      end
  end.

Definition upload_with_retry (w : World) (catalog : DeviceCatalog)
  : list Event * option StorageError.t :=
  upload_loop w catalog (maxRetries + 1) 0 None.

Definition manufacturersEndpoint : string := "/manufacturers/?limit=200".

(** The handler: its events and its response. *)
Definition serve (w : World) : list Event * Outcome :=
  if negb (truthy (env_INTERNAL_API_SECRET w)) then
    ([], Failure "INTERNAL_API_SECRET environment variable is not set")
  else if negb (truthy (match env_INTERNAL_API_BASE_URL w with
                        | Some u => Some u
                        | None => env_SITE_URL w
                        end)) then
    ([], Failure "INTERNAL_API_BASE_URL or SITE_URL environment variable is not set")
  else
    match manufacturers_response w with
    | FetchThrows message =>
        ([FetchManufacturers manufacturersEndpoint], Failure message)
    | FetchNotArray | FetchArray [] =>
        ([FetchManufacturers manufacturersEndpoint],
         Failure "No manufacturers found or invalid response format")
    | FetchArray manufacturers =>
        let catalog := initial_catalog (now w) in
        let manufacturersToProcess := take maxManufacturers manufacturers in
        let '(evs, cats) :=
          process_manufacturers w 0 manufacturersToProcess (categories catalog) in
        let catalog := {| metadata := metadata catalog; categories := cats |} in
        let '(uevs, uploadError) := upload_with_retry w catalog in
        ((FetchManufacturers manufacturersEndpoint :: evs ++ uevs)%list,
         match uploadError with
         | Some e =>
             Failure ("Failed to upload catalog to Storage after 3 retries: "
                      +:+ StorageError.message e)
         | None => Success (lastUpdated (metadata catalog))
         end)
    end.

(** The catalog the handler builds from a list of manufacturers. *)
Definition built_categories (w : World) (ms : list Manufacturer.t)
  : gmap string CategoryEntry :=
  snd (process_manufacturers w 0 (take maxManufacturers ms) initial_categories).

(** ** API-route catalog reader ([GET]) *)

Section Reader.

(** JSON values and the two functions of the [JSON] object. *)
Variable Json : Type.
Variable JSON_parse : string -> option Json.
Variable JSON_stringify : Json -> string.

(** What [supabaseServer.storage.from('catalogs').download(...)] gives:
    an exception, or a [{ data, error }] pair; [data] is the text of the
    downloaded blob. *)
Inductive Download :=
| DownloadThrows (message : string)
| DownloadResult (data : option string) (error : option StorageError.t).

(** What [readFileSync(localCatalogPath, 'utf-8')] gives. *)
Inductive ReadFile :=
| ReadThrows (message : string)
| ReadContent (content : string).

Inductive Body :=
| CatalogBody (json : string)
| ErrorBody (error message : string).

Record Response := {
  response_status : Z;
  response_body : Body;
  response_headers : list (string * string);
}.

Definition header (r : Response) (h : string) : option string :=
  snd <$> List.find (fun kv => String.eqb (fst kv) h) (response_headers r).

Definition primary_response (catalog : Json) : Response :=
  {| response_status := 200;
     response_body := CatalogBody (JSON_stringify catalog);
     response_headers :=
       [("Content-Type", "application/json");
        ("Cache-Control", "public, max-age=3600");
        ("X-Catalog-Source", "supabase-storage")] |}.

Definition fallback_response (catalog : Json) : Response :=
  {| response_status := 200;
     response_body := CatalogBody (JSON_stringify catalog);
     response_headers :=
       [("Content-Type", "application/json");
        ("Cache-Control", "public, max-age=300");
        ("X-Catalog-Source", "local-fallback")] |}.

Definition both_failed_response : Response :=
  {| response_status := 500;
     response_body :=
       ErrorBody "Failed to load device catalog"
         "Both Supabase Storage and local file failed. Please ensure the catalogs bucket exists in Supabase Storage or the local file is available.";
     response_headers := [("Content-Type", "application/json")] |}.

(** The first inner [try]: the parsed storage catalog, or [None] when the
    handler goes on to the fallback (an [error], no [data], or an exception
    of the download or of [JSON.parse], which the inner [catch] takes). *)
Definition from_storage (d : Download) : option Json :=
  match d with
  | DownloadThrows _ => None
  | DownloadResult (Some text) None => JSON_parse text
  | DownloadResult _ _ => None
  end.

(** The second inner [try]: the parsed local snapshot. *)
Definition from_local_file (f : ReadFile) : option Json :=
  match f with
  | ReadThrows _ => None
  | ReadContent content => JSON_parse content
  end.

Definition GET (d : Download) (f : ReadFile) : Response :=
  match from_storage d with
  | Some catalog => primary_response catalog
  | None =>
      match from_local_file f with
      | Some catalog => fallback_response catalog
      | None => both_failed_response
      end
  end.

(** The decimal number a string of digits writes. *)
Fixpoint decimal (s : string) (acc : Z) : option Z :=
  match s with
  | EmptyString => Some acc
  | String c s' =>
      if ((48 <=? Js.code c) && (Js.code c <=? 57))%N
      then decimal s' (10 * acc + Z.of_N (Js.code c - 48))%Z
      else None
  end.

(** The [max-age] of a [Cache-Control] value of the form
    [public, max-age=<seconds>]. *)
Definition max_age (cache_control : string) : option Z :=
  match lit_ci "public, max-age=" cache_control with
  | Some (String c rest) => decimal (String c rest) 0
  | _ => None
  end.

End Reader.

(** ** Vocabulary of the statements and sample inputs *)

(** [t] occurs in [s] *)
Definition occurs_in (t s : string) : Prop :=
  exists pre post, s = pre +:+ t +:+ post.

Definition tablet_name (name : string) : Prop :=
  occurs_in "tablet" name \/ occurs_in "ipad" name \/ occurs_in "tab" name.

Definition watch_name (name : string) : Prop :=
  occurs_in "watch" name \/ occurs_in "band" name.

(** The string with every code unit in canonical case: two strings with the
    same image differ at most in the case of their letters. *)
Fixpoint canonical (s : string) : string :=
  match s with
  | EmptyString => EmptyString
  | String c s' => String (Js.canonicalize c) (canonical s')
  end.

(** A token of the vocabulary stands at the head of [s], in any case, and no
    line terminator follows it in [s]. *)
Definition token_at (toks : list string) (s : string) : Prop :=
  exists t t' rest,
    In t toks /\ s = t' +:+ rest /\ canonical t' = canonical t
    /\ dot_star_eol rest = true.

(** The device name without its leading brand: when the name starts with the
    brand in any case, the rest of the name, trimmed; the name itself
    otherwise. *)
Inductive brand_stripped (deviceName brandName : string) : string -> Prop :=
| brand_is_prefix (p rest : string) :
    deviceName = p +:+ rest ->
    Js.toLowerCase p = Js.toLowerCase brandName ->
    brand_stripped deviceName brandName (Js.trim rest)
| brand_is_absent :
    (forall p rest, deviceName = p +:+ rest ->
                    Js.toLowerCase p <> Js.toLowerCase brandName) ->
    brand_stripped deviceName brandName deviceName.

(** [s] cut at the first place where a token stands: everything from that
    token to the end goes, and so does the white space right before the
    token.  Without such a place [s] is kept as it is. *)
Inductive strips (toks : list string) (s : string) : string -> Prop :=
| strips_nothing :
    (forall pre suf, s = pre +:+ suf -> ~ token_at toks suf) ->
    strips toks s s
| strips_from (pre suf : string) :
    s = pre +:+ suf ->
    token_at toks suf ->
    (forall pre' suf', s = pre' +:+ suf' ->
                       String.length pre' < String.length pre ->
                       ~ token_at toks suf') ->
    strips toks s (Js.trimEnd pre).

Definition head_not_space (t : string) : bool :=
  match t with
  | EmptyString => false
  | String a _ => negb (Js.is_space a)
  end.

(** [s] ends with [t] *)
Fixpoint endsWith (s t : string) : bool :=
  String.eqb s t
  || match s with
     | EmptyString => false
     | String _ s' => endsWith s' t
     end.

(** [s] ends with a token of the vocabulary, in any case. *)
Definition ends_with_token (toks : list string) (s : string) : bool :=
  existsb (fun t => endsWith (canonical s) (canonical t)) toks.

(** The variants under a key, the empty list when the key is missing. *)
Definition variants_at (cats : gmap string CategoryEntry)
    (category brandName modelName : string) : list string :=
  default [] (lookup_variants cats category brandName modelName).

(** What a normalized device brings to the variants of its model: its storage
    tokens, or else its synthetic variant when that is not empty. *)
Definition contributed (storageVariants : list string) (modelName : string)
    (storage : option string) : list string :=
  match storageVariants with
  | _ :: _ => storageVariants
  | [] =>
      let v := variantName modelName storage in
      if Js.is_empty v then [] else [v]
  end.

Definition device_category (d : Device.t) : string :=
  category_name (categorizeDevice (resolveDeviceName d)).

Definition device_model (manufacturerName : string) (d : Device.t) : string :=
  extractModelName (resolveDeviceName d) (resolveBrandName d manufacturerName).

(** The variants a device brings to its model. *)
Definition device_variants (manufacturerName : string) (d : Device.t) : list string :=
  contributed (extractStorageVariants (Device.storage d))
    (device_model manufacturerName d) (Device.storage d).

(** The device loop throws on the device: its brand or its model name is an
    inherited name, under which the loop creates no entry. *)
Definition throws_on (manufacturerName : string) (d : Device.t) : bool :=
  inherited (resolveBrandName d manufacturerName)
  || inherited (device_model manufacturerName d).

(** The devices of an array the device loop folds into the catalog: those
    before the first one it throws on. *)
Fixpoint folded_devices (manufacturerName : string) (devices : list Device.t)
  : list Device.t :=
  match devices with
  | [] => []
  | d :: rest =>
      if throws_on manufacturerName d then []
      else d :: folded_devices manufacturerName rest
  end.

(** No brand and no model of the catalog is filed under an inherited name. *)
Definition plain (cats : gmap string CategoryEntry) : Prop :=
  (forall c b, is_Some (brands_of cats c !! b) -> inherited b = false) /\
  (forall c b m,
      is_Some (models_of (brands_of cats c) b !! m) -> inherited m = false).


Definition models_nonempty (cats : gmap string CategoryEntry) : Prop :=
  forall c b m vs,
    lookup_variants cats c b m = Some vs -> Js.has_non_space m = true -> vs <> [].

Definition category_keys : list string := ["phone"; "tablet"; "smartwatch"].

Definition sample_device (name : string) (storage : option string) : Device.t :=
  {| Device.id := 0; Device.name := name; Device.brand := None;
     Device.manufacturer_name := None; Device.brand_name := None;
     Device.storage := storage |}.

Definition acme : Manufacturer.t :=
  {| Manufacturer.id := 1; Manufacturer.name := "Acme";
     Manufacturer.website_url := None |}.

Definition samsung : Manufacturer.t :=
  {| Manufacturer.id := 2; Manufacturer.name := "Samsung";
     Manufacturer.website_url := None |}.

Definition samsung_devices : list Device.t :=
  [sample_device "Samsung Galaxy S21 128GB Black" (Some "128GB, 256GB");
   sample_device "Samsung Galaxy S21 256GB White" (Some "256GB, 512GB");
   sample_device "Samsung Galaxy Tab S9" None].

(** Two manufacturers; the device request of the first one throws. *)
Definition sample_world : World :=
  {| env_INTERNAL_API_SECRET := Some "secret";
     env_INTERNAL_API_BASE_URL := None;
     env_SITE_URL := Some "https://example.test";
     now := "2025-11-28T00:00:00.000Z";
     manufacturers_response := FetchArray [acme; samsung];
     devices_response := fun i _ =>
       match i with
       | 0 => FetchThrows "Internal API request failed (HTTP 500: Internal Server Error). "
       | 1 => FetchArray samsung_devices
       | _ => FetchNotArray
       end;
     upload_response := fun _ => None |}.

Definition blank_device : Device.t := sample_device " " None.

(** A field that is given and is not the empty string. *)
Definition given (o : option string) (s : string) : Prop :=
  o = Some s /\ s <> "".

Definition missing (o : option string) : Prop := forall s, ~ given o s.

(** The brand as the first field that is defined, empty or not. *)
Definition first_defined_brand (d : Device.t) (manufacturerName : string) : string :=
  match Device.brand d, Device.manufacturer_name d, Device.brand_name d with
  | Some r, _, _ => Device.brand_ref_name r
  | None, Some n, _ => n
  | None, None, Some n => n
  | None, None, None => manufacturerName
  end.

Definition unbranded_device : Device.t :=
  {| Device.id := 7; Device.name := "Galaxy S21";
     Device.brand := Some {| Device.brand_ref_name := "" |};
     Device.manufacturer_name := Some "Samsung";
     Device.brand_name := None; Device.storage := None |}.

(** The invocation gets past the configuration checks and the manufacturer
    list, which is [ms]. *)
Definition reaches_upload (w : World) (ms : list Manufacturer.t) : Prop :=
  truthy (env_INTERNAL_API_SECRET w) = true /\
  truthy (match env_INTERNAL_API_BASE_URL w with
          | Some u => Some u
          | None => env_SITE_URL w
          end) = true /\
  manufacturers_response w = FetchArray ms /\
  ms <> [].

(** The catalog handed to the upload. *)
Definition published_catalog (w : World) (ms : list Manufacturer.t) : DeviceCatalog :=
  {| metadata := metadata (initial_catalog (now w));
     categories := built_categories w ms |}.

Definition upload_failure_message (e : StorageError.t) : string :=
  "Failed to upload catalog to Storage after 3 retries: " +:+ StorageError.message e.

Definition is_upload (e : Event) : bool :=
  match e with Upload _ _ _ _ => true | _ => false end.

(** Waits and uploads: what the upload step does to the outside. *)
Definition is_io (e : Event) : bool :=
  match e with Sleep _ | Upload _ _ _ _ => true | _ => false end.

Definition attempt (catalog : DeviceCatalog) : Event :=
  Upload "catalogs" "deviceCatalog.json" catalog true.

Definition all_attempts_fail (w : World) : Prop :=
  forall k, k <= maxRetries -> upload_response w k <> None.

Definition some_attempt_succeeds (w : World) : Prop :=
  exists k, k <= maxRetries /\ upload_response w k = None.

Definition storage_error (message : string) : StorageError.t :=
  {| StorageError.message := message; StorageError.statusCode := "500";
     StorageError.name := "StorageUnknownError" |}.

(** The sample invocation with a storage that refuses every upload. *)
Definition failing_world : World :=
  {| env_INTERNAL_API_SECRET := env_INTERNAL_API_SECRET sample_world;
     env_INTERNAL_API_BASE_URL := env_INTERNAL_API_BASE_URL sample_world;
     env_SITE_URL := env_SITE_URL sample_world;
     now := now sample_world;
     manufacturers_response := manufacturers_response sample_world;
     devices_response := devices_response sample_world;
     upload_response := fun k =>
       match k with
       | 3 => Some (storage_error "quota exceeded")
       | _ => Some (storage_error "gateway timeout")
       end |}.


(** The same invocation with other answers to the device requests. *)
Definition with_devices (w : World)
    (responses : nat -> string -> FetchResult Device.t) : World :=
  {| env_INTERNAL_API_SECRET := env_INTERNAL_API_SECRET w;
     env_INTERNAL_API_BASE_URL := env_INTERNAL_API_BASE_URL w;
     env_SITE_URL := env_SITE_URL w;
     now := now w;
     manufacturers_response := manufacturers_response w;
     devices_response := responses;
     upload_response := upload_response w |}.

(** The download throws or answers with an [error]. *)
Definition download_fails (d : Download) : Prop :=
  (exists message, d = DownloadThrows message) \/
  (exists data error, d = DownloadResult data (Some error)).

Definition both_sources_named (message : string) : Prop :=
  occurs_in "Supabase Storage" message /\ occurs_in "local file" message.

(** A reader whose JSON values are the non-empty texts. *)
Definition parse_nonempty (s : string) : option string :=
  if Js.is_empty s then None else Some s.

(** ** Vocabulary of the further properties *)

(** A string with no white space at either end. *)
Definition trimmed (s : string) : Prop :=
  (forall c r, s = String c r -> Js.is_space c = false) /\
  (forall r c, s = r +:+ String c "" -> Js.is_space c = false).

(** A token of the vocabulary stands somewhere in [s]. *)
Definition token_inside (toks : list string) (s : string) : Prop :=
  exists pre suf, s = pre +:+ suf /\ token_at toks suf.

(** A string made of commas and white space only. *)
Fixpoint separators_only (s : string) : bool :=
  match s with
  | EmptyString => true
  | String c s' => (Ascii.eqb c ","%char || Js.is_space c) && separators_only s'
  end.

(** [pieces.join(',')] *)
Fixpoint join_comma (pieces : list string) : string :=
  match pieces with
  | [] => ""
  | [p] => p
  | p :: ps => p +:+ "," +:+ join_comma ps
  end.

(** A device the manufacturer loop of the invocation processes, under the
    name of its manufacturer. *)
Definition processed (w : World) (ms : list Manufacturer.t)
    (mn : string) (d : Device.t) : Prop :=
  exists i mf ds,
    take maxManufacturers ms !! i = Some mf /\
    devices_response w i (Manufacturer.name mf) = FetchArray ds /\
    d ∈ ds /\ mn = Manufacturer.name mf.

(** The key a device is filed under. *)
Definition filed_under (mn : string) (d : Device.t) (c b m : string) : Prop :=
  c = device_category d /\ b = resolveBrandName d mn /\ m = device_model mn d.

Definition is_device_request (e : Event) : bool :=
  match e with FetchDevices _ => true | _ => false end.

(** Waits and device requests: what the manufacturer loop does to the
    outside. *)
Definition is_loop_io (e : Event) : bool :=
  match e with Sleep _ | FetchDevices _ => true | _ => false end.

(** The wait and the request the loop makes for one manufacturer. *)
Definition throttled_request (m : Manufacturer.t) : list Event :=
  [Sleep RATE_LIMIT_DELAY; FetchDevices (Manufacturer.name m)].

(** ** Private-bucket reader (the [getDeviceCatalog] Edge Function) *)

Section PrivateReader.

Variable Json : Type.
Variable JSON_parse : string -> option Json.
Variable JSON_stringify : Json -> string.

Definition corsHeaders : list (string * string) :=
  [("Access-Control-Allow-Origin", "*");
   ("Access-Control-Allow-Headers",
    "authorization, x-client-info, apikey, content-type")].

Inductive EdgeBody :=
| PlainText (text : string)
| EdgeCatalog (json : string)
| EdgeError (error : string).

Record EdgeResponse := {
  edge_status : Z;
  edge_body : EdgeBody;
  edge_headers : list (string * string);
}.

Definition edge_header (r : EdgeResponse) (h : string) : option string :=
  snd <$> List.find (fun kv => String.eqb (fst kv) h) (edge_headers r).

(** [new Response('ok', { headers: corsHeaders })]: the status defaults to
    200. *)
Definition preflight_response : EdgeResponse :=
  {| edge_status := 200; edge_body := PlainText "ok"; edge_headers := corsHeaders |}.

Definition edge_error_response (error : string) : EdgeResponse :=
  {| edge_status := 500;
     edge_body := EdgeError error;
     edge_headers := (corsHeaders ++ [("Content-Type", "application/json")])%list |}.

Definition edge_catalog_response (catalog : Json) : EdgeResponse :=
  {| edge_status := 200;
     edge_body := EdgeCatalog (JSON_stringify catalog);
     edge_headers :=
       (corsHeaders ++ [("Content-Type", "application/json");
                        ("Cache-Control", "public, max-age=3600")])%list |}.

(** The handler, for a request method and what the download gives.  An
    exception anywhere in the [try] block (the download, [data.text()] on a
    missing [data], [JSON.parse]) ends in the [catch]. *)
Definition getDeviceCatalog (method : string) (d : Download) : EdgeResponse :=
  if String.eqb method "OPTIONS" then preflight_response
  else
    match d with
    | DownloadThrows _ => edge_error_response "Internal server error"
    | DownloadResult _ (Some _) => edge_error_response "Failed to fetch device catalog"
    | DownloadResult None None => edge_error_response "Internal server error"
    | DownloadResult (Some text) None =>
        match JSON_parse text with
        | Some catalog => edge_catalog_response catalog
        | None => edge_error_response "Internal server error"
        end
    end.

End PrivateReader.

(** ** Upstream proxy client ([makeApiRequest]) *)

(** [\/+$] at the head of [s]: a slash, then more slashes or the end. *)
Fixpoint slashes_eol (s : string) : bool :=
  match s with
  | EmptyString => false
  | String c s' => Ascii.eqb c "/"%char && (slashes_eol s' || Js.is_empty s')
  end.

(** [s.replace(/\/+$/, '')] *)
Fixpoint strip_trailing_slashes (s : string) : string :=
  if slashes_eol s then EmptyString
  else match s with
       | EmptyString => EmptyString
       | String c s' => String c (strip_trailing_slashes s')
       end.

Definition relayPath : string := "/api/internal/fetch-catalog-data".

(** [`${base}/api/internal/fetch-catalog-data`] *)
Definition requestUrl (internalApiBaseUrl : string) : string :=
  strip_trailing_slashes internalApiBaseUrl +:+ relayPath.

(** The [POST] request [makeApiRequest] sends: its URL, its
    [X-Internal-Secret] header and the [endpoint] of its JSON body. *)
Record ApiCall := {
  call_url : string;
  call_secret : string;
  call_endpoint : string;
}.

(** What is read of the [Response]; [answer_text] is [None] when
    [response.text()] rejects. *)
Record ApiAnswer := {
  answer_ok : bool;
  answer_status : Z;
  answer_statusText : string;
  answer_text : option string;
}.

Inductive ApiOutcome :=
| ApiReturns (response : ApiAnswer)
| ApiThrows (message : string).

(** A number in a template literal. *)
Definition decimal_of (n : Z) : string := NilZero.string_of_int (Z.to_int n).

(** [makeApiRequest(endpointPath, internalApiBaseUrl, internalApiSecret)] over
    a transport that answers a call or rejects with a message. *)
Definition makeApiRequest (transport : ApiCall -> ApiAnswer + string)
    (endpointPath internalApiBaseUrl internalApiSecret : string)
  : ApiCall * ApiOutcome :=
  let call := {| call_url := requestUrl internalApiBaseUrl;
                 call_secret := internalApiSecret;
                 call_endpoint := endpointPath |} in
  (call,
   match transport call with
   | inr message => ApiThrows message
   | inl response =>
       if answer_ok response then ApiReturns response
       else
         let errorText := default "Unknown error" (answer_text response) in
         ApiThrows ("Internal API request failed (HTTP "
                    +:+ decimal_of (answer_status response) +:+ ": "
                    +:+ answer_statusText response +:+ "). " +:+ errorText)
   end).

(** *** [encodeURIComponent] and the device endpoint *)

(** The characters [encodeURIComponent] keeps: letters, digits and
    [- _ . ! ~ * ' ( )]. *)
Definition uri_unreserved (c : ascii) : bool :=
  let n := Js.code c in
  ((65 <=? n) && (n <=? 90) || (97 <=? n) && (n <=? 122) || (48 <=? n) && (n <=? 57)
   || (n =? 45) || (n =? 95) || (n =? 46) || (n =? 33) || (n =? 126)
   || (n =? 42) || (n =? 39) || (n =? 40) || (n =? 41))%N.

Definition hex_digit (n : N) : ascii :=
  if (n <? 10)%N then ascii_of_N (48 + n) else ascii_of_N (55 + n).

(** [%XX] for one byte, in upper-case hexadecimal. *)
Definition percent (byte : N) : string :=
  String "%" (String (hex_digit (byte / 16)) (String (hex_digit (byte mod 16)) "")).

(** One code unit below 256: kept, or the escapes of its UTF-8 bytes (one
    byte below 128, two from there on). *)
Definition encode_unit (c : ascii) : string :=
  let n := Js.code c in
  if uri_unreserved c then String c ""
  else if (n <? 128)%N then percent n
  else percent (192 + n / 64) +:+ percent (128 + n mod 64).

Fixpoint encodeURIComponent (s : string) : string :=
  match s with
  | EmptyString => EmptyString
  | String c s' => encode_unit c +:+ encodeURIComponent s'
  end.

(** [`/devices/by-manufacturer/?manufacturer=${encodeURIComponent(name)}&limit=100`] *)
Definition devicesEndpoint (manufacturerName : string) : string :=
  "/devices/by-manufacturer/?manufacturer=" +:+ encodeURIComponent manufacturerName
  +:+ "&limit=100".

(** ** Internal relay ([POST] of [/api/internal/fetch-catalog-data]) *)

(** What [request.json()] gives: a rejection, a falsy value ([null], [false],
    [0], the empty string), or another value, with its [endpoint] when that is
    a string. *)
Inductive RequestBody :=
| BodyUnreadable
| BodyFalsy
| BodyValue (endpoint : option string).

(** What the upstream [fetch] and [text()] give. *)
Inductive Upstream :=
| UpstreamThrows (message : string)
| UpstreamResponse (status : Z) (contentType : option string) (text : string).

Record RelayRequest := {
  provided_secret : option string;
  request_body : RequestBody;
}.

(** The environment of the relay; [response_init_error] is the message of the
    error [new Response] throws for a status it refuses. *)
Record RelayEnv := {
  relay_INTERNAL_API_SECRET : option string;
  relay_MOBILEAPI_KEY : option string;
  upstream : string -> Upstream;
  response_init_error : Z -> string;
}.

(** The upstream [GET]: its URL and its [Authorization] header. *)
Inductive RelayEvent :=
| UpstreamGet (url authorization : string).

Inductive RelayBody :=
| RelayError (error : string) (message : option string)
| Relayed (text : string).

Record RelayResponse := {
  relay_status : Z;
  relay_body : RelayBody;
  relay_content_type : string;
}.

Definition relay_error (status : Z) (error : string) (message : option string)
  : RelayResponse :=
  {| relay_status := status;
     relay_body := RelayError error message;
     relay_content_type := "application/json" |}.

Definition baseUrl : string := "https://api.mobileapi.dev".

(** The target of the upstream request: a full URL as it is, a path after
    the base. *)
Definition targetUrl (rawEndpoint : string) : string :=
  if Js.startsWith rawEndpoint "http://" || Js.startsWith rawEndpoint "https://"
  then rawEndpoint
  else baseUrl +:+ (if Js.startsWith rawEndpoint "/" then "" else "/") +:+ rawEndpoint.

(** The [endpoint] the relay accepts: the body is truthy and its [endpoint]
    is a string that is not empty. *)
Definition accepted_endpoint (b : RequestBody) : option string :=
  match b with
  | BodyValue (Some e) => if Js.is_empty e then None else Some e
  | _ => None
  end.

(** [new Response(body, { status })] with a body throws for a status outside
    200..599 and for a null-body status. *)
Definition null_body_status (s : Z) : bool :=
  ((s =? 101) || (s =? 103) || (s =? 204) || (s =? 205) || (s =? 304))%Z.

Definition response_init_ok (s : Z) : bool :=
  ((200 <=? s) && (s <=? 599))%Z && negb (null_body_status s).

Definition quote : string := String (ascii_of_N 34) "".

Definition invalid_body_error : string :=
  "Invalid request body. Expected JSON with an " +:+ quote +:+ "endpoint" +:+ quote
  +:+ " string.".

Definition same_secret (provided internal : option string) : bool :=
  match provided, internal with
  | Some a, Some b => String.eqb a b
  | _, _ => false
  end.

Definition POST (env : RelayEnv) (req : RelayRequest) : list RelayEvent * RelayResponse :=
  if negb (truthy (relay_INTERNAL_API_SECRET env)) then
    ([], relay_error 500 "Internal server configuration error" None)
  else if negb (truthy (provided_secret req))
          || negb (same_secret (provided_secret req) (relay_INTERNAL_API_SECRET env)) then
    ([], relay_error 403 "Forbidden" None)
  else
    match accepted_endpoint (request_body req) with
    | None => ([], relay_error 400 invalid_body_error None)
    | Some rawEndpoint =>
        match relay_MOBILEAPI_KEY env with
        | None => ([], relay_error 500 "MobileAPI configuration error" None)
        | Some mobileApiKey =>
            if Js.is_empty mobileApiKey then
              ([], relay_error 500 "MobileAPI configuration error" None)
            else
              let request := UpstreamGet (targetUrl rawEndpoint) ("Token " +:+ mobileApiKey) in
              ([request],
               match upstream env (targetUrl rawEndpoint) with
               | UpstreamThrows message =>
                   relay_error 500 "Internal server error" (Some message)
               | UpstreamResponse status contentType text =>
                   if response_init_ok status then
                     {| relay_status := status;
                        relay_body := Relayed text;
                        relay_content_type := default "application/json" contentType |}
                   else
                     relay_error 500 "Internal server error"
                       (Some (response_init_error env status))
               end)
        end
    end.

(** A request the relay forwards: the secret is configured and matches, the
    endpoint is there and the provider key is configured. *)
Definition authorised (env : RelayEnv) (req : RelayRequest)
    (endpoint key : string) : Prop :=
  (exists secret,
      given (relay_INTERNAL_API_SECRET env) secret /\ provided_secret req = Some secret) /\
  request_body req = BodyValue (Some endpoint) /\ endpoint <> "" /\
  given (relay_MOBILEAPI_KEY env) key.

(** A string of slashes only. *)
Fixpoint slashes_only (s : string) : bool :=
  match s with
  | EmptyString => true
  | String c s' => Ascii.eqb c "/"%char && slashes_only s'
  end.

(** Reads the first encoded code unit back. *)
Definition hex_value (c : ascii) : N :=
  let n := Js.code c in if (n <? 58)%N then n - 48 else n - 55.

Definition decode_unit (s : string) : option (ascii * string) :=
  match s with
  | EmptyString => None
  | String c rest =>
      if Ascii.eqb c "%"%char then
        match rest with
        | String h (String l rest) =>
            let b := (16 * hex_value h + hex_value l)%N in
            if (b <? 128)%N then Some (ascii_of_N b, rest)
            else
              match rest with
              | String _ (String h' (String l' rest)) =>
                  let b' := (16 * hex_value h' + hex_value l')%N in
                  Some (ascii_of_N ((b - 192) * 64 + (b' - 128)), rest)
              | _ => None
              end
        | _ => None
        end
      else Some (c, rest)
  end.

(** HTTP white space: tab, line feed, carriage return and space. *)
Definition is_http_space (c : ascii) : bool :=
  let n := Js.code c in ((n =? 9) || (n =? 10) || (n =? 13) || (n =? 32))%N.

Fixpoint http_trim_start (s : string) : string :=
  match s with
  | EmptyString => EmptyString
  | String c s' => if is_http_space c then http_trim_start s' else s
  end.

Fixpoint http_trim_end (s : string) : string :=
  match s with
  | EmptyString => EmptyString
  | String c s' =>
      let r := http_trim_end s' in
      if is_http_space c && Js.is_empty r then EmptyString else String c r
  end.

(** What [fetch] refuses inside a header value: NUL, line feed and carriage
    return. *)
Definition forbidden_in_header (c : ascii) : bool :=
  let n := Js.code c in ((n =? 0) || (n =? 10) || (n =? 13))%N.

Fixpoint has_unit (p : ascii -> bool) (s : string) : bool :=
  match s with
  | EmptyString => false
  | String c s' => p c || has_unit p s'
  end.

(** The value of a header as [fetch] sends it, for the value it is given in
    [headers]: the value without its leading and trailing HTTP white space;
    [None] when what is left is refused, and [fetch] rejects with a
    [TypeError]. *)
Definition header_value (s : string) : option string :=
  let v := http_trim_end (http_trim_start s) in
  if has_unit forbidden_in_header v then None else Some v.

(** The request the relay reads when [fetch] sends the header value [sent]
    with the JSON body of the call. *)
Definition relay_request_of (sent : string) (call : ApiCall) : RelayRequest :=
  {| provided_secret := Some sent;
     request_body := BodyValue (Some (call_endpoint call)) |}.

(** What [fetch] makes of a call of [makeApiRequest] to the relay: it
    rejects with [headerError], the message of its [TypeError], when it
    refuses the secret as a header value; otherwise the relay reads the
    request and [fetch] gives its answer, where [ok] is a status from 200 to
    299; [statusText] and the serialization of the body are left open. *)
Definition relay_transport (env : RelayEnv) (statusText : Z -> string)
    (render : RelayBody -> string) (headerError : string) (call : ApiCall)
  : ApiAnswer + string :=
  match header_value (call_secret call) with
  | None => inr headerError
  | Some sent =>
      let r := snd (POST env (relay_request_of sent call)) in
      inl {| answer_ok := ((200 <=? relay_status r) && (relay_status r <=? 299))%Z;
             answer_status := relay_status r;
             answer_statusText := statusText (relay_status r);
             answer_text := Some (render (relay_body r)) |}
  end.

(** Every code unit of [s] satisfies [p]. *)
Fixpoint all_units (p : ascii -> bool) (s : string) : bool :=
  match s with
  | EmptyString => true
  | String c s' => p c && all_units p s'
  end.

(** What an encoded component is made of. *)
Definition uri_safe (c : ascii) : bool := uri_unreserved c || Ascii.eqb c "%"%char.

(** A header value without control characters other than the tab: what
    every HTTP stack sends as it is. *)
Definition header_text (s : string) : bool :=
  all_units (fun c => let n := Js.code c in
                      ((n =? 9) || ((32 <=? n) && negb (n =? 127)))%N) s.

(** ** Catalog statistics (the counters logged and returned by [serve]) *)

Record Stats := {
  stat_categories : nat;
  stat_totalBrands : nat;
  stat_totalModels : nat;
  stat_totalVariants : nat;
}.

(** [stats.totalModels++; stats.totalVariants += model.variants.length] *)
Definition count_model (_ : string) (model : Model) (stats : Stats) : Stats :=
  {| stat_categories := stat_categories stats;
     stat_totalBrands := stat_totalBrands stats;
     stat_totalModels := stat_totalModels stats + 1;
     stat_totalVariants := stat_totalVariants stats + length (variants model) |}.

(** [stats.totalBrands++], then the loop over the models of the brand. *)
Definition count_brand (_ : string) (brand : Brand) (stats : Stats) : Stats :=
  map_fold count_model
    {| stat_categories := stat_categories stats;
       stat_totalBrands := stat_totalBrands stats + 1;
       stat_totalModels := stat_totalModels stats;
       stat_totalVariants := stat_totalVariants stats |}
    (models brand).

Definition count_category (_ : string) (category : CategoryEntry) (stats : Stats) : Stats :=
  map_fold count_brand stats (brands category).

(** The counters after the three nested loops; they do not depend on the
    order in which the loops visit the entries. *)
Definition catalog_stats (cats : gmap string CategoryEntry) : Stats :=
  map_fold count_category
    {| stat_categories := size cats; stat_totalBrands := 0;
       stat_totalModels := 0; stat_totalVariants := 0 |}
    cats.

(** No device the invocation processes has a model name that is an
    inherited name. *)
Definition models_plain (w : World) (ms : list Manufacturer.t) : Prop :=
  forall mn d, processed w ms mn d -> inherited (device_model mn d) = false.

(** Every brand of the catalog has a model. *)
Definition brands_have_models (cats : gmap string CategoryEntry) : Prop :=
  forall c ce b be,
    cats !! c = Some ce -> brands ce !! b = Some be -> models be <> ∅.

(** ** The catalog as a function of the device stream *)

(** The devices a device request yields: none unless it answers an array. *)
Definition devices_of (r : FetchResult Device.t) : list Device.t :=
  match r with FetchArray ds => ds | _ => [] end.

(** The devices the manufacturer loop folds into the catalog from index [i]
    on, each under the name of its manufacturer, in the order of
    processing. *)
Fixpoint device_stream (w : World) (i : nat) (ms : list Manufacturer.t)
  : list (string * Device.t) :=
  match ms with
  | [] => []
  | mf :: rest =>
      (map (pair (Manufacturer.name mf))
         (folded_devices (Manufacturer.name mf)
            (devices_of (devices_response w i (Manufacturer.name mf))))
       ++ device_stream w (S i) rest)%list
  end.

(** The device is filed under the key [c], [b], [m]. *)
Definition files_under (c b m : string) (p : string * Device.t) : bool :=
  String.eqb c (device_category (snd p))
  && String.eqb b (resolveBrandName (snd p) (fst p))
  && String.eqb m (device_model (fst p) (snd p)).

(** A list with every string kept at its first occurrence only. *)
Fixpoint first_seen (l : list string) : list string :=
  match l with
  | [] => []
  | x :: l => x :: List.filter (fun y => negb (String.eqb x y)) (first_seen l)
  end.

(** What the devices of a stream that are filed under a key bring to its
    variants, device by device. *)
Definition brought (c b m : string) (stream : list (string * Device.t))
  : list (list string) :=
  map (fun p => device_variants (fst p) (snd p))
    (List.filter (files_under c b m) stream).

(** The variants under a key once devices have brought theirs: what was
    there when no device is filed under the key, and otherwise the list that
    was there with what they bring merged into it. *)
Definition merged (start : option (list string)) (brought : list (list string))
  : option (list string) :=
  match brought with
  | [] => start
  | _ :: _ => Some (merge_variants (default [] start) (concat brought))
  end.

(** The events of a run from its first upload on. *)
Fixpoint from_first_upload (evs : list Event) : list Event :=
  match evs with
  | [] => []
  | e :: rest => if is_upload e then e :: rest else from_first_upload rest
  end.

(** The manufacturers whose iteration ended in the [catch], with what it
    caught, in program order. *)
Fixpoint caught (evs : list Event) : list (string * Thrown) :=
  match evs with
  | [] => []
  | Warn (FetchDevicesFailed manufacturerName error) :: evs =>
      (manufacturerName, error) :: caught evs
  | _ :: evs => caught evs
  end.

Definition google : Manufacturer.t :=
  {| Manufacturer.id := 3; Manufacturer.name := "Google";
     Manufacturer.website_url := None |}.

(** An invocation with two manufacturers: the device request of the first
    one throws, and the second one lists a device named like an inherited
    property before another device. *)
Definition dropping_world : World :=
  {| env_INTERNAL_API_SECRET := env_INTERNAL_API_SECRET sample_world;
     env_INTERNAL_API_BASE_URL := env_INTERNAL_API_BASE_URL sample_world;
     env_SITE_URL := env_SITE_URL sample_world;
     now := now sample_world;
     manufacturers_response := FetchArray [acme; google];
     devices_response := fun i _ =>
       match i with
       | 0 => FetchThrows "Internal API request failed (HTTP 500: Internal Server Error). "
       | 1 => FetchArray [sample_device "constructor" None;
                          sample_device "Pixel 8 128GB" (Some "128GB")]
       | _ => FetchNotArray
       end;
     upload_response := upload_response sample_world |}.

(** The attempt numbers of the upload warnings, in program order. *)
Fixpoint upload_warnings (evs : list Event) : list nat :=
  match evs with
  | [] => []
  | Warn (UploadAttemptFailed n _) :: evs => n :: upload_warnings evs
  | _ :: evs => upload_warnings evs
  end.

(** The sample invocation with a storage that accepts the third upload. *)
Definition flaky_world : World :=
  {| env_INTERNAL_API_SECRET := env_INTERNAL_API_SECRET sample_world;
     env_INTERNAL_API_BASE_URL := env_INTERNAL_API_BASE_URL sample_world;
     env_SITE_URL := env_SITE_URL sample_world;
     now := now sample_world;
     manufacturers_response := manufacturers_response sample_world;
     devices_response := devices_response sample_world;
     upload_response := fun k =>
       match k with
       | 0 | 1 => Some (storage_error "gateway timeout")
       | _ => None
       end |}.



(** An invocation whose only device has a blank name. *)
Definition blank_world : World :=
  {| env_INTERNAL_API_SECRET := env_INTERNAL_API_SECRET sample_world;
     env_INTERNAL_API_BASE_URL := env_INTERNAL_API_BASE_URL sample_world;
     env_SITE_URL := env_SITE_URL sample_world;
     now := now sample_world;
     manufacturers_response := FetchArray [acme];
     devices_response := fun _ _ => FetchArray [blank_device];
     upload_response := upload_response sample_world |}.

(** * Proofs *)

Example categorize_examples :
  categorizeDevice "iPad Pro" = tablet /\
  categorizeDevice "Galaxy Watch 5" = smartwatch /\
  categorizeDevice "iPhone 15" = phone.
Proof. repeat split; reflexivity. Qed.

Example extract_examples :
  extractModelName "Samsung Galaxy S21 128GB Black" "Samsung" = "Galaxy S21" /\
  extractModelName "Galaxy S21 128GB 5G" "Samsung" = "Galaxy S21" /\
  extractModelName "Xiaomi Redmi Note 10" "Xiaomi" = "Xiaomi Redmi Note 10" /\
  extractStorageVariants (Some "128GB, 256GB, 512GB") = ["128GB"; "256GB"; "512GB"] /\
  extractStorageVariants None = [] /\
  ends_with_token color_tokens "Galaxy S21 128GB black" = true /\
  ends_with_token storage_tokens "Galaxy S21 128GB black" = false.
Proof. repeat split; vm_compute; reflexivity. Qed.

(** ** Facts about the string primitives *)

Section StringFacts.

Lemma startsWith_spec (s p : string) :
  Js.startsWith s p = true <-> exists post, s = p +:+ post.
Proof.
  revert s; induction p as [|a p IH]; intros s; simpl.
  - split; [intros _; now exists s | reflexivity].
  - destruct s as [|b s]; simpl.
    + split; [discriminate | intros [post H]; discriminate].
    + destruct (Ascii.eqb_spec a b) as [->|Hne].
      * rewrite IH. split; intros [post H]; exists post;
          [now rewrite H | now injection H].
      * split; [discriminate | intros [post H]; injection H; congruence].
Qed.

Lemma includes_spec (s t : string) :
  Js.includes s t = true <-> exists pre post, s = pre +:+ t +:+ post.
Proof.
  induction s as [|c s IH]; simpl.
  - rewrite orb_false_r, startsWith_spec. split.
    + intros [post H]. now exists "", post.
    + intros [[|x pre] [post H]]; [now exists post | discriminate].
  - rewrite orb_true_iff, startsWith_spec, IH. split.
    + intros [[post H] | [pre [post H]]].
      * now exists "", post.
      * exists (String c pre), post. simpl. now rewrite H.
    + intros [[|x pre] [post H]].
      * left. now exists post.
      * right. simpl in H. injection H as _ H. now exists pre, post.
Qed.

End StringFacts.

(** ** Categorization *)

(** C7.  [categorizeDevice] looks at the lower-cased name only: it answers
    [tablet] exactly when that contains "tablet", "ipad" or "tab";
    [smartwatch] exactly when it does not and contains "watch" or "band";
    [phone] exactly when it contains none of the five.  Hence two names that
    differ only in the case of their letters get the same category, and
    "iPad Pro", "Galaxy Watch 5" and "iPhone 15" are a tablet, a smartwatch
    and a phone. *)
Theorem categorizeDevice_rule (deviceName : string) :
  let name := Js.toLowerCase deviceName in
  (categorizeDevice deviceName = tablet <-> tablet_name name) /\
  (categorizeDevice deviceName = smartwatch <-> ~ tablet_name name /\ watch_name name) /\
  (categorizeDevice deviceName = phone <-> ~ tablet_name name /\ ~ watch_name name) /\
  (forall other, Js.toLowerCase other = name ->
                 categorizeDevice other = categorizeDevice deviceName) /\
  categorizeDevice "iPad Pro" = tablet /\
  categorizeDevice "IPAD PRO" = tablet /\
  categorizeDevice "Galaxy Watch 5" = smartwatch /\
  categorizeDevice "galaxy watch 5" = smartwatch /\
  categorizeDevice "iPhone 15" = phone /\
  categorizeDevice "IPHONE 15" = phone.
Proof.
  intros name.
  assert (Ht : Js.includes name "tablet" || Js.includes name "ipad"
               || Js.includes name "tab" = true <-> tablet_name name).
  { unfold tablet_name, occurs_in. rewrite !orb_true_iff, !includes_spec. tauto. }
  assert (Hw : Js.includes name "watch" || Js.includes name "band" = true
               <-> watch_name name).
  { unfold watch_name, occurs_in. rewrite !orb_true_iff, !includes_spec. tauto. }
  unfold categorizeDevice. fold name.
  destruct (Js.includes name "tablet" || Js.includes name "ipad"
            || Js.includes name "tab") eqn:Et;
    [| destruct (Js.includes name "watch" || Js.includes name "band") eqn:Ew].
  - assert (tablet_name name) by now apply Ht.
    repeat split; try reflexivity; try discriminate; try tauto.
    intros other ->. now rewrite Et.
  - assert (~ tablet_name name) by (rewrite <- Ht; discriminate).
    assert (watch_name name) by now apply Hw.
    repeat split; try reflexivity; try discriminate; try tauto.
    intros other ->. now rewrite Et, Ew.
  - assert (~ tablet_name name) by (rewrite <- Ht; discriminate).
    assert (~ watch_name name) by (rewrite <- Hw; discriminate).
    repeat split; try reflexivity; try discriminate; try tauto.
    intros other ->. now rewrite Et, Ew.
Qed.

Lemma categorizeDevice_rule_witness :
  tablet_name (Js.toLowerCase "Galaxy Tab S9") /\
  categorizeDevice "Galaxy Tab S9" = tablet.
Proof.
  assert (H : tablet_name (Js.toLowerCase "Galaxy Tab S9")).
  { right; right. exists "galaxy ", " s9". reflexivity. }
  split; [exact H |].
  exact (proj2 (proj1 (categorizeDevice_rule "Galaxy Tab S9")) H).
Defined.

(** ** Model-name extraction *)

Section Extraction.

Lemma is_space_canonicalize (c : ascii) :
  Js.is_space (Js.canonicalize c) = Js.is_space c.
Proof. destruct c as [[] [] [] [] [] [] [] []]; reflexivity. Qed.

Lemma toLowerCase_app (a b : string) :
  Js.toLowerCase (a +:+ b) = Js.toLowerCase a +:+ Js.toLowerCase b.
Proof. induction a as [|x a IH]; simpl; [reflexivity | now rewrite IH]. Qed.

Lemma toLowerCase_length (a b : string) :
  Js.toLowerCase a = Js.toLowerCase b -> String.length a = String.length b.
Proof.
  revert b; induction a as [|x a IH]; intros [|y b] H; simpl in *;
    try discriminate; [reflexivity |].
  injection H as _ H. f_equal. now apply IH.
Qed.

Lemma substring_app (p rest : string) :
  Js.substring (String.length p) (p +:+ rest) = rest.
Proof. induction p as [|x p IH]; simpl; [now destruct rest | exact IH]. Qed.

Lemma brand_prefix_iff (d b : string) :
  Js.startsWith (Js.toLowerCase d) (Js.toLowerCase b) = true <->
  exists p rest, d = p +:+ rest /\ Js.toLowerCase p = Js.toLowerCase b.
Proof.
  split.
  - revert d; induction b as [|y b IH]; intros d H.
    + now exists "", d.
    + destruct d as [|x d]; simpl in H; [discriminate |].
      destruct (Ascii.eqb_spec (Js.lower_char y) (Js.lower_char x)) as [E|];
        [| discriminate].
      destruct (IH d H) as (p & rest & -> & Hp).
      exists (String x p), rest. simpl. now rewrite E, Hp.
  - intros (p & rest & -> & Hp). apply startsWith_spec.
    exists (Js.toLowerCase rest). now rewrite toLowerCase_app, Hp.
Qed.

Lemma brand_stripped_sound (d b : string) :
  brand_stripped d b
    (if Js.startsWith (Js.toLowerCase d) (Js.toLowerCase b)
     then Js.trim (Js.substring (String.length b) d) else d).
Proof.
  destruct (Js.startsWith _ _) eqn:E.
  - apply brand_prefix_iff in E as (p & rest & -> & Hp).
    rewrite <- (toLowerCase_length _ _ Hp), substring_app.
    now apply brand_is_prefix with p.
  - apply brand_is_absent. intros p rest Hd Hp.
    assert (Js.startsWith (Js.toLowerCase d) (Js.toLowerCase b) = true)
      by (apply brand_prefix_iff; eauto).
    congruence.
Qed.

Lemma lit_ci_spec (t s rest : string) :
  lit_ci t s = Some rest <->
  exists t', s = t' +:+ rest /\ canonical t' = canonical t.
Proof.
  revert s; induction t as [|a t IH]; intros s; simpl.
  - split.
    + intros [= ->]. now exists "".
    + intros ([|x t'] & -> & H); [reflexivity | discriminate].
  - destruct s as [|b s].
    + split; [discriminate |]. intros ([|x t'] & H1 & H2); discriminate.
    + destruct (Ascii.eqb_spec (Js.canonicalize a) (Js.canonicalize b)) as [E|N].
      * rewrite IH. split.
        -- intros (t' & -> & H). exists (String b t'). simpl. now rewrite H, E.
        -- intros ([|x t'] & H1 & H2); [discriminate |].
           simpl in H1, H2. injection H1 as -> ->. injection H2 as _ H2.
           now exists t'.
      * split; [discriminate |].
        intros ([|x t'] & H1 & H2); [discriminate |].
        simpl in H1, H2. injection H1 as -> ->. injection H2 as H2 _.
        congruence.
Qed.

Lemma alt_eol_spec (toks : list string) (s : string) :
  alt_eol toks s = true <-> token_at toks s.
Proof.
  unfold alt_eol, token_at. rewrite existsb_exists. split.
  - intros (t & Hin & H). destruct (lit_ci t s) as [rest|] eqn:E; [| discriminate].
    apply lit_ci_spec in E as (t' & -> & Ht). now exists t, t', rest.
  - intros (t & t' & rest & Hin & -> & Ht & Hr). exists t. split; [exact Hin |].
    assert (E : lit_ci t (t' +:+ rest) = Some rest) by (apply lit_ci_spec; eauto).
    now rewrite E.
Qed.

Variable toks : list string.
Hypothesis toks_head : forall t, In t toks -> head_not_space t = true.

Lemma token_at_head (s : string) :
  token_at toks s -> exists c s', s = String c s' /\ Js.is_space c = false.
Proof.
  intros (t & t' & rest & Hin & -> & Ht & _).
  specialize (toks_head t Hin). destruct t as [|a t]; [discriminate |].
  destruct t' as [|b t']; [discriminate |].
  simpl in Ht. injection Ht as Hc _. exists b, (t' +:+ rest). split; [reflexivity |].
  rewrite <- is_space_canonicalize, Hc, is_space_canonicalize.
  simpl in toks_head. now destruct (Js.is_space a).
Qed.

Lemma re_here_elim (s : string) :
  re_here toks s = true ->
  exists ws suf, s = ws +:+ suf /\ Js.has_non_space ws = false /\ token_at toks suf.
Proof.
  induction s as [|c s IH]; simpl.
  - intros H. exists "", "". now rewrite <- alt_eol_spec.
  - rewrite orb_true_iff, andb_true_iff. intros [[Hc H] | H].
    + destruct (IH H) as (ws & suf & -> & Hws & Hsuf).
      exists (String c ws), suf. simpl. now rewrite Hc, Hws.
    + exists "", (String c s). now rewrite <- alt_eol_spec.
Qed.

Lemma re_here_intro (ws suf : string) :
  Js.has_non_space ws = false -> token_at toks suf ->
  re_here toks (ws +:+ suf) = true.
Proof.
  intros Hws Hsuf. induction ws as [|c ws IH]; simpl in *.
  - apply alt_eol_spec in Hsuf. destruct suf; simpl; [exact Hsuf |].
    rewrite Hsuf. apply orb_true_r.
  - apply orb_false_iff in Hws as [Hc Hws]. apply negb_false_iff in Hc.
    now rewrite Hc, IH.
Qed.

Lemma trimEnd_is_empty (s : string) :
  Js.is_empty (Js.trimEnd s) = negb (Js.has_non_space s).
Proof.
  induction s as [|c s IH]; simpl; [reflexivity |].
  rewrite IH. destruct (Js.is_space c), (Js.has_non_space s); reflexivity.
Qed.

Lemma has_non_space_prefix (ws suf pre' suf' : string) :
  Js.has_non_space ws = false ->
  ws +:+ suf = pre' +:+ suf' ->
  String.length pre' < String.length ws ->
  exists c s', suf' = String c s' /\ Js.is_space c = true.
Proof.
  revert pre'; induction ws as [|c ws IH]; intros pre' Hws E Hlen; simpl in *.
  - lia.
  - apply orb_false_iff in Hws as [Hc Hws]. apply negb_false_iff in Hc.
    destruct pre' as [|x pre']; simpl in *.
    + exists c, (ws +:+ suf). now rewrite <- E.
    + injection E as _ E. apply (IH pre' Hws E). lia.
Qed.

Lemma re_replace_strips (s : string) : strips toks s (re_replace toks s).
Proof.
  induction s as [|c s IH].
  - simpl. destruct (alt_eol toks "") eqn:E.
    + apply alt_eol_spec, token_at_head in E as (x & s' & H & _). discriminate.
    + apply strips_nothing. intros pre suf H.
      destruct pre; [| discriminate]. simpl in H. subst suf.
      rewrite <- alt_eol_spec. congruence.
  - cbn [re_replace]. destruct (re_here toks (String c s)) eqn:E.
    + apply re_here_elim in E as (ws & suf & Hs & Hws & Hsuf).
      replace EmptyString with (Js.trimEnd ws).
      * apply strips_from with suf; [exact Hs | exact Hsuf |].
        intros pre' suf' Hs' Hlen Htok. rewrite Hs in Hs'.
        destruct (has_non_space_prefix _ _ _ _ Hws Hs' Hlen) as (x & s' & -> & Hx).
        apply token_at_head in Htok as (y & s'' & [= <- <-] & Hy). congruence.
      * pose proof (trimEnd_is_empty ws) as H. rewrite Hws in H.
        now destruct (Js.trimEnd ws).
    + assert (Hhead : ~ token_at toks (String c s)).
      { intros H. pose proof (re_here_intro "" _ eq_refl H) as H'.
        simpl in H', E. congruence. }
      remember (re_replace toks s) as r eqn:Hr. clear Hr.
      destruct IH as [Hnone | pre suf Hs Hsuf Hfirst].
      * apply strips_nothing.
        intros [|x pre] suf H; simpl in H.
        -- now subst suf.
        -- injection H as _ H. now apply (Hnone pre).
      * assert (Ht : Js.trimEnd (String c pre) = String c (Js.trimEnd pre)).
        { simpl. destruct (Js.is_space c) eqn:Hc; [| reflexivity].
          rewrite trimEnd_is_empty.
          destruct (Js.has_non_space pre) eqn:Hp; [reflexivity |].
          exfalso. rewrite Hs in E.
          assert (Hre : re_here toks (String c pre +:+ suf) = true).
          { apply re_here_intro; [| exact Hsuf]. simpl. now rewrite Hc, Hp. }
          simpl in Hre. simpl in E. congruence. }
        rewrite <- Ht. apply strips_from with suf.
        -- simpl. now rewrite <- Hs.
        -- exact Hsuf.
        -- intros [|x pre'] suf' H Hlen; simpl in H.
           ++ now subst suf'.
           ++ injection H as _ H. apply (Hfirst pre' suf' H). simpl in Hlen. lia.
Qed.

End Extraction.

Lemma storage_tokens_head (t : string) :
  In t storage_tokens -> head_not_space t = true.
Proof.
  intros H. assert (F : forallb head_not_space storage_tokens = true) by reflexivity.
  rewrite forallb_forall in F. now apply F.
Qed.

Lemma color_tokens_head (t : string) :
  In t color_tokens -> head_not_space t = true.
Proof.
  intros H. assert (F : forallb head_not_space color_tokens = true) by reflexivity.
  rewrite forallb_forall in F. now apply F.
Qed.

Lemma app_length_split (a b c d : string) :
  a +:+ b = c +:+ d -> String.length a = String.length c -> a = c /\ b = d.
Proof.
  revert c; induction a as [|x a IH]; intros [|y c] H L; simpl in *;
    try discriminate; [now split |].
  injection H as -> H. injection L as L. destruct (IH c H L) as [-> ->]. now split.
Qed.

(** The cut is determined by the string: [strips] relates [s] to one result. *)
Lemma strips_functional (toks : list string) (s r1 r2 : string) :
  strips toks s r1 -> strips toks s r2 -> r1 = r2.
Proof.
  intros [H1 | p1 s1 E1 T1 F1] [H2 | p2 s2 E2 T2 F2].
  - reflexivity.
  - now destruct (H1 p2 s2 E2).
  - now destruct (H2 p1 s1 E1).
  - destruct (Nat.lt_trichotomy (String.length p1) (String.length p2)) as [L | [L | L]].
    + now destruct (F2 p1 s1 E1 L).
    + rewrite E1 in E2. now destruct (app_length_split _ _ _ _ E2 L) as [-> _].
    + now destruct (F1 p2 s2 E2 L).
Qed.

(** So is the brand-less name. *)
Lemma brand_stripped_functional (d b r1 r2 : string) :
  brand_stripped d b r1 -> brand_stripped d b r2 -> r1 = r2.
Proof.
  intros [p1 s1 E1 L1 | H1] [p2 s2 E2 L2 | H2].
  - rewrite E1 in E2.
    assert (L : String.length p1 = String.length p2)
      by (apply toLowerCase_length; congruence).
    now destruct (app_length_split _ _ _ _ E2 L) as [_ ->].
  - now destruct (H2 p1 s1 E1).
  - now destruct (H1 p2 s2 E2).
  - reflexivity.
Qed.

(** C1, as the code has it.  [extractModelName] takes the leading brand off
    the device name when the name starts with it in any case (and trims);
    cuts the result at the first storage-size token, wherever it stands,
    dropping the token, the white space before it and everything after it;
    cuts what is left at the first color token in the same way; trims; and
    answers the original device name when nothing is left.  In particular
    "Samsung Galaxy S21 128GB Black" of brand "Samsung" gives "Galaxy S21". *)
Theorem extractModelName_cuts (deviceName brandName : string) :
  (exists m0 m1 m2,
      brand_stripped deviceName brandName m0 /\
      strips storage_tokens m0 m1 /\
      strips color_tokens m1 m2 /\
      extractModelName deviceName brandName =
        (if Js.is_empty (Js.trim m2) then deviceName else Js.trim m2)) /\
  extractModelName "Samsung Galaxy S21 128GB Black" "Samsung" = "Galaxy S21".
Proof.
  split; [| reflexivity].
  eexists _, _, _. split; [apply brand_stripped_sound |].
  split; [apply re_replace_strips, storage_tokens_head |].
  split; [apply re_replace_strips, color_tokens_head |].
  reflexivity.
Qed.

(** C1, as the claim has it, fails: "Galaxy S21 128GB 5G" does not start with
    the brand and ends with no token of either vocabulary, so nothing stands
    "at the end of the string" to be stripped; the code still cuts it at
    "128GB". *)
Lemma extractModelName_cuts_inner_token :
  let d := "Galaxy S21 128GB 5G" in
  Js.startsWith (Js.toLowerCase d) (Js.toLowerCase "Samsung") = false /\
  ends_with_token (storage_tokens ++ color_tokens) (Js.trim d) = false /\
  extractModelName d "Samsung" = "Galaxy S21" /\
  extractModelName d "Samsung" <> Js.trim d.
Proof. repeat split; try reflexivity. vm_compute. discriminate. Qed.

(** ** Variant lists *)

Section Variants.

Lemma array_includes_spec (a : list string) (x : string) :
  Js.array_includes a x = true <-> x ∈ a.
Proof.
  unfold Js.array_includes. rewrite existsb_exists, list_elem_of_In. split.
  - intros (y & Hin & E). apply String.eqb_eq in E. now subst.
  - intros H. exists x. split; [exact H | apply String.eqb_refl].
Qed.

Lemma array_includes_false (a : list string) (x : string) :
  Js.array_includes a x = false <-> x ∉ a.
Proof.
  rewrite <- array_includes_spec. now destruct (Js.array_includes a x).
Qed.

Lemma merge_variants_spec (sv vs : list string) :
  exists added,
    merge_variants vs sv = vs ++ added /\
    sublist added sv /\
    (NoDup vs -> NoDup (vs ++ added)) /\
    (forall v, v ∈ sv -> v ∈ vs ++ added).
Proof.
  revert vs; induction sv as [|x sv IH]; intros vs.
  - exists []. rewrite app_nil_r. repeat split; auto. intros v H. inversion H.
  - unfold merge_variants. simpl. fold (merge_variants (push_new vs x) sv).
    destruct (IH (push_new vs x)) as (added & E & Hsub & Hnd & Hin).
    unfold push_new in *. destruct (Js.array_includes vs x) eqn:Ex.
    + apply array_includes_spec in Ex. exists added. repeat split; auto.
      * now apply sublist_cons.
      * intros v Hv. apply elem_of_cons in Hv as [-> | Hv]; [| now apply Hin].
        apply elem_of_app. now left.
    + apply array_includes_false in Ex. exists (x :: added).
      rewrite <- app_assoc in E, Hnd, Hin. simpl in E, Hnd, Hin.
      repeat split; auto.
      * now apply sublist_skip.
      * intros Hvs. apply Hnd. apply NoDup_app. repeat split; auto.
        -- intros y Hy Hy'. apply list_elem_of_singleton in Hy'. now subst.
        -- apply NoDup_singleton.
      * intros v Hv. apply elem_of_cons in Hv as [-> | Hv]; [| now apply Hin].
        apply elem_of_app. right. now left.
Qed.

Lemma merge_variants_included (sv vs : list string) :
  (forall v, v ∈ sv -> v ∈ vs) -> merge_variants vs sv = vs.
Proof.
  induction sv as [|x sv IH]; intros H; [reflexivity |].
  unfold merge_variants. simpl. fold (merge_variants (push_new vs x) sv).
  assert (Ex : Js.array_includes vs x = true).
  { apply array_includes_spec, H. now left. }
  unfold push_new. rewrite Ex. apply IH. intros v Hv. apply H. now right.
Qed.

Lemma merge_variants_idempotent (sv vs : list string) :
  merge_variants (merge_variants vs sv) sv = merge_variants vs sv.
Proof.
  apply merge_variants_included. intros v Hv.
  destruct (merge_variants_spec sv vs) as (added & -> & _ & _ & Hin). now apply Hin.
Qed.

Lemma add_variants_merge (vs sv : list string) (m : string) (st : option string) :
  add_variants vs sv m st = merge_variants vs (contributed sv m st).
Proof.
  unfold add_variants, contributed. destruct sv as [|x sv]; [| reflexivity].
  destruct (Js.is_empty (variantName m st)); simpl; [reflexivity |].
  unfold merge_variants, push_new. simpl.
  now destruct (Js.array_includes vs (variantName m st)).
Qed.

Lemma has_non_space_app (a b : string) :
  Js.has_non_space (a +:+ b) = Js.has_non_space a || Js.has_non_space b.
Proof.
  induction a as [|x a IH]; simpl; [reflexivity |].
  rewrite IH. apply orb_assoc.
Qed.

Lemma has_non_space_trimStart (s : string) :
  Js.has_non_space (Js.trimStart s) = Js.has_non_space s.
Proof.
  induction s as [|x s IH]; simpl; [reflexivity |].
  destruct (Js.is_space x) eqn:E; simpl; [exact IH | now rewrite E].
Qed.

Lemma trim_is_empty (s : string) :
  Js.is_empty (Js.trim s) = negb (Js.has_non_space s).
Proof.
  unfold Js.trim. now rewrite trimEnd_is_empty, has_non_space_trimStart.
Qed.

Lemma contributed_model_name (sv : list string) (m : string) (st : option string) :
  Js.has_non_space m = true -> contributed sv m st <> [].
Proof.
  intros H. unfold contributed. destruct sv; [| discriminate].
  unfold variantName. rewrite trim_is_empty, has_non_space_app, H. discriminate.
Qed.

Lemma add_variants_nonempty (vs sv : list string) (m : string) (st : option string) :
  contributed sv m st <> [] -> add_variants vs sv m st <> [].
Proof.
  intros H. rewrite add_variants_merge.
  destruct (merge_variants_spec (contributed sv m st) vs) as (added & -> & _ & _ & Hin).
  destruct (contributed sv m st) as [|x l]; [congruence |].
  intros E. specialize (Hin x (list_elem_of_here _ _)). rewrite E in Hin.
  inversion Hin.
Qed.

End Variants.

(** ** Catalog builder: reading back what one device wrote *)

Section Builder.

Lemma lookup_variants_path (cats : gmap string CategoryEntry) (c b m : string) :
  lookup_variants cats c b m
  = variants <$> (models_of (brands_of cats c) b !! m).
Proof.
  unfold lookup_variants, models_of, brands_of.
  destruct (cats !! c) as [ce|]; simpl; [| now rewrite lookup_empty].
  destruct (brands ce !! b) as [be|]; simpl; [| now rewrite lookup_empty].
  now destruct (models be !! m).
Qed.

Lemma variants_of_path (cats : gmap string CategoryEntry) (c b m : string) :
  variants_of (models_of (brands_of cats c) b) m = variants_at cats c b m.
Proof.
  unfold variants_at. rewrite lookup_variants_path. unfold variants_of.
  now destruct (models_of (brands_of cats c) b !! m).
Qed.

(** An inherited name holds no white space, so the variants of a model of
    that name are always read. *)
Lemma inherited_has_non_space (k : string) :
  inherited k = true -> Js.has_non_space k = true.
Proof.
  unfold inherited. intros H. apply array_includes_spec in H.
  unfold prototype_names in H.
  repeat (apply elem_of_cons in H as [-> | H]; [reflexivity |]).
  inversion H.
Qed.

Lemma inherited_reads_variants (sv : list string) (m : string) (st : option string) :
  inherited m = true -> reads_variants sv m st = true.
Proof.
  intros H. unfold reads_variants. destruct sv; [| reflexivity].
  unfold variantName.
  now rewrite trim_is_empty, has_non_space_app, (inherited_has_non_space m H).
Qed.

Lemma lookup_ensure_eq {V : Type} (k : string) (v : V) (m : gmap string V) :
  ensure k v m !! k
  = match m !! k with
    | Some x => Some x
    | None => if inherited k then None else Some v
    end.
Proof.
  unfold ensure. destruct (m !! k) eqn:E; [exact E |].
  destruct (inherited k); [exact E | apply lookup_insert_eq].
Qed.

Lemma lookup_ensure_ne {V : Type} (k k' : string) (v : V) (m : gmap string V) :
  k <> k' -> ensure k v m !! k' = m !! k'.
Proof.
  intros N. unfold ensure. destruct (m !! k); [reflexivity |].
  destruct (inherited k); [reflexivity |]. now apply lookup_insert_ne.
Qed.

Lemma ensure_present {V : Type} (k : string) (v : V) (m : gmap string V) :
  is_Some (m !! k) -> ensure k v m = m.
Proof. intros [x E]. unfold ensure. now rewrite E. Qed.

(** The key is still missing after [ensure] for an inherited name only, and
    nothing was created then. *)
Lemma ensure_missing {V : Type} (k : string) (v : V) (m : gmap string V) :
  ensure k v m !! k = None ->
  ensure k v m = m /\ m !! k = None /\ inherited k = true.
Proof.
  rewrite lookup_ensure_eq. unfold ensure. destruct (m !! k); [discriminate |].
  destruct (inherited k); [auto | discriminate].
Qed.

Lemma brands_of_ensure (cats : gmap string CategoryEntry) (c c' : string) :
  brands_of (ensure c {| brands := ∅ |} cats) c' = brands_of cats c'.
Proof.
  unfold brands_of. destruct (decide (c = c')) as [<-|N].
  - rewrite lookup_ensure_eq. destruct (cats !! c); [reflexivity |].
    now destruct (inherited c).
  - now rewrite lookup_ensure_ne.
Qed.

Lemma models_of_ensure (bs : gmap string Brand) (b b' : string) :
  models_of (ensure b {| models := ∅ |} bs) b' = models_of bs b'.
Proof.
  unfold models_of. destruct (decide (b = b')) as [<-|N].
  - rewrite lookup_ensure_eq. destruct (bs !! b); [reflexivity |].
    now destruct (inherited b).
  - now rewrite lookup_ensure_ne.
Qed.

Lemma variants_of_ensure (ms : gmap string Model) (m m' : string) :
  variants_of (ensure m {| variants := [] |} ms) m' = variants_of ms m'.
Proof.
  unfold variants_of. destruct (decide (m = m')) as [<-|N].
  - rewrite lookup_ensure_eq. destruct (ms !! m); [reflexivity |].
    now destruct (inherited m).
  - now rewrite lookup_ensure_ne.
Qed.

Lemma category_entry_id (cats : gmap string CategoryEntry) (c : string) :
  is_Some (cats !! c) -> <[c := {| brands := brands_of cats c |}]> cats = cats.
Proof.
  intros [[bs] E]. apply insert_id. unfold brands_of. now rewrite E.
Qed.

Lemma brand_entry_id (bs : gmap string Brand) (b : string) :
  is_Some (bs !! b) -> <[b := {| models := models_of bs b |}]> bs = bs.
Proof.
  intros [[ms] E]. apply insert_id. unfold models_of. now rewrite E.
Qed.

Variable cats : gmap string CategoryEntry.
Variables c b m : string.
Variable sv : list string.
Variable st : option string.

Let vs' := add_variants (variants_at cats c b m) sv m st.

Local Abbreviation cats1 := (ensure c {| brands := ∅ |} cats).
Local Abbreviation bs1 := (ensure b {| models := ∅ |} (brands_of cats c)).
Local Abbreviation ms1 :=
  (ensure m {| variants := [] |} (models_of (brands_of cats c) b)).

(** The four ways the step ends: it completes, with the variants under the
    device's key; or it throws at an inherited category, brand or model
    name, having created nothing under that name. *)
Lemma fold_device_step_cases :
  (fold_device_throws cats c b m sv st = None /\
   is_Some (cats1 !! c) /\ is_Some (bs1 !! b) /\ is_Some (ms1 !! m) /\
   fold_device cats c b m sv st
   = <[c := {| brands :=
        <[b := {| models := <[m := {| variants := vs' |}]> ms1 |}]> bs1 |}]> cats1)
  \/ (fold_device_throws cats c b m sv st = Some b /\
      cats !! c = None /\ inherited c = true /\
      fold_device cats c b m sv st = cats)
  \/ (fold_device_throws cats c b m sv st = Some m /\
      is_Some (cats1 !! c) /\
      brands_of cats c !! b = None /\ inherited b = true /\
      fold_device cats c b m sv st = cats1)
  \/ (fold_device_throws cats c b m sv st = Some "includes" /\
      is_Some (cats1 !! c) /\ is_Some (bs1 !! b) /\
      models_of (brands_of cats c) b !! m = None /\ inherited m = true /\
      fold_device cats c b m sv st = <[c := {| brands := bs1 |}]> cats1).
Proof.
  unfold fold_device, fold_device_throws, fold_device_step.
  rewrite !brands_of_ensure, !models_of_ensure.
  destruct (cats1 !! c) as [ce|] eqn:Ec.
  2:{ right; left. apply ensure_missing in Ec as (E1 & E2 & E3).
      cbn [fst snd]. now rewrite E1. }
  destruct (bs1 !! b) as [be|] eqn:Eb.
  2:{ right; right; left. apply ensure_missing in Eb as (E1 & E2 & E3).
      cbn [fst snd]. rewrite E1. repeat split; eauto.
      rewrite <- (brands_of_ensure cats c c). apply category_entry_id. eauto. }
  destruct (ms1 !! m) as [me|] eqn:Em.
  2:{ right; right; right. apply ensure_missing in Em as (E1 & E2 & E3).
      cbn [fst snd]. rewrite (inherited_reads_variants sv m st E3), E1.
      repeat split; eauto.
      rewrite <- (models_of_ensure (brands_of cats c) b b).
      rewrite brand_entry_id; eauto. }
  left. cbn [fst snd]. repeat split; eauto.
  now rewrite variants_of_ensure, variants_of_path.
Qed.

Lemma lookup_variants_ensured (c' b' m' : string) :
  lookup_variants cats1 c' b' m' = lookup_variants cats c' b' m'.
Proof. now rewrite !lookup_variants_path, brands_of_ensure. Qed.

Lemma brands_of_brand_ensured (c' : string) :
  brands_of (<[c := {| brands := bs1 |}]> cats1) c'
  = if decide (c = c') then bs1 else brands_of cats c'.
Proof.
  unfold brands_of at 1. case_decide as E.
  - subst c'. now rewrite lookup_insert_eq.
  - rewrite lookup_insert_ne by exact E. apply (brands_of_ensure cats c c').
Qed.

Lemma lookup_variants_brand_ensured (c' b' m' : string) :
  lookup_variants (<[c := {| brands := bs1 |}]> cats1) c' b' m'
  = lookup_variants cats c' b' m'.
Proof.
  rewrite !lookup_variants_path, brands_of_brand_ensured.
  case_decide as E; [| reflexivity]. subst c'. now rewrite models_of_ensure.
Qed.

Lemma models_of_fold_device_eq :
  fold_device_throws cats c b m sv st = None ->
  models_of (brands_of (fold_device cats c b m sv st) c) b
  = <[m := {| variants := vs' |}]> ms1.
Proof.
  intros H.
  destruct fold_device_step_cases
    as [(_ & _ & _ & _ & ->) | [(E & _) | [(E & _) | (E & _)]]]; try congruence.
  unfold brands_of at 1. rewrite lookup_insert_eq. simpl.
  unfold models_of at 1. now rewrite lookup_insert_eq.
Qed.

(** The variants under every key after the step: those of the device under
    its own key when the step completes, and what was there otherwise. *)
Lemma lookup_variants_fold_device (c' b' m' : string) :
  lookup_variants (fold_device cats c b m sv st) c' b' m'
  = if decide (c = c' /\ b = b' /\ m = m') then
      match fold_device_throws cats c b m sv st with
      | None => Some vs'
      | Some _ => lookup_variants cats c' b' m'
      end
    else lookup_variants cats c' b' m'.
Proof.
  destruct fold_device_step_cases
    as [(-> & _ & _ & _ & ->) | [(-> & _ & _ & ->) | [(-> & _ & _ & _ & ->)
       | (-> & _ & _ & _ & _ & ->)]]].
  - rewrite !lookup_variants_path. unfold brands_of at 1.
    destruct (decide (c = c')) as [<-|Nc].
    + rewrite lookup_insert_eq. cbn [brands]. unfold models_of at 1.
      destruct (decide (b = b')) as [<-|Nb].
      * rewrite lookup_insert_eq. cbn [models].
        destruct (decide (m = m')) as [<-|Nm].
        -- rewrite lookup_insert_eq. rewrite decide_True by tauto. reflexivity.
        -- rewrite lookup_insert_ne, lookup_ensure_ne by exact Nm.
           rewrite decide_False by tauto. reflexivity.
      * rewrite lookup_insert_ne by exact Nb.
        fold (models_of bs1 b'). rewrite models_of_ensure.
        rewrite decide_False by tauto. reflexivity.
    + rewrite lookup_insert_ne by exact Nc.
      fold (brands_of cats1 c'). rewrite brands_of_ensure.
      rewrite decide_False by tauto. reflexivity.
  - now case_decide.
  - rewrite lookup_variants_ensured. now case_decide.
  - rewrite lookup_variants_brand_ensured. now case_decide.
Qed.

Lemma variants_at_fold_device_eq :
  fold_device_throws cats c b m sv st = None ->
  variants_at (fold_device cats c b m sv st) c b m = vs'.
Proof.
  intros H. unfold variants_at. rewrite lookup_variants_fold_device, H.
  rewrite decide_True by tauto. reflexivity.
Qed.


(** A step that throws leaves every variants list as it was. *)
Lemma lookup_variants_fold_device_thrown (c' b' m' : string) :
  fold_device_throws cats c b m sv st <> None ->
  lookup_variants (fold_device cats c b m sv st) c' b' m'
  = lookup_variants cats c' b' m'.
Proof.
  intros H. rewrite lookup_variants_fold_device.
  case_decide; [| reflexivity].
  now destruct (fold_device_throws cats c b m sv st).
Qed.

(** The category keys only grow. *)
Lemma fold_device_keeps_category (k : string) :
  is_Some (cats !! k) -> is_Some (fold_device cats c b m sv st !! k).
Proof.
  intros H.
  assert (H1 : is_Some (cats1 !! k)).
  { destruct (decide (c = k)) as [<-|N].
    - now rewrite (ensure_present c _ cats H).
    - now rewrite lookup_ensure_ne. }
  destruct fold_device_step_cases
    as [(_ & _ & _ & _ & ->) | [(_ & _ & _ & ->) | [(_ & _ & _ & _ & ->)
       | (_ & _ & _ & _ & _ & ->)]]]; try assumption;
    (destruct (decide (c = k)) as [<-|N];
     [rewrite lookup_insert_eq; eauto | now rewrite lookup_insert_ne]).
Qed.

(** A device leaves the categories it is not classified in as they are. *)
Lemma fold_device_other_category (k : string) :
  c <> k -> fold_device cats c b m sv st !! k = cats !! k.
Proof.
  intros N.
  destruct fold_device_step_cases
    as [(_ & _ & _ & _ & ->) | [(_ & _ & _ & ->) | [(_ & _ & _ & _ & ->)
       | (_ & _ & _ & _ & _ & ->)]]];
    rewrite ?lookup_insert_ne by exact N; rewrite ?lookup_ensure_ne by exact N;
    reflexivity.
Qed.

Lemma ensure_own {V : Type} (k : string) (v : V) (mp : gmap string V) :
  is_Some (ensure k v mp !! k) -> is_Some (mp !! k) \/ inherited k = false.
Proof.
  rewrite lookup_ensure_eq. destruct (mp !! k); [eauto |].
  destruct (inherited k); [intros [x E]; discriminate | auto].
Qed.

(** A brand or a model that is there after the step was there before, or
    its name is not inherited. *)
Lemma brand_keys_fold_device (c' b' : string) :
  is_Some (brands_of (fold_device cats c b m sv st) c' !! b') ->
  is_Some (brands_of cats c' !! b') \/ inherited b' = false.
Proof.
  destruct fold_device_step_cases
    as [(_ & _ & Hb & _ & ->) | [(_ & _ & _ & ->) | [(_ & _ & _ & _ & ->)
       | (_ & _ & Hb & _ & _ & ->)]]].
  - unfold brands_of at 1. destruct (decide (c = c')) as [<-|Nc].
    + rewrite lookup_insert_eq. cbn [brands].
      destruct (decide (b = b')) as [<-|Nb]; [intros _; now apply ensure_own in Hb |].
      rewrite lookup_insert_ne, lookup_ensure_ne by exact Nb. now left.
    + rewrite lookup_insert_ne by exact Nc. fold (brands_of cats1 c').
      rewrite brands_of_ensure. now left.
  - now left.
  - rewrite brands_of_ensure. now left.
  - rewrite brands_of_brand_ensured. case_decide as Ec; [subst c' | now left].
    destruct (decide (b = b')) as [<-|Nb]; [intros _; now apply ensure_own in Hb |].
    rewrite lookup_ensure_ne by exact Nb. now left.
Qed.

Lemma model_keys_fold_device (c' b' m' : string) :
  is_Some (models_of (brands_of (fold_device cats c b m sv st) c') b' !! m') ->
  is_Some (models_of (brands_of cats c') b' !! m') \/ inherited m' = false.
Proof.
  intros H.
  assert (K : is_Some (lookup_variants (fold_device cats c b m sv st) c' b' m')).
  { rewrite lookup_variants_path. now apply fmap_is_Some. }
  rewrite lookup_variants_fold_device in K.
  assert (Old : is_Some (lookup_variants cats c' b' m') ->
                is_Some (models_of (brands_of cats c') b' !! m')).
  { rewrite lookup_variants_path. now intros ?%fmap_is_Some. }
  case_decide as E; [| left; now apply Old].
  destruct E as (<- & <- & <-).
  destruct fold_device_step_cases
    as [(T & _ & _ & Hm & _) | [(T & _) | [(T & _) | (T & _)]]];
    rewrite T in K; try (left; now apply Old).
  now apply ensure_own in Hm.
Qed.

(** The step keeps the catalog free of inherited names. *)
Lemma plain_fold_device :
  plain cats -> plain (fold_device cats c b m sv st).
Proof.
  intros [Hb Hm]. split.
  - intros c' b' H. apply brand_keys_fold_device in H as [H | H]; [| exact H].
    now apply (Hb c').
  - intros c' b' m' H. apply model_keys_fold_device in H as [H | H]; [| exact H].
    now apply (Hm c' b').
Qed.

(** In a catalog free of inherited names the step throws exactly at an
    inherited category, brand or model name. *)
Lemma fold_device_throws_plain :
  plain cats -> inherited c = false ->
  (fold_device_throws cats c b m sv st = None
   <-> inherited b || inherited m = false).
Proof.
  intros [Hb Hm] Hc.
  destruct fold_device_step_cases
    as [(-> & _ & Kb & Km & _) | [(-> & _ & E & _) | [(-> & _ & _ & E & _)
       | (-> & _ & _ & _ & E & _)]]].
  - split; [intros _ | reflexivity]. apply orb_false_iff. split.
    + apply ensure_own in Kb as [Kb | Kb]; [now apply (Hb c) | exact Kb].
    + apply ensure_own in Km as [Km | Km]; [now apply (Hm c b) | exact Km].
  - congruence.
  - rewrite E. split; discriminate.
  - rewrite E, orb_true_r. split; discriminate.
Qed.

End Builder.

(** ** The device stream of one invocation *)

Section Stream.

Variable w : World.

(** The catalog one iteration of the manufacturer loop leaves is the one
    the device loop leaves, thrown or not. *)
Lemma process_manufacturer_catalog (i : nat) (mf : Manufacturer.t)
    (cats : gmap string CategoryEntry) :
  snd (process_manufacturer w i mf cats)
  = fst (process_devices (Manufacturer.name mf) cats
           (devices_of (devices_response w i (Manufacturer.name mf)))).
Proof.
  unfold process_manufacturer.
  destruct (devices_response w i (Manufacturer.name mf)) as [msg | | [|d ds]];
    try reflexivity.
  cbn [devices_of]. now destruct (process_devices _ _ _) as [cats' [p|]].
Qed.

(** The events of one iteration: the wait, the request, and warnings. *)
Lemma process_manufacturer_events (i : nat) (mf : Manufacturer.t)
    (cats : gmap string CategoryEntry) :
  exists warnings,
    fst (process_manufacturer w i mf cats)
    = (throttled_request mf ++ map Warn warnings)%list.
Proof.
  unfold process_manufacturer, throttled_request.
  destruct (devices_response w i (Manufacturer.name mf)) as [msg | | [|d ds]].
  - now exists [FetchDevicesFailed (Manufacturer.name mf) (RequestError msg)].
  - now exists [NoDevicesFound (Manufacturer.name mf);
                NoDevicesEvent (Manufacturer.name mf)].
  - now exists [NoDevicesFound (Manufacturer.name mf);
                NoDevicesEvent (Manufacturer.name mf)].
  - destruct (process_devices _ _ _) as [cats' [p|]].
    + now exists [FetchDevicesFailed (Manufacturer.name mf) (TypeErrorReading p)].
    + now exists [].
Qed.

Lemma filter_warnings (f : Event -> bool) (warnings : list Warning) :
  (forall x, f (Warn x) = false) -> List.filter f (map Warn warnings) = [].
Proof.
  intros H. induction warnings as [|x l IH]; [reflexivity |].
  cbn [map List.filter]. now rewrite H.
Qed.

(** A property of the catalog that no device breaks holds along the whole
    manufacturer loop. *)
Section Preserved.

Variable P : gmap string CategoryEntry -> Prop.
Hypothesis P_step :
  forall cats c b m sv st, P cats -> P (fold_device cats c b m sv st).

Lemma preserved_devices (mn : string) (ds : list Device.t)
    (cats : gmap string CategoryEntry) :
  P cats -> P (fst (process_devices mn cats ds)).
Proof.
  revert cats; induction ds as [|d ds IH]; intros cats H; [exact H |].
  cbn [process_devices]. destruct (process_device_throws mn cats d); cbn [fst].
  - now apply P_step.
  - apply IH. now apply P_step.
Qed.

Lemma preserved_manufacturer (i : nat) (mf : Manufacturer.t)
    (cats : gmap string CategoryEntry) :
  P cats -> P (snd (process_manufacturer w i mf cats)).
Proof. intros H. rewrite process_manufacturer_catalog. now apply preserved_devices. Qed.

Lemma preserved_manufacturers (ms : list Manufacturer.t) (i : nat)
    (cats : gmap string CategoryEntry) :
  P cats -> P (snd (process_manufacturers w i ms cats)).
Proof.
  revert i cats; induction ms as [|mf ms IH]; intros i cats H; [exact H |].
  simpl. pose proof (preserved_manufacturer i mf cats H) as H1.
  destruct (process_manufacturer w i mf cats) as [ev cats1]. simpl in H1.
  specialize (IH (S i) cats1 H1).
  destruct (process_manufacturers w (S i) ms cats1) as [evs cats2]. exact IH.
Qed.

End Preserved.

Lemma process_manufacturers_cons (i : nat) (mf : Manufacturer.t)
    (ms : list Manufacturer.t) (cats : gmap string CategoryEntry) :
  process_manufacturers w i (mf :: ms) cats
  = ((fst (process_manufacturer w i mf cats)
      ++ fst (process_manufacturers w (S i) ms
                (snd (process_manufacturer w i mf cats))))%list,
     snd (process_manufacturers w (S i) ms
            (snd (process_manufacturer w i mf cats)))).
Proof.
  simpl. destruct (process_manufacturer w i mf cats) as [ev cats1]. simpl.
  now destruct (process_manufacturers w (S i) ms cats1).
Qed.


Lemma models_nonempty_step (cats : gmap string CategoryEntry) (c b m : string)
    (sv : list string) (st : option string) :
  models_nonempty cats -> models_nonempty (fold_device cats c b m sv st).
Proof.
  intros H c' b' m' vs. rewrite lookup_variants_fold_device.
  case_decide as K; [| apply H].
  destruct (fold_device_throws cats c b m sv st); [apply H |].
  destruct K as (_ & _ & <-).
  intros [= <-] Hm. now apply add_variants_nonempty, contributed_model_name.
Qed.


(** *** Catalogs free of inherited names *)

Lemma category_not_inherited (x : Category) : inherited (category_name x) = false.
Proof. now destruct x. Qed.

Lemma brands_of_initial (c : string) : brands_of initial_categories c = ∅.
Proof.
  unfold brands_of, initial_categories. rewrite !lookup_insert.
  repeat case_decide; simpl; rewrite ?lookup_empty; reflexivity.
Qed.

Lemma lookup_variants_initial (c b m : string) :
  lookup_variants initial_categories c b m = None.
Proof.
  rewrite lookup_variants_path, brands_of_initial.
  unfold models_of. now rewrite !lookup_empty.
Qed.

Lemma plain_initial : plain initial_categories.
Proof.
  split.
  - intros c b [x H]. rewrite brands_of_initial, lookup_empty in H. discriminate.
  - intros c b m [x H]. rewrite brands_of_initial in H. unfold models_of in H.
    rewrite !lookup_empty in H. discriminate.
Qed.

Lemma process_device_throws_plain (mn : string) (cats : gmap string CategoryEntry)
    (d : Device.t) :
  plain cats -> (process_device_throws mn cats d = None <-> throws_on mn d = false).
Proof.
  intros H. unfold process_device_throws, throws_on, device_model.
  apply fold_device_throws_plain; [exact H | apply category_not_inherited].
Qed.

Lemma plain_devices (mn : string) (ds : list Device.t)
    (cats : gmap string CategoryEntry) :
  plain cats -> plain (fst (process_devices mn cats ds)).
Proof. apply preserved_devices. intros. now apply plain_fold_device. Qed.

Lemma plain_manufacturers (ms : list Manufacturer.t) (i : nat)
    (cats : gmap string CategoryEntry) :
  plain cats -> plain (snd (process_manufacturers w i ms cats)).
Proof. apply preserved_manufacturers. intros. now apply plain_fold_device. Qed.


(** *** The variants under a key, as a function of the stream *)

Lemma files_under_spec (c b m : string) (p : string * Device.t) :
  files_under c b m p = true <-> filed_under (fst p) (snd p) c b m.
Proof.
  unfold files_under, filed_under.
  rewrite !andb_true_iff, !String.eqb_eq. tauto.
Qed.

Lemma merged_app (start : option (list string)) (a b : list (list string)) :
  merged (merged start a) b = merged start (a ++ b).
Proof.
  destruct a as [|x a]; [reflexivity |].
  destruct b as [|y b]; [now rewrite app_nil_r |].
  cbn [merged app default]. f_equal.
  change (x :: a ++ y :: b)%list with ((x :: a) ++ y :: b)%list.
  rewrite concat_app. unfold merge_variants. now rewrite fold_left_app.
Qed.

Lemma brought_app (c b m : string) (l1 l2 : list (string * Device.t)) :
  brought c b m (l1 ++ l2) = (brought c b m l1 ++ brought c b m l2)%list.
Proof. unfold brought. now rewrite List.filter_app, map_app. Qed.

Lemma lookup_variants_process_device (mn : string)
    (cats : gmap string CategoryEntry) (d : Device.t) (c b m : string) :
  process_device_throws mn cats d = None ->
  lookup_variants (process_device mn cats d) c b m
  = merged (lookup_variants cats c b m) (brought c b m [(mn, d)]).
Proof.
  intros T. unfold process_device, process_device_throws in *.
  rewrite lookup_variants_fold_device, T.
  fold (device_category d). fold (device_model mn d).
  unfold brought. cbn [List.filter].
  destruct (files_under c b m (mn, d)) eqn:E.
  - apply files_under_spec in E as (-> & -> & ->). cbn [fst snd].
    rewrite decide_True by tauto.
    cbn [map merged concat fst snd]. rewrite app_nil_r, add_variants_merge.
    reflexivity.
  - rewrite decide_False; [reflexivity |]. intros (<- & <- & <-).
    assert (files_under (device_category d) (resolveBrandName d mn)
              (device_model mn d) (mn, d) = true)
      by (apply files_under_spec; repeat split).
    congruence.
Qed.

Lemma devices_variants (mn : string) (ds : list Device.t)
    (cats : gmap string CategoryEntry) (c b m : string) :
  plain cats ->
  lookup_variants (fst (process_devices mn cats ds)) c b m
  = merged (lookup_variants cats c b m)
      (brought c b m (map (pair mn) (folded_devices mn ds))).
Proof.
  revert cats; induction ds as [|d ds IH]; intros cats H; [reflexivity |].
  cbn [process_devices folded_devices].
  pose proof (process_device_throws_plain mn cats d H) as S.
  destruct (process_device_throws mn cats d) as [p|] eqn:T.
  - destruct (throws_on mn d); [| destruct S as [_ S]; discriminate (S eq_refl)].
    cbn [fst map]. unfold brought. cbn [List.filter map merged].
    unfold process_device, process_device_throws in *.
    apply lookup_variants_fold_device_thrown. congruence.
  - rewrite (proj1 S eq_refl). rewrite IH by (now apply plain_fold_device).
    rewrite (lookup_variants_process_device _ _ _ _ _ _ T).
    rewrite merged_app, <- brought_app. reflexivity.
Qed.

Lemma manufacturers_variants (ms : list Manufacturer.t) (i : nat)
    (cats : gmap string CategoryEntry) (c b m : string) :
  plain cats ->
  lookup_variants (snd (process_manufacturers w i ms cats)) c b m
  = merged (lookup_variants cats c b m) (brought c b m (device_stream w i ms)).
Proof.
  revert i cats; induction ms as [|mf ms IH]; intros i cats H; [reflexivity |].
  rewrite process_manufacturers_cons. cbn [snd device_stream].
  rewrite IH by (rewrite process_manufacturer_catalog; now apply plain_devices).
  rewrite process_manufacturer_catalog, devices_variants by exact H.
  now rewrite merged_app, <- brought_app.
Qed.

Lemma built_variants (ms : list Manufacturer.t) (c b m : string) :
  lookup_variants (built_categories w ms) c b m
  = merged None (brought c b m (device_stream w 0 (take maxManufacturers ms))).
Proof.
  unfold built_categories. rewrite manufacturers_variants by apply plain_initial.
  now rewrite lookup_variants_initial.
Qed.

(** What a device of the stream brings is among what is brought under its
    key. *)
Lemma brought_own (mn : string) (d : Device.t) (stream : list (string * Device.t)) :
  (mn, d) ∈ stream ->
  In (device_variants mn d)
     (brought (device_category d) (resolveBrandName d mn) (device_model mn d) stream).
Proof.
  intros H. unfold brought.
  apply (in_map (fun p => device_variants (fst p) (snd p)) _ (mn, d)).
  apply List.filter_In. split; [now apply list_elem_of_In |].
  apply files_under_spec. repeat split.
Qed.

(** Every variant a device of the stream brings is under its key in the
    built catalog. *)
Lemma stream_variant_present (ms : list Manufacturer.t) (mn : string)
    (d : Device.t) :
  (mn, d) ∈ device_stream w 0 (take maxManufacturers ms) ->
  exists vs,
    lookup_variants (built_categories w ms) (device_category d)
      (resolveBrandName d mn) (device_model mn d) = Some vs
    /\ forall v, v ∈ device_variants mn d -> v ∈ vs.
Proof.
  intros Hs.
  pose proof (brought_own mn d _ Hs) as Hb.
  pose proof (built_variants ms (device_category d) (resolveBrandName d mn)
                (device_model mn d)) as E.
  destruct (brought _ _ _ _) as [|x l] eqn:B; [destruct Hb |].
  cbn [merged default] in E. eexists. split; [exact E |]. intros v Hv.
  destruct (merge_variants_spec (concat (x :: l)) []) as (added & -> & _ & _ & Hin).
  apply Hin, list_elem_of_In, in_concat.
  exists (device_variants mn d). split; [exact Hb | now apply list_elem_of_In].
Qed.

End Stream.

(** ** The variants of a model are distinct and in first-seen order *)



(** ** A model has variants, unless its name is blank *)

Lemma has_non_space_trimEnd (s : string) :
  Js.has_non_space (Js.trimEnd s) = Js.has_non_space s.
Proof.
  induction s as [|c s IH]; simpl; [reflexivity |].
  rewrite trimEnd_is_empty.
  destruct (Js.is_space c) eqn:Ec, (Js.has_non_space s) eqn:Es; simpl;
    rewrite ?Ec, ?IH; reflexivity.
Qed.

Lemma has_non_space_trim (s : string) :
  Js.has_non_space (Js.trim s) = Js.has_non_space s.
Proof. unfold Js.trim. now rewrite has_non_space_trimEnd, has_non_space_trimStart. Qed.

Lemma extractModelName_has_non_space (deviceName brandName : string) :
  Js.has_non_space deviceName = true ->
  Js.has_non_space (extractModelName deviceName brandName) = true.
Proof.
  intros H. unfold extractModelName.
  destruct (Js.is_empty (Js.trim _)) eqn:E; [exact H |].
  rewrite trim_is_empty in E. rewrite has_non_space_trim.
  now apply negb_false_iff in E.
Qed.

(** C5, as the code has it.  In the catalog built by any invocation, every
    model whose name is not made of white space only has a non-empty variants
    list, and processing a device keeps it so.  A step that processes a
    device to its end leaves a model entry under the device's key; its
    variants are not empty when the device name holds something else than
    white space. *)
Theorem model_variants_nonempty (w : World) (ms : list Manufacturer.t) :
  (forall c b m vs,
      lookup_variants (built_categories w ms) c b m = Some vs ->
      Js.has_non_space m = true -> vs <> []) /\
  (forall mn cats d,
      models_nonempty cats -> models_nonempty (process_device mn cats d)) /\
  (forall mn cats d,
      process_device_throws mn cats d = None ->
      exists vs,
        lookup_variants (process_device mn cats d) (device_category d)
          (resolveBrandName d mn) (device_model mn d) = Some vs
        /\ (Js.has_non_space (resolveDeviceName d) = true -> vs <> [])).
Proof.
  split; [| split].
  - apply (preserved_manufacturers w models_nonempty).
    + intros. now apply models_nonempty_step.
    + intros c b m vs. now rewrite lookup_variants_initial.
  - intros mn cats d H. now apply models_nonempty_step.
  - intros mn cats d T. unfold process_device, process_device_throws in *.
    fold (device_category d) in *. fold (device_model mn d) in *.
    rewrite lookup_variants_fold_device, T, decide_True by tauto.
    eexists. split; [reflexivity |]. intros H.
    apply add_variants_nonempty, contributed_model_name.
    now apply extractModelName_has_non_space.
Qed.

Lemma model_variants_nonempty_witness :
  exists vs,
    lookup_variants (built_categories sample_world [acme; samsung])
      "tablet" "Samsung" "Galaxy Tab S9" = Some vs
    /\ Js.has_non_space "Galaxy Tab S9" = true
    /\ vs <> [].
Proof.
  exists ["Galaxy Tab S9"].
  assert (E : lookup_variants (built_categories sample_world [acme; samsung])
                "tablet" "Samsung" "Galaxy Tab S9" = Some ["Galaxy Tab S9"])
    by (vm_compute; reflexivity).
  split; [exact E |]. split; [reflexivity |].
  exact (proj1 (model_variants_nonempty sample_world [acme; samsung])
           "tablet" "Samsung" "Galaxy Tab S9" ["Galaxy Tab S9"] E eq_refl).
Defined.

(** C5, as the claim has it, fails: a device whose name is a single space and
    which has no storage leaves the model " " in the catalog with no variant
    at all (the synthetic variant trims to the empty string and is not
    pushed). *)
Lemma blank_model_without_variants :
  device_model "Acme" blank_device = " " /\
  lookup_variants (process_device "Acme" initial_categories blank_device)
    "phone" "Acme" " " = Some [].
Proof. split; vm_compute; reflexivity. Qed.

(** ** Folding a tuple twice *)

Lemma push_new_present (vs : list string) (v : string) :
  v ∈ vs -> push_new vs v = vs.
Proof. intros H. unfold push_new. apply array_includes_spec in H. now rewrite H. Qed.

Lemma fold_device_twice (cats : gmap string CategoryEntry) (c b m : string)
    (sv : list string) (st : option string) :
  fold_device (fold_device cats c b m sv st) c b m sv st
  = fold_device cats c b m sv st.
Proof.
  destruct (fold_device_step_cases cats c b m sv st)
    as [(T & Hc & Hb & Hm & E) | [(T & Hc & Ic & E) | [(T & Hc & Hb & Ib & E)
       | (T & Hc & Hb & Hm & Im & E)]]].
  - pose proof (variants_at_fold_device_eq cats c b m sv st T) as Hv.
    pose proof (models_of_fold_device_eq cats c b m sv st T) as Hk.
    assert (Hc' : is_Some (fold_device cats c b m sv st !! c)).
    { rewrite E, lookup_insert_eq. eauto. }
    assert (Hb' : is_Some (brands_of (fold_device cats c b m sv st) c !! b)).
    { rewrite E. unfold brands_of. rewrite lookup_insert_eq. simpl.
      rewrite lookup_insert_eq. eauto. }
    clear E. remember (fold_device cats c b m sv st) as once eqn:Honce. clear Honce.
    assert (Hm' : is_Some (models_of (brands_of once c) b !! m)).
    { rewrite Hk, lookup_insert_eq. eauto. }
    destruct (fold_device_step_cases once c b m sv st)
      as [(_ & _ & _ & _ & E) | [(_ & K & _) | [(_ & _ & K & _)
         | (_ & _ & _ & K & _)]]].
    + rewrite E.
      rewrite (ensure_present c _ once Hc'), (ensure_present b _ _ Hb'),
        (ensure_present m _ _ Hm'), Hv.
      replace (add_variants _ sv m st)
        with (add_variants (variants_at cats c b m) sv m st).
      * rewrite Hk at 1. rewrite insert_insert_eq, <- Hk.
        now rewrite brand_entry_id, category_entry_id.
      * rewrite !add_variants_merge. symmetry. apply merge_variants_idempotent.
    + rewrite K in Hc'. now destruct Hc'.
    + rewrite K in Hb'. now destruct Hb'.
    + rewrite K in Hm'. now destruct Hm'.
  - rewrite E. exact E.
  - rewrite E.
    assert (Kb : ensure b {| models := ∅ |}
                   (brands_of (ensure c {| brands := ∅ |} cats) c) !! b = None).
    { now rewrite brands_of_ensure, lookup_ensure_eq, Hb, Ib. }
    destruct (fold_device_step_cases (ensure c {| brands := ∅ |} cats) c b m sv st)
      as [(_ & _ & K & _) | [(_ & K & _) | [(_ & _ & _ & _ & E')
         | (_ & _ & K & _)]]].
    + rewrite Kb in K. now destruct K.
    + rewrite K in Hc. now destruct Hc.
    + rewrite E'. now apply ensure_present.
    + rewrite Kb in K. now destruct K.
  - rewrite E.
    set (bs := ensure b {| models := ∅ |} (brands_of cats c)) in *.
    set (once := <[c := {| brands := bs |}]> (ensure c {| brands := ∅ |} cats)).
    assert (Hc' : is_Some (once !! c)) by (unfold once; rewrite lookup_insert_eq; eauto).
    assert (Eb : brands_of once c = bs).
    { unfold brands_of, once. now rewrite lookup_insert_eq. }
    assert (Km : ensure m {| variants := [] |} (models_of (brands_of once c) b) !! m
                 = None).
    { rewrite Eb. unfold bs. now rewrite models_of_ensure, lookup_ensure_eq, Hm, Im. }
    destruct (fold_device_step_cases once c b m sv st)
      as [(_ & _ & _ & K & _) | [(_ & K & _) | [(_ & _ & K & _)
         | (_ & _ & _ & _ & _ & E')]]].
    + rewrite Km in K. now destruct K.
    + rewrite K in Hc'. now destruct Hc'.
    + rewrite Eb in K. rewrite K in Hb. now destruct Hb.
    + rewrite E', Eb, (ensure_present c _ once Hc'), (ensure_present b _ bs Hb).
      unfold once. apply insert_insert_eq.
Qed.

(** C6.  Folding a normalized tuple into any catalog twice gives the catalog
    that folding it once gives, and so does processing a device twice;
    creating a key that is present changes nothing, and neither does pushing
    a variant that is present. *)
Theorem fold_device_idempotent (cats : gmap string CategoryEntry) :
  (forall c b m sv st,
      fold_device (fold_device cats c b m sv st) c b m sv st
      = fold_device cats c b m sv st) /\
  (forall mn d,
      process_device mn (process_device mn cats d) d = process_device mn cats d) /\
  (forall k fresh, is_Some (cats !! k) -> ensure k fresh cats = cats) /\
  (forall c k fresh,
      is_Some (brands_of cats c !! k) ->
      ensure k fresh (brands_of cats c) = brands_of cats c) /\
  (forall c b k fresh,
      is_Some (models_of (brands_of cats c) b !! k) ->
      ensure k fresh (models_of (brands_of cats c) b) = models_of (brands_of cats c) b) /\
  (forall vs v, v ∈ vs -> push_new vs v = vs).
Proof.
  repeat split.
  - intros. apply fold_device_twice.
  - intros. apply fold_device_twice.
  - intros. now apply ensure_present.
  - intros. now apply ensure_present.
  - intros. now apply ensure_present.
  - intros. now apply push_new_present.
Qed.

Lemma fold_device_idempotent_witness :
  "128GB" ∈ ["64GB"; "128GB"] /\ push_new ["64GB"; "128GB"] "128GB" = ["64GB"; "128GB"].
Proof.
  assert (H : "128GB" ∈ ["64GB"; "128GB"])
    by apply list_elem_of_further, list_elem_of_here.
  split; [exact H |].
  exact (proj2 (proj2 (proj2 (proj2 (proj2 (fold_device_idempotent initial_categories)))))
           ["64GB"; "128GB"] "128GB" H).
Defined.

(** ** Brand resolution *)

Lemma truthy_given (o : option string) :
  truthy o = true <-> exists s, given o s.
Proof.
  unfold truthy, given. destruct o as [[|c s]|]; simpl; split;
    try discriminate; try (intros (x & H & N); congruence).
  intros _. now exists (String c s).
Qed.

Lemma truthy_missing (o : option string) : truthy o = false <-> missing o.
Proof.
  unfold missing. split.
  - intros H s G. assert (truthy o = true) by (apply truthy_given; eauto). congruence.
  - intros H. destruct (truthy o) eqn:E; [| reflexivity].
    apply truthy_given in E as [s G]. now destruct (H s).
Qed.

Lemma or_default_given (o : option string) (s otherwise : string) :
  given o s -> or_default o otherwise = s.
Proof. intros [-> N]. simpl. now destruct s. Qed.

Lemma or_default_missing (o : option string) (otherwise : string) :
  missing o -> or_default o otherwise = otherwise.
Proof.
  intros H. destruct o as [[|c s]|]; simpl; try reflexivity.
  now destruct (H (String c s)).
Qed.

(** The step leaves a brand entry under a brand name that is not inherited,
    in a category whose name is not inherited. *)
Lemma brand_present_fold_device (cats : gmap string CategoryEntry) (c b m : string)
    (sv : list string) (st : option string) :
  inherited c = false -> inherited b = false ->
  is_Some (brands_of (fold_device cats c b m sv st) c !! b).
Proof.
  intros Ic Ib.
  destruct (fold_device_step_cases cats c b m sv st)
    as [(_ & _ & _ & _ & ->) | [(_ & _ & K & _) | [(_ & _ & _ & K & _)
       | (_ & _ & Hb & _ & _ & ->)]]]; try congruence.
  - unfold brands_of. rewrite lookup_insert_eq. simpl.
    rewrite lookup_insert_eq. eauto.
  - unfold brands_of. now rewrite lookup_insert_eq.
Qed.

(** C8, as the code has it.  The brand of a device is the first of the nested
    brand's name, [manufacturer_name] and [brand_name] that is given and not
    empty, and the name of the manufacturer being iterated when there is
    none; the device is filed under that brand, which the step creates when
    it is missing and its name is not an inherited one. *)
Theorem resolveBrandName_precedence (d : Device.t) (manufacturerName : string) :
  let nested := Device.brand_ref_name <$> Device.brand d in
  (forall s, given nested s -> resolveBrandName d manufacturerName = s) /\
  (forall s, missing nested -> given (Device.manufacturer_name d) s ->
             resolveBrandName d manufacturerName = s) /\
  (forall s, missing nested -> missing (Device.manufacturer_name d) ->
             given (Device.brand_name d) s ->
             resolveBrandName d manufacturerName = s) /\
  (missing nested -> missing (Device.manufacturer_name d) ->
   missing (Device.brand_name d) ->
   resolveBrandName d manufacturerName = manufacturerName) /\
  (forall cats,
      inherited (resolveBrandName d manufacturerName) = false ->
      is_Some (brands_of (process_device manufacturerName cats d) (device_category d)
               !! resolveBrandName d manufacturerName)).
Proof.
  intros nested. unfold resolveBrandName. fold nested. unfold or_else.
  repeat split.
  - intros s G. assert (E : truthy nested = true) by (apply truthy_given; eauto).
    rewrite E. now apply or_default_given.
  - intros s Hn G. apply truthy_missing in Hn. rewrite Hn.
    assert (E : truthy (Device.manufacturer_name d) = true)
      by (apply truthy_given; eauto).
    rewrite E. now apply or_default_given.
  - intros s Hn Hm G. apply truthy_missing in Hn, Hm. rewrite Hn, Hm.
    now apply or_default_given.
  - intros Hn Hm Hb. apply truthy_missing in Hn, Hm. rewrite Hn, Hm.
    now apply or_default_missing.
  - intros cats Ib. unfold process_device.
    apply brand_present_fold_device; [apply category_not_inherited | exact Ib].
Qed.

Lemma resolveBrandName_precedence_witness :
  missing (Device.brand_ref_name <$> Device.brand unbranded_device) /\
  given (Device.manufacturer_name unbranded_device) "Samsung" /\
  resolveBrandName unbranded_device "Acme" = "Samsung".
Proof.
  assert (Hn : missing (Device.brand_ref_name <$> Device.brand unbranded_device)).
  { intros s [E N]. simpl in E. congruence. }
  assert (Hm : given (Device.manufacturer_name unbranded_device) "Samsung").
  { split; [reflexivity | discriminate]. }
  split; [exact Hn |]. split; [exact Hm |].
  exact (proj1 (proj2 (resolveBrandName_precedence unbranded_device "Acme"))
           "Samsung" Hn Hm).
Defined.

(** C8, as the claim has it, fails: a nested brand whose name is the empty
    string is defined, yet the brand comes from [manufacturer_name]. *)
Lemma empty_brand_name_is_skipped :
  Device.brand_ref_name <$> Device.brand unbranded_device = Some "" /\
  first_defined_brand unbranded_device "Acme" = "" /\
  resolveBrandName unbranded_device "Acme" = "Samsung" /\
  resolveBrandName unbranded_device "Acme" <> first_defined_brand unbranded_device "Acme".
Proof. repeat split; try reflexivity. vm_compute. discriminate. Qed.

(** ** The invocation as a whole *)

Section Invocation.

Variable w : World.

Lemma serve_reaches_upload (ms : list Manufacturer.t) :
  reaches_upload w ms ->
  serve w
  = ((FetchManufacturers manufacturersEndpoint
        :: fst (process_manufacturers w 0 (take maxManufacturers ms) initial_categories)
        ++ fst (upload_with_retry w (published_catalog w ms)))%list,
     match snd (upload_with_retry w (published_catalog w ms)) with
     | Some e => Failure (upload_failure_message e)
     | None => Success (now w)
     end).
Proof.
  intros (Hs & Hb & Hm & Hne). unfold serve. rewrite Hs, Hb, Hm. cbn [negb].
  destruct ms as [|mf ms]; [congruence |].
  cbv zeta. unfold published_catalog, built_categories.
  cbn [categories metadata lastUpdated initial_catalog].
  destruct (process_manufacturers w 0 (take maxManufacturers (mf :: ms))
              initial_categories) as [evs cats] eqn:E.
  cbn [fst snd].
  destruct (upload_with_retry w _) as [uevs uerr]. reflexivity.
Qed.

Lemma process_manufacturers_no_upload (ms : list Manufacturer.t) (i : nat)
    (cats : gmap string CategoryEntry) :
  List.filter is_upload (fst (process_manufacturers w i ms cats)) = [].
Proof.
  revert i cats; induction ms as [|mf ms IH]; intros i cats; [reflexivity |].
  rewrite process_manufacturers_cons. cbn [fst]. rewrite List.filter_app, IH, app_nil_r.
  destruct (process_manufacturer_events w i mf cats) as [ws ->].
  rewrite List.filter_app. now rewrite filter_warnings by reflexivity.
Qed.

Lemma upload_loop_uploads (catalog : DeviceCatalog) (n k : nat)
    (err : option StorageError.t) (e : Event) :
  In e (fst (upload_loop w catalog n k err)) -> is_upload e = true ->
  e = Upload "catalogs" "deviceCatalog.json" catalog true.
Proof.
  revert k err; induction n as [|n IH]; intros k err Hin Hu; [destruct Hin |].
  simpl in Hin. destruct (upload_response w k) as [er|].
  - destruct (upload_loop w catalog n (S k) (Some er)) as [evs res] eqn:E.
    cbn [fst] in Hin. apply in_app_or in Hin as [Hin | [<- | [<- | Hin]]].
    + destruct (0 <? k)%nat; [destruct Hin as [<- | []] | destruct Hin]. discriminate.
    + reflexivity.
    + discriminate.
    + apply (IH (S k) (Some er)); [| exact Hu]. now rewrite E.
  - cbn [fst] in Hin. apply in_app_or in Hin as [Hin | [<- | []]].
    + destruct (0 <? k)%nat; [destruct Hin as [<- | []] | destruct Hin]. discriminate.
    + reflexivity.
Qed.

(** Every upload of the invocation carries the catalog built from the
    manufacturer list, to the same place, with [upsert]. *)
Lemma serve_upload_inv (bucket path : string) (body : DeviceCatalog) (upsert : bool) :
  In (Upload bucket path body upsert) (fst (serve w)) ->
  exists ms,
    reaches_upload w ms /\ body = published_catalog w ms
    /\ bucket = "catalogs" /\ path = "deviceCatalog.json" /\ upsert = true.
Proof.
  intros Hin.
  destruct (truthy (env_INTERNAL_API_SECRET w)) eqn:Hs;
    [| unfold serve in Hin; rewrite Hs in Hin; destruct Hin].
  destruct (truthy (match env_INTERNAL_API_BASE_URL w with
                    | Some u => Some u
                    | None => env_SITE_URL w
                    end)) eqn:Hb;
    [| unfold serve in Hin; rewrite Hs, Hb in Hin; destruct Hin].
  destruct (manufacturers_response w) as [msg | | [|mf ms]] eqn:Hm;
    try (unfold serve in Hin; rewrite Hs, Hb, Hm in Hin;
         destruct Hin as [? | []]; discriminate).
  assert (R : reaches_upload w (mf :: ms)) by (repeat split; auto; discriminate).
  exists (mf :: ms). split; [exact R |].
  rewrite (serve_reaches_upload _ R) in Hin. cbn [fst] in Hin.
  destruct Hin as [? | Hin]; [discriminate |].
  apply in_app_or in Hin as [Hin | Hin].
  - exfalso.
    assert (F : In (Upload bucket path body upsert)
                  (List.filter is_upload
                     (fst (process_manufacturers w 0
                             (take maxManufacturers (mf :: ms)) initial_categories)))).
    { apply List.filter_In. now split. }
    rewrite process_manufacturers_no_upload in F. destruct F.
  - apply upload_loop_uploads in Hin; [| reflexivity].
    injection Hin as -> -> -> ->. now repeat split.
Qed.

End Invocation.

(** ** Upload with retry *)

Lemma attempts_cases (w : World) (k : nat) :
  k <= maxRetries -> k = 0 \/ k = 1 \/ k = 2 \/ k = 3.
Proof. unfold maxRetries. lia. Qed.

Lemma from_first_upload_app (l r : list Event) :
  List.filter is_upload l = [] ->
  from_first_upload (l ++ r) = from_first_upload r.
Proof.
  induction l as [|e l IH]; [reflexivity |]. cbn [List.filter app from_first_upload].
  destruct (is_upload e); [discriminate | exact IH].
Qed.

Lemma upload_with_retry_policy (w : World) (catalog : DeviceCatalog) :
  let run := upload_with_retry w catalog in
  (exists retries,
      retries <= maxRetries /\
      from_first_upload (fst run) = fst run /\
      List.filter is_io (fst run)
      = attempt catalog :: concat (replicate retries [Sleep 1000; attempt catalog]) /\
      List.filter is_upload (fst run) = replicate (S retries) (attempt catalog) /\
      (forall k, k < retries -> upload_response w k <> None) /\
      (retries < maxRetries -> upload_response w retries = None)) /\
  (some_attempt_succeeds w -> snd run = None) /\
  (forall e, all_attempts_fail w -> upload_response w maxRetries = Some e ->
             snd run = Some e
             /\ length (List.filter is_upload (fst run)) = maxRetries + 1).
Proof.
  unfold upload_with_retry, some_attempt_succeeds, all_attempts_fail.
  destruct (upload_response w 0) as [e0|] eqn:E0;
    [destruct (upload_response w 1) as [e1|] eqn:E1;
     [destruct (upload_response w 2) as [e2|] eqn:E2;
      [destruct (upload_response w 3) as [e3|] eqn:E3 |] |] |];
    simpl; rewrite ?E0, ?E1, ?E2, ?E3; simpl.
  - split; [| split].
    + exists 3. repeat split; [unfold maxRetries; lia | | unfold maxRetries; lia].
      intros k Hk. assert (k = 0 \/ k = 1 \/ k = 2) as [-> | [-> | ->]] by lia;
        congruence.
    + intros (k & Hk & E). destruct (attempts_cases w k Hk) as [-> | [-> | [-> | ->]]];
        congruence.
    + intros e _ [= <-]. now split.
  - split; [| split].
    + exists 3. repeat split; [unfold maxRetries; lia | | unfold maxRetries; lia].
      intros k Hk. assert (k = 0 \/ k = 1 \/ k = 2) as [-> | [-> | ->]] by lia;
        congruence.
    + reflexivity.
    + intros e H. now destruct (H 3 (Nat.le_refl _)).
  - split; [| split].
    + exists 2. repeat split; [unfold maxRetries; lia | | intros _; exact E2].
      intros k Hk. assert (k = 0 \/ k = 1) as [-> | ->] by lia; congruence.
    + reflexivity.
    + intros e H. destruct (H 2); [unfold maxRetries; lia | exact E2].
  - split; [| split].
    + exists 1. repeat split; [unfold maxRetries; lia | | intros _; exact E1].
      intros k Hk. assert (k = 0) as -> by lia. congruence.
    + reflexivity.
    + intros e H. destruct (H 1); [unfold maxRetries; lia | exact E1].
  - split; [| split].
    + exists 0. repeat split; [unfold maxRetries; lia | | intros _; exact E0].
      intros k Hk. lia.
    + reflexivity.
    + intros e H. destruct (H 0); [unfold maxRetries; lia | exact E0].
Qed.

(** C3.  An invocation that gets to the upload uploads once and then retries
    at most 3 times: from its first upload on, its waits and uploads are one
    upload followed by at most 3 rounds of a 1000 ms wait and an upload,
    every upload of the built catalog with [upsert]; a round is only made
    after a failed upload, and fewer than 3 rounds are made only when an
    upload succeeded.  When one of the 4 attempts succeeds the invocation
    answers 200; when all 4 fail, it made 4 uploads and answers 500 with a
    message that ends with the message of the last attempt's error. *)
Theorem upload_retry_policy (w : World) (ms : list Manufacturer.t) :
  reaches_upload w ms ->
  let catalog := published_catalog w ms in
  let events := fst (serve w) in
  (exists retries,
      retries <= maxRetries /\
      List.filter is_io (from_first_upload events)
      = attempt catalog :: concat (replicate retries [Sleep 1000; attempt catalog]) /\
      List.filter is_upload events = replicate (S retries) (attempt catalog) /\
      (forall k, k < retries -> upload_response w k <> None) /\
      (retries < maxRetries -> upload_response w retries = None)) /\
  (some_attempt_succeeds w ->
   snd (serve w) = Success (now w) /\ status (snd (serve w)) = 200%Z) /\
  (forall e, all_attempts_fail w -> upload_response w maxRetries = Some e ->
             length (List.filter is_upload events) = 4 /\
             snd (serve w)
             = Failure ("Failed to upload catalog to Storage after 3 retries: "
                        +:+ StorageError.message e) /\
             status (snd (serve w)) = 500%Z).
Proof.
  intros R catalog events.
  destruct (upload_with_retry_policy w catalog)
    as ((retries & Hle & Hfrom & Hio & Hup & Hfail & Hstop) & Hok & Hall).
  assert (Ev : from_first_upload events = fst (upload_with_retry w catalog) /\
               List.filter is_upload events
               = List.filter is_upload (fst (upload_with_retry w catalog))).
  { unfold events. rewrite (serve_reaches_upload w ms R). cbn [fst]. fold catalog.
    cbn [from_first_upload List.filter is_upload].
    rewrite from_first_upload_app by apply process_manufacturers_no_upload.
    now rewrite List.filter_app, process_manufacturers_no_upload. }
  destruct Ev as [Ef Eu].
  rewrite (serve_reaches_upload w ms R). fold catalog. cbn [snd].
  split; [| split].
  - exists retries. rewrite Ef, Eu. now repeat split.
  - intros H. rewrite (Hok H). now split.
  - intros e Ha He. destruct (Hall e Ha He) as [-> Hn]. rewrite Eu. now repeat split.
Qed.

Lemma upload_retry_policy_witness :
  reaches_upload failing_world [acme; samsung] /\
  all_attempts_fail failing_world /\
  upload_response failing_world maxRetries = Some (storage_error "quota exceeded") /\
  length (List.filter is_upload (fst (serve failing_world))) = 4 /\
  snd (serve failing_world)
  = Failure "Failed to upload catalog to Storage after 3 retries: quota exceeded".
Proof.
  assert (R : reaches_upload failing_world [acme; samsung])
    by (repeat split; discriminate).
  assert (A : all_attempts_fail failing_world).
  { intros k _. simpl. destruct k as [|[|[|[|k]]]]; discriminate. }
  split; [exact R |]. split; [exact A |]. split; [reflexivity |].
  destruct (proj2 (proj2 (upload_retry_policy failing_world _ R))
              (storage_error "quota exceeded") A eq_refl) as (Hn & Hf & _).
  split; [exact Hn | exact Hf].
Defined.

(** ** A manufacturer whose devices cannot be fetched *)





(** C4 fails on the code.  The device request for Acme throws; Google lists
    a device named like an inherited property before a Pixel 8.  Adding the
    variant of the first one throws inside the [try] of the manufacturer
    loop; the same [catch] takes it, and the Pixel 8 is never processed: the
    invocation answers success, and the one catalog it uploads has the brand
    Google without any model. *)
Lemma manufacturer_devices_dropped :
  reaches_upload dropping_world [acme; google] /\
  devices_response dropping_world 0 "Acme"
  = FetchThrows "Internal API request failed (HTTP 500: Internal Server Error). " /\
  devices_response dropping_world 1 "Google"
  = FetchArray [sample_device "constructor" None;
                sample_device "Pixel 8 128GB" (Some "128GB")] /\
  snd (serve dropping_world) = Success (now dropping_world) /\
  caught (fst (serve dropping_world))
  = [("Acme", RequestError
                "Internal API request failed (HTTP 500: Internal Server Error). ");
     ("Google", TypeErrorReading "includes")] /\
  List.filter is_upload (fst (serve dropping_world))
  = [attempt (published_catalog dropping_world [acme; google])] /\
  device_model "Google" (sample_device "Pixel 8 128GB" (Some "128GB")) = "Pixel 8" /\
  lookup_variants (built_categories dropping_world [acme; google])
    "phone" "Google" "Pixel 8" = None /\
  brands_of (built_categories dropping_world [acme; google]) "phone" !! "Google"
  = Some {| models := ∅ |}.
Proof.
  split; [repeat split; discriminate |].
  repeat split; vm_compute; reflexivity.
Qed.

(** ** The category keys of the published catalog *)

Lemma initial_categories_keys (k : string) :
  In k category_keys -> initial_categories !! k = Some {| brands := ∅ |}.
Proof. intros [<- | [<- | [<- | []]]]; reflexivity. Qed.

Lemma process_devices_other_category (mn : string) (k : string)
    (ds : list Device.t) (cats : gmap string CategoryEntry) :
  (forall d, d ∈ ds -> device_category d <> k) ->
  fst (process_devices mn cats ds) !! k = cats !! k.
Proof.
  revert cats; induction ds as [|d ds IH]; intros cats H; [reflexivity |].
  assert (E : process_device mn cats d !! k = cats !! k).
  { unfold process_device. apply fold_device_other_category. apply (H d). now left. }
  cbn [process_devices]. destruct (process_device_throws mn cats d); cbn [fst];
    [exact E |].
  rewrite IH by (intros x Hx; apply H; now right). exact E.
Qed.

Lemma process_manufacturers_other_category (w : World) (k : string)
    (ms : list Manufacturer.t) (i : nat) (cats : gmap string CategoryEntry) :
  (forall j mf ds d,
      ms !! j = Some mf ->
      devices_response w (i + j) (Manufacturer.name mf) = FetchArray ds ->
      d ∈ ds -> device_category d <> k) ->
  snd (process_manufacturers w i ms cats) !! k = cats !! k.
Proof.
  revert i cats; induction ms as [|mf ms IH]; intros i cats H; [reflexivity |].
  rewrite process_manufacturers_cons. cbn [snd]. rewrite IH.
  - rewrite process_manufacturer_catalog.
    destruct (devices_response w i (Manufacturer.name mf)) as [msg | | ds] eqn:E;
      try reflexivity.
    apply process_devices_other_category. intros x Hx.
    apply (H 0 mf ds x); [reflexivity | now rewrite Nat.add_0_r | exact Hx].
  - intros j mf' ds d Hj Hr Hd. apply (H (S j) mf' ds d); auto.
    now replace (i + S j) with (S i + j) by lia.
Qed.

(** C10.  Every catalog the invocation uploads has the keys "phone",
    "tablet" and "smartwatch" among its categories.  The catalog starts with
    these three keys, each with no brand, and a key under which no processed
    device is classified still has no brand in the built catalog. *)
Theorem published_category_keys (w : World) :
  (forall bucket path body upsert k,
      In (Upload bucket path body upsert) (fst (serve w)) ->
      In k category_keys ->
      is_Some (categories body !! k)) /\
  (forall k, In k category_keys ->
             categories (initial_catalog (now w)) !! k = Some {| brands := ∅ |}) /\
  (forall ms k,
      In k category_keys ->
      (forall i mf ds d,
          take maxManufacturers ms !! i = Some mf ->
          devices_response w i (Manufacturer.name mf) = FetchArray ds ->
          d ∈ ds -> device_category d <> k) ->
      built_categories w ms !! k = Some {| brands := ∅ |}).
Proof.
  split; [| split].
  - intros bucket path body upsert k Hin Hk.
    apply serve_upload_inv in Hin as (ms & _ & -> & _).
    cbn [published_catalog categories]. unfold built_categories.
    apply (preserved_manufacturers w (fun cats => is_Some (cats !! k))).
    + intros. now apply fold_device_keeps_category.
    + rewrite (initial_categories_keys k Hk). eauto.
  - intros k Hk. now apply initial_categories_keys.
  - intros ms k Hk H. unfold built_categories.
    rewrite process_manufacturers_other_category; [now apply initial_categories_keys |].
    intros j mf ds d Hj Hr Hd. now apply (H j mf ds d).
Qed.

Lemma published_category_keys_witness :
  In (attempt (published_catalog sample_world [acme; samsung]))
     (fst (serve sample_world)) /\
  In "smartwatch" category_keys /\
  is_Some (categories (published_catalog sample_world [acme; samsung]) !! "smartwatch").
Proof.
  assert (H : In (attempt (published_catalog sample_world [acme; samsung]))
                (fst (serve sample_world))).
  { assert (R : reaches_upload sample_world [acme; samsung])
      by (repeat split; discriminate).
    rewrite (serve_reaches_upload sample_world _ R). cbn [fst].
    right. apply in_or_app. right. now left. }
  assert (K : In "smartwatch" category_keys) by (right; right; now left).
  split; [exact H |]. split; [exact K |].
  exact (proj1 (published_category_keys sample_world) _ _ _ _ "smartwatch" H K).
Defined.

(** ** The API-route reader *)

Lemma from_storage_fails (Json : Type) (parse : string -> option Json) (d : Download) :
  download_fails d -> from_storage Json parse d = None.
Proof.
  intros [[message ->] | (data & error & ->)]; [reflexivity |]. now destruct data.
Qed.

(** C9.  When the storage download throws or answers with an error and the
    local snapshot is read and parses, the reader answers 200 with the
    snapshot, source "local-fallback" and a cache of 300 s, less than the
    3600 s of the primary path.  When the download gives data that parses, it
    answers 200 with the stored catalog, source "supabase-storage" and a cache
    of 3600 s.  When the download fails and the snapshot cannot be read or
    parsed, it answers 500 with a JSON error whose message names both the
    storage and the local file. *)
Theorem GET_fallback (Json : Type) (parse : string -> option Json)
    (stringify : Json -> string) :
  (forall d content catalog,
      download_fails d -> parse content = Some catalog ->
      let r := GET Json parse stringify d (ReadContent content) in
      response_status r = 200%Z /\
      response_body r = CatalogBody (stringify catalog) /\
      header r "X-Catalog-Source" = Some "local-fallback" /\
      header r "Cache-Control" ≫= max_age = Some 300%Z /\
      (300 < 3600)%Z) /\
  (forall text f catalog,
      parse text = Some catalog ->
      let r := GET Json parse stringify (DownloadResult (Some text) None) f in
      response_status r = 200%Z /\
      response_body r = CatalogBody (stringify catalog) /\
      header r "X-Catalog-Source" = Some "supabase-storage" /\
      header r "Cache-Control" ≫= max_age = Some 3600%Z) /\
  (forall d f,
      download_fails d -> from_local_file Json parse f = None ->
      let r := GET Json parse stringify d f in
      response_status r = 500%Z /\
      exists message,
        response_body r = ErrorBody "Failed to load device catalog" message /\
        both_sources_named message).
Proof.
  split; [| split].
  - intros d content catalog Hd Hp. unfold GET.
    rewrite (from_storage_fails _ _ _ Hd). cbn [from_local_file]. rewrite Hp.
    repeat split.
  - intros text f catalog Hp. unfold GET. cbn [from_storage]. rewrite Hp.
    repeat split.
  - intros d f Hd Hf. unfold GET. rewrite (from_storage_fails _ _ _ Hd), Hf.
    split; [reflexivity |]. eexists. split; [reflexivity |]. split.
    + exists "Both ", " and local file failed. Please ensure the catalogs bucket exists in Supabase Storage or the local file is available.".
      reflexivity.
    + exists "Both Supabase Storage and ", " failed. Please ensure the catalogs bucket exists in Supabase Storage or the local file is available.".
      reflexivity.
Qed.

Lemma GET_fallback_witness :
  download_fails (DownloadResult None (Some (storage_error "Object not found"))) /\
  parse_nonempty "{}" = Some "{}" /\
  header (GET string parse_nonempty id
            (DownloadResult None (Some (storage_error "Object not found")))
            (ReadContent "{}")) "X-Catalog-Source" = Some "local-fallback".
Proof.
  assert (D : download_fails
                (DownloadResult None (Some (storage_error "Object not found")))).
  { right. now exists None, (storage_error "Object not found"). }
  split; [exact D |]. split; [reflexivity |].
  exact (proj1 (proj2 (proj2 (proj1 (GET_fallback string parse_nonempty id)
                                _ "{}" "{}" D eq_refl)))).
Defined.

(** * Further properties of the code *)

(** ** Strings: parts of a string *)

Section StringParts.

Lemma str_app_nil_r (s : string) : s +:+ "" = s.
Proof. induction s as [|c s IH]; simpl; [reflexivity | now rewrite IH]. Qed.

Lemma str_app_assoc (a b c : string) : (a +:+ b) +:+ c = a +:+ b +:+ c.
Proof. induction a as [|x a IH]; simpl; [reflexivity | now rewrite IH]. Qed.

Lemma str_app_length (a b : string) :
  String.length (a +:+ b) = String.length a + String.length b.
Proof. induction a as [|x a IH]; simpl; [reflexivity | now rewrite IH]. Qed.

Lemma occurs_in_refl (s : string) : occurs_in s s.
Proof. exists "", "". simpl. now rewrite str_app_nil_r. Qed.

Lemma occurs_in_part (a x b : string) : occurs_in x (a +:+ x +:+ b).
Proof. now exists a, b. Qed.

Lemma occurs_in_trans (x y z : string) :
  occurs_in x y -> occurs_in y z -> occurs_in x z.
Proof.
  intros (a & b & ->) (c & d & ->). exists (c +:+ a), (b +:+ d).
  now rewrite !str_app_assoc.
Qed.

Lemma trimStart_split (s : string) :
  exists ws, s = ws +:+ Js.trimStart s /\ Js.has_non_space ws = false.
Proof.
  induction s as [|c s (ws & E & H)]; [now exists "" |].
  simpl. destruct (Js.is_space c) eqn:Ec.
  - exists (String c ws). simpl. rewrite <- E, Ec, H. now split.
  - now exists "".
Qed.

Lemma trimEnd_split (s : string) :
  exists ws, s = Js.trimEnd s +:+ ws /\ Js.has_non_space ws = false.
Proof.
  induction s as [|c s (ws & E & H)]; [now exists "" |].
  simpl. destruct (Js.is_space c && Js.is_empty (Js.trimEnd s)) eqn:Ec.
  - apply andb_true_iff in Ec as [Ec Ee]. exists (String c s). split; [reflexivity |].
    simpl. rewrite Ec. simpl. destruct (Js.trimEnd s); [| discriminate].
    simpl in E. now subst.
  - exists ws. simpl. now rewrite <- E.
Qed.

Lemma trim_occurs (s : string) : occurs_in (Js.trim s) s.
Proof.
  unfold Js.trim. destruct (trimStart_split s) as (a & E & _).
  destruct (trimEnd_split (Js.trimStart s)) as (b & E' & _).
  exists a, b. now rewrite <- E', <- E.
Qed.

Lemma substring_split (n : nat) (s : string) :
  exists pre, s = pre +:+ Js.substring n s.
Proof.
  revert s; induction n as [|n IH]; intros s; [now exists "" |].
  destruct s as [|c s]; [now exists "" |].
  destruct (IH s) as (pre & E). exists (String c pre). simpl. now rewrite <- E.
Qed.

Lemma re_replace_split (toks : list string) (s : string) :
  exists suf, s = re_replace toks s +:+ suf.
Proof.
  induction s as [|c s (suf & E)]; simpl.
  - destruct (alt_eol toks ""); now exists "".
  - destruct (_ || _); [now exists (String c s) |].
    exists suf. simpl. now rewrite <- E.
Qed.

Lemma trimStart_head (s : string) (c : ascii) (r : string) :
  Js.trimStart s = String c r -> Js.is_space c = false.
Proof.
  induction s as [|x s IH]; simpl; [discriminate |].
  destruct (Js.is_space x) eqn:Ex; [exact IH | congruence].
Qed.

Lemma trimEnd_last (s r : string) (c : ascii) :
  Js.trimEnd s = r +:+ String c "" -> Js.is_space c = false.
Proof.
  revert r; induction s as [|x s IH]; intros r; simpl.
  - destruct r; discriminate.
  - destruct (Js.is_space x && Js.is_empty (Js.trimEnd s)) eqn:Ex;
      [destruct r; discriminate |].
    destruct r as [|y r]; simpl.
    + intros [= -> E]. rewrite E in Ex. simpl in Ex. now rewrite andb_true_r in Ex.
    + intros [= -> E]. now apply (IH r).
Qed.

Lemma trimEnd_head (s : string) (c : ascii) (r : string) :
  Js.trimEnd s = String c r ->
  exists r', s = String c r'.
Proof.
  destruct s as [|x s]; simpl; [discriminate |].
  destruct (_ && _); [discriminate |]. intros [= -> _]. eauto.
Qed.

Lemma trim_trimmed (s : string) : trimmed (Js.trim s).
Proof.
  unfold Js.trim. split.
  - intros c r E. apply trimEnd_head in E as (r' & E).
    now apply trimStart_head in E.
  - intros r c E. now apply trimEnd_last in E.
Qed.

End StringParts.

(** ** Storage variants *)

Section StorageVariants.

Lemma split_comma_nonempty (s : string) : Js.split_comma s <> [].
Proof.
  destruct s as [|c s]; simpl; [discriminate |].
  destruct (Ascii.eqb c ","); [discriminate |]. now destruct (Js.split_comma s).
Qed.

Lemma join_comma_head (c : ascii) (p : string) (ps : list string) :
  join_comma (String c p :: ps) = String c (join_comma (p :: ps)).
Proof. now destruct ps. Qed.

Lemma split_comma_join (s : string) : join_comma (Js.split_comma s) = s.
Proof.
  induction s as [|c s IH]; [reflexivity |]. simpl.
  pose proof (split_comma_nonempty s) as N.
  destruct (Ascii.eqb_spec c ",") as [-> | Hc].
  - destruct (Js.split_comma s) as [|p ps]; [congruence |].
    change (join_comma ("" :: p :: ps)) with (String "," (join_comma (p :: ps))).
    now rewrite IH.
  - destruct (Js.split_comma s) as [|p ps]; [congruence |].
    now rewrite join_comma_head, IH.
Qed.

Lemma join_comma_occurs (p : string) (l : list string) :
  In p l -> occurs_in p (join_comma l).
Proof.
  induction l as [|q l IH]; [intros [] |].
  intros [-> | H]; cbn [join_comma].
  - destruct l; [apply occurs_in_refl |]. now exists "", ("," +:+ join_comma (s :: l)).
  - destruct l as [|q' l]; [destruct H |].
    destruct (IH H) as (a & b & E). exists (q +:+ "," +:+ a), b.
    now rewrite E, !str_app_assoc.
Qed.

Lemma split_comma_piece (s p : string) :
  In p (Js.split_comma s) -> ~ occurs_in "," p.
Proof.
  revert p; induction s as [|c s IH]; intros p; simpl.
  - intros [<- | []] ([|x a] & b & E); discriminate.
  - pose proof (split_comma_nonempty s) as N.
    destruct (Ascii.eqb_spec c ",") as [-> | Hc].
    + intros [<- | H]; [| now apply IH].
      intros ([|x a] & b & E); discriminate.
    + destruct (Js.split_comma s) as [|q qs]; [congruence |].
      intros [<- | H]; [| apply IH; now right].
      intros ([|x a] & b & E); simpl in E.
      * injection E as E _. congruence.
      * injection E as _ E. apply (IH q); [now left | now exists a, b].
Qed.

Lemma separators_only_pieces (s p : string) :
  separators_only s = true -> In p (Js.split_comma s) -> Js.has_non_space p = false.
Proof.
  revert p; induction s as [|c s IH]; intros p; simpl.
  - intros _ [<- | []]. reflexivity.
  - rewrite andb_true_iff. intros [Hc Hs].
    pose proof (split_comma_nonempty s) as N.
    destruct (Ascii.eqb c ",") eqn:Ec.
    + intros [<- | H]; [reflexivity | now apply IH].
    + simpl in Hc. destruct (Js.split_comma s) as [|q qs]; [congruence |].
      intros [<- | H]; [| apply IH; [exact Hs | now right]].
      simpl. rewrite Hc. simpl. apply IH; [exact Hs | now left].
Qed.

Lemma extractStorageVariants_elem (s v : string) :
  In v (extractStorageVariants (Some s)) ->
  Js.is_empty v = false /\ exists p, In p (Js.split_comma s) /\ v = Js.trim p.
Proof.
  unfold extractStorageVariants. destruct (Js.is_empty s); [intros [] |].
  rewrite <- list_elem_of_In, list_elem_of_filter, list_elem_of_In, in_map_iff.
  intros [Hv (p & <- & Hp)]. split; [exact Hv | now exists p].
Qed.

(** X1.  Every token [extractStorageVariants] returns is non-empty, has no
    white space at either end, holds no comma and is a part of the storage
    field; a field that is missing, empty, or made of commas and white space
    only gives no token. *)
Theorem extractStorageVariants_tokens (storage : option string) :
  (forall v, In v (extractStorageVariants storage) ->
             v <> "" /\ trimmed v /\ ~ occurs_in "," v
             /\ exists s, storage = Some s /\ occurs_in v s) /\
  (forall s, storage = Some s -> separators_only s = true ->
             extractStorageVariants storage = []) /\
  (storage = None \/ storage = Some "" -> extractStorageVariants storage = []).
Proof.
  split; [| split].
  - intros v Hv. destruct storage as [s|]; [| destruct Hv].
    apply extractStorageVariants_elem in Hv as [Hne (p & Hp & ->)].
    split; [intros E; now rewrite E in Hne |].
    split; [apply trim_trimmed |].
    split.
    + intros H. apply (split_comma_piece s p Hp).
      exact (occurs_in_trans _ _ _ H (trim_occurs p)).
    + exists s. split; [reflexivity |].
      apply (occurs_in_trans _ p); [apply trim_occurs |].
      rewrite <- (split_comma_join s). now apply join_comma_occurs.
  - intros s -> Hs.
    destruct (extractStorageVariants (Some s)) as [|v l] eqn:E; [reflexivity |].
    assert (Hv : In v (extractStorageVariants (Some s))) by (rewrite E; now left).
    apply extractStorageVariants_elem in Hv as [Hne (p & Hp & ->)].
    rewrite trim_is_empty, (separators_only_pieces s p Hs Hp) in Hne. discriminate.
  - intros [-> | ->]; reflexivity.
Qed.

Lemma extractStorageVariants_tokens_witness :
  In "256GB" (extractStorageVariants (Some " 128GB ,256GB,, ")) /\
  trimmed "256GB" /\
  separators_only " , ,, " = true /\
  extractStorageVariants (Some " , ,, ") = [].
Proof.
  assert (H : In "256GB" (extractStorageVariants (Some " 128GB ,256GB,, ")))
    by (right; now left).
  split; [exact H |].
  split; [exact (proj1 (proj2 (proj1 (extractStorageVariants_tokens _) "256GB" H))) |].
  split; [reflexivity |].
  exact (proj1 (proj2 (extractStorageVariants_tokens (Some " , ,, ")))
           " , ,, " eq_refl eq_refl).
Defined.

End StorageVariants.

(** ** The extracted model name *)

Section ModelName.

Lemma dot_star_eol_app (a b : string) :
  dot_star_eol (a +:+ b) = dot_star_eol a && dot_star_eol b.
Proof.
  induction a as [|x a IH]; simpl; [reflexivity |].
  rewrite IH. apply andb_assoc.
Qed.

Lemma dot_star_eol_part (x s : string) :
  occurs_in x s -> dot_star_eol s = true -> dot_star_eol x = true.
Proof.
  intros (a & b & ->). rewrite !dot_star_eol_app, !andb_true_iff. tauto.
Qed.

Lemma token_at_extend (toks : list string) (s x : string) :
  token_at toks s -> dot_star_eol x = true -> token_at toks (s +:+ x).
Proof.
  intros (t & t' & rest & Hin & -> & Ht & Hr) Hx.
  exists t, t', (rest +:+ x). rewrite str_app_assoc, dot_star_eol_app, Hr, Hx.
  now repeat split.
Qed.

Lemma token_inside_part (toks : list string) (x s : string) :
  occurs_in x s -> dot_star_eol s = true ->
  token_inside toks x -> token_inside toks s.
Proof.
  intros (a & b & ->) Hs (pre & suf & -> & Ht).
  exists (a +:+ pre), (suf +:+ b). split; [now rewrite !str_app_assoc |].
  apply token_at_extend; [exact Ht |].
  rewrite !dot_star_eol_app, !andb_true_iff in Hs. tauto.
Qed.

Lemma re_replace_token_free (toks : list string) (s : string) :
  (forall t, In t toks -> head_not_space t = true) ->
  dot_star_eol s = true ->
  ~ token_inside toks (re_replace toks s).
Proof.
  intros Hh Hs. pose proof (re_replace_strips toks Hh s) as H.
  remember (re_replace toks s) as r eqn:Er. clear Er.
  destruct H as [Hnone | pre suf E Ht Hfirst].
  - intros (a & b & Eab & Hb). now apply (Hnone a b).
  - intros (a & b & Eab & Hb).
    destruct (trimEnd_split pre) as (ws & Ews & _).
    apply (Hfirst a (b +:+ ws +:+ suf)).
    + rewrite E, Ews, Eab. now rewrite !str_app_assoc.
    + destruct (token_at_head toks Hh b Hb) as (c & b' & -> & _).
      rewrite Ews, Eab, !str_app_length. simpl. lia.
    + apply token_at_extend; [exact Hb |].
      apply (dot_star_eol_part _ s); [| exact Hs].
      exists (a +:+ b), "". rewrite E, Ews, Eab, !str_app_assoc.
      now rewrite str_app_nil_r.
Qed.

Lemma brand_rest_occurs (d b : string) :
  occurs_in
    (if Js.startsWith (Js.toLowerCase d) (Js.toLowerCase b)
     then Js.trim (Js.substring (String.length b) d) else d) d.
Proof.
  destruct (Js.startsWith _ _); [| apply occurs_in_refl].
  apply (occurs_in_trans _ (Js.substring (String.length b) d)); [apply trim_occurs |].
  destruct (substring_split (String.length b) d) as (pre & E).
  exists pre, "". now rewrite str_app_nil_r.
Qed.

Lemma re_replace_occurs (toks : list string) (s : string) :
  occurs_in (re_replace toks s) s.
Proof. destruct (re_replace_split toks s) as (suf & E). now exists "", suf. Qed.

(** X2.  The model name is a part of the device name, written as it is
    there; it is the device name itself or has no white space at either end;
    and it is empty only when the device name is. *)
Theorem extractModelName_part (deviceName brandName : string) :
  occurs_in (extractModelName deviceName brandName) deviceName /\
  (extractModelName deviceName brandName = deviceName
   \/ trimmed (extractModelName deviceName brandName)) /\
  (deviceName <> "" -> extractModelName deviceName brandName <> "").
Proof.
  unfold extractModelName.
  set (m0 := if Js.startsWith _ _ then _ else _).
  destruct (Js.is_empty (Js.trim _)) eqn:E.
  - split; [apply occurs_in_refl |]. split; [now left | auto].
  - split; [| split].
    + apply (occurs_in_trans _ _ _ (trim_occurs _)).
      apply (occurs_in_trans _ _ _ (re_replace_occurs _ _)).
      apply (occurs_in_trans _ _ _ (re_replace_occurs _ _)).
      apply brand_rest_occurs.
    + right. apply trim_trimmed.
    + intros _ H. rewrite H in E. discriminate.
Qed.

Lemma extractModelName_part_witness :
  "Pixel 8 Pro 256GB" <> "" /\ extractModelName "Pixel 8 Pro 256GB" "Google" <> "".
Proof.
  assert (H : "Pixel 8 Pro 256GB" <> "") by discriminate.
  split; [exact H |].
  exact (proj2 (proj2 (extractModelName_part "Pixel 8 Pro 256GB" "Google")) H).
Defined.

(** X3.  For a device name without line break, the model name is the device
    name itself or holds no storage-size token and no color token, in any
    case of their letters. *)
Theorem extractModelName_token_free (deviceName brandName : string) :
  dot_star_eol deviceName = true ->
  extractModelName deviceName brandName = deviceName
  \/ (~ token_inside storage_tokens (extractModelName deviceName brandName)
      /\ ~ token_inside color_tokens (extractModelName deviceName brandName)).
Proof.
  intros Hd. unfold extractModelName.
  set (m0 := if Js.startsWith _ _ then _ else _).
  assert (H0 : dot_star_eol m0 = true)
    by (apply (dot_star_eol_part _ deviceName); [apply brand_rest_occurs | exact Hd]).
  set (m1 := re_replace storage_tokens m0).
  assert (H1 : dot_star_eol m1 = true)
    by (apply (dot_star_eol_part _ m0); [apply re_replace_occurs | exact H0]).
  set (m2 := re_replace color_tokens m1).
  assert (H2 : dot_star_eol m2 = true)
    by (apply (dot_star_eol_part _ m1); [apply re_replace_occurs | exact H1]).
  destruct (Js.is_empty (Js.trim m2)); [now left |]. right. split.
  - intros H.
    apply (re_replace_token_free storage_tokens m0 storage_tokens_head H0).
    fold m1. apply (token_inside_part _ m2); [apply re_replace_occurs | exact H1 |].
    now apply (token_inside_part _ (Js.trim m2)); [apply trim_occurs | exact H2 |].
  - intros H.
    apply (re_replace_token_free color_tokens m1 color_tokens_head H1).
    fold m2. now apply (token_inside_part _ (Js.trim m2)); [apply trim_occurs | exact H2 |].
Qed.

Lemma extractModelName_token_free_witness :
  dot_star_eol "Apple iPhone 15 Pro 1TB Blue Titanium" = true /\
  ~ token_inside color_tokens
      (extractModelName "Apple iPhone 15 Pro 1TB Blue Titanium" "apple").
Proof.
  split; [reflexivity |].
  destruct (extractModelName_token_free "Apple iPhone 15 Pro 1TB Blue Titanium"
              "apple" eq_refl) as [E | [_ H]]; [discriminate E | exact H].
Defined.

End ModelName.

(** ** What the built catalog holds *)

Section Kept.

Variable w : World.
Variable P : gmap string CategoryEntry -> Prop.
Variable R : string -> Device.t -> Prop.
Hypothesis P_device :
  forall mn cats d, R mn d -> P cats -> P (process_device mn cats d).

Lemma kept_devices (mn : string) (ds : list Device.t)
    (cats : gmap string CategoryEntry) :
  (forall d, d ∈ ds -> R mn d) -> P cats -> P (fst (process_devices mn cats ds)).
Proof.
  revert cats; induction ds as [|d ds IH]; intros cats HR H; [exact H |].
  assert (H1 : P (process_device mn cats d)).
  { apply P_device; [apply HR; now left | exact H]. }
  cbn [process_devices]. destruct (process_device_throws mn cats d); cbn [fst];
    [exact H1 |].
  apply IH; [intros x Hx; apply HR; now right | exact H1].
Qed.

Lemma kept_manufacturers (ms : list Manufacturer.t) (i : nat)
    (cats : gmap string CategoryEntry) :
  (forall j mf ds d,
      ms !! j = Some mf ->
      devices_response w (i + j) (Manufacturer.name mf) = FetchArray ds ->
      d ∈ ds -> R (Manufacturer.name mf) d) ->
  P cats -> P (snd (process_manufacturers w i ms cats)).
Proof.
  revert i cats; induction ms as [|mf ms IH]; intros i cats HR H; [exact H |].
  rewrite process_manufacturers_cons. cbn [snd]. apply IH.
  - intros j mf' ds d Hj Hr Hd. apply (HR (S j) mf' ds d); auto.
    now replace (i + S j) with (S i + j) by lia.
  - rewrite process_manufacturer_catalog.
    destruct (devices_response w i (Manufacturer.name mf)) as [msg | | ds] eqn:E;
      try exact H.
    apply kept_devices; [| exact H]. intros x Hx.
    apply (HR 0 mf ds x); [reflexivity | now rewrite Nat.add_0_r | exact Hx].
Qed.

End Kept.

Lemma kept_built (w : World) (ms : list Manufacturer.t)
    (P : gmap string CategoryEntry -> Prop) :
  (forall mn cats d, processed w ms mn d -> P cats -> P (process_device mn cats d)) ->
  P initial_categories -> P (built_categories w ms).
Proof.
  intros Hstep H0. unfold built_categories.
  apply (kept_manufacturers w P (processed w ms) Hstep); [| exact H0].
  intros j mf ds d Hj Hr Hd. now exists j, mf, ds.
Qed.

Lemma device_category_key (d : Device.t) : In (device_category d) category_keys.
Proof.
  unfold device_category, category_keys.
  destruct (categorizeDevice (resolveDeviceName d)); simpl; auto.
Qed.

Lemma resolveDeviceName_not_empty (d : Device.t) : resolveDeviceName d <> "".
Proof.
  unfold resolveDeviceName, or_else, truthy. simpl.
  destruct (Device.name d) as [|c s]; simpl; [| discriminate].
  destruct (Device.brand_name d) as [[|c s]|]; simpl; discriminate.
Qed.

Lemma extractModelName_not_empty (deviceName brandName : string) :
  deviceName <> "" -> extractModelName deviceName brandName <> "".
Proof.
  intros H. unfold extractModelName.
  destruct (Js.is_empty (Js.trim _)) eqn:E; [exact H |].
  intros H'. rewrite H' in E. discriminate.
Qed.

Lemma device_variants_elem (mn : string) (d : Device.t) (v : string) :
  In v (device_variants mn d) -> v <> "" /\ trimmed v.
Proof.
  unfold device_variants, contributed.
  destruct (extractStorageVariants (Device.storage d)) as [|x l] eqn:E.
  - destruct (Js.is_empty (variantName _ _)) eqn:Ev; [intros [] |].
    intros [<- | []]. split; [intros H; now rewrite H in Ev | apply trim_trimmed].
  - rewrite <- E. intros H. destruct (Device.storage d) as [s|]; [| destruct H].
    apply extractStorageVariants_elem in H as [Hne (p & _ & ->)].
    split; [intros H; now rewrite H in Hne | apply trim_trimmed].
Qed.

Lemma process_device_variants (mn : string) (cats : gmap string CategoryEntry)
    (d : Device.t) (c b m : string) :
  (filed_under mn d c b m /\ process_device_throws mn cats d = None /\
   exists added,
     lookup_variants (process_device mn cats d) c b m
     = Some (variants_at cats c b m ++ added)
     /\ forall v, In v added -> In v (device_variants mn d)) \/
  ((~ filed_under mn d c b m \/ process_device_throws mn cats d <> None) /\
   lookup_variants (process_device mn cats d) c b m = lookup_variants cats c b m).
Proof.
  unfold process_device, process_device_throws, filed_under.
  fold (device_category d). fold (device_model mn d).
  rewrite lookup_variants_fold_device. case_decide as K.
  - destruct (fold_device_throws _ _ _ _ _ _) as [p|];
      [right; split; [right; discriminate | reflexivity] |].
    left. destruct K as (<- & <- & <-). split; [now repeat split |].
    split; [reflexivity |].
    rewrite add_variants_merge. fold (device_variants mn d).
    destruct (merge_variants_spec (device_variants mn d)
                (variants_at cats (device_category d) (resolveBrandName d mn)
                   (device_model mn d))) as (added & -> & Hsub & _).
    exists added. split; [reflexivity |]. intros v Hv.
    apply list_elem_of_In. eapply elem_of_sublist; [| exact Hsub].
    now apply list_elem_of_In.
  - right. split; [| reflexivity]. left. intros (-> & -> & ->). now apply K.
Qed.

(** X4.  The categories of the catalog an invocation builds are exactly
    "phone", "tablet" and "smartwatch": no device adds another one. *)
Theorem built_categories_keys (w : World) (ms : list Manufacturer.t) (k : string) :
  is_Some (built_categories w ms !! k) <-> In k category_keys.
Proof.
  revert k. apply (kept_built w ms (fun cats =>
    forall k, is_Some (cats !! k) <-> In k category_keys)).
  - intros mn cats d _ H k. unfold process_device.
    fold (device_category d).
    destruct (decide (device_category d = k)) as [<- | N].
    + split; [intros _; apply device_category_key |].
      intros _. apply fold_device_keeps_category, H, device_category_key.
    + now rewrite fold_device_other_category.
  - intros k. split.
    + intros [x E]. unfold initial_categories in E.
      rewrite !lookup_insert in E. unfold category_keys.
      repeat case_decide; subst; simpl; auto. now rewrite lookup_empty in E.
    + intros Hk. rewrite (initial_categories_keys k Hk). eauto.
Qed.

Lemma built_categories_keys_witness :
  is_Some (built_categories sample_world [acme; samsung] !! "tablet") /\
  In "tablet" category_keys /\
  ~ is_Some (built_categories sample_world [acme; samsung] !! "laptop").
Proof.
  assert (K : In "tablet" category_keys) by (right; now left).
  split; [exact (proj2 (built_categories_keys sample_world _ "tablet") K) |].
  split; [exact K |].
  intros H. apply (built_categories_keys sample_world _ "laptop") in H.
  destruct H as [H | [H | [H | []]]]; discriminate H.
Defined.

(** X5.  In the catalog an invocation builds no model key is the empty
    string, and every variant is a non-empty string with no white space at
    either end. *)
Theorem built_catalog_strings (w : World) (ms : list Manufacturer.t)
    (c b m : string) (vs : list string) :
  lookup_variants (built_categories w ms) c b m = Some vs ->
  m <> "" /\ forall v, In v vs -> v <> "" /\ trimmed v.
Proof.
  revert c b m vs. apply (kept_built w ms (fun cats =>
    forall c b m vs, lookup_variants cats c b m = Some vs ->
                     m <> "" /\ forall v, In v vs -> v <> "" /\ trimmed v)).
  - intros mn cats d _ H c b m vs.
    destruct (process_device_variants mn cats d c b m)
      as [((_ & _ & Em) & _ & added & -> & Hadd) | [_ ->]]; [| apply H].
    intros [= <-]. split.
    + rewrite Em. apply extractModelName_not_empty, resolveDeviceName_not_empty.
    + intros v Hv. apply in_app_or in Hv as [Hv | Hv].
      * unfold variants_at in Hv.
        destruct (lookup_variants cats c b m) as [old|] eqn:E; [| destruct Hv].
        now apply (H c b m old E).
      * now apply (device_variants_elem mn d), Hadd.
  - intros c b m vs. now rewrite lookup_variants_initial.
Qed.

Lemma built_catalog_strings_witness :
  lookup_variants (built_categories sample_world [acme; samsung])
    "phone" "Samsung" "Galaxy S21" = Some ["128GB"; "256GB"; "512GB"] /\
  "Galaxy S21" <> "" /\ trimmed "512GB".
Proof.
  assert (E : lookup_variants (built_categories sample_world [acme; samsung])
                "phone" "Samsung" "Galaxy S21" = Some ["128GB"; "256GB"; "512GB"])
    by (vm_compute; reflexivity).
  split; [exact E |].
  destruct (built_catalog_strings sample_world _ _ _ _ _ E) as [Hm Hv].
  split; [exact Hm |]. apply (Hv "512GB"). right; right; now left.
Defined.



(** X7.  Processing a device changes the variants under the device's own key
    only, and the manufacturer loop never removes a model or a variant: a
    list that is there stays, with what it had at its front. *)
Theorem catalog_only_grows (w : World) :
  (forall mn cats d c b m,
      ~ filed_under mn d c b m ->
      lookup_variants (process_device mn cats d) c b m = lookup_variants cats c b m) /\
  (forall i ms cats c b m vs,
      lookup_variants cats c b m = Some vs ->
      exists added,
        lookup_variants (snd (process_manufacturers w i ms cats)) c b m
        = Some (vs ++ added)).
Proof.
  split.
  - intros mn cats d c b m N.
    destruct (process_device_variants mn cats d c b m) as [[K _] | [_ E]];
      [now destruct N | exact E].
  - intros i ms cats c b m vs E.
    apply (preserved_manufacturers w (fun cs =>
      exists added, lookup_variants cs c b m = Some (vs ++ added))).
    + intros cs c' b' m' sv st (added & Ea).
      rewrite lookup_variants_fold_device. case_decide as K; [| now exists added].
      destruct (fold_device_throws cs c' b' m' sv st); [now exists added |].
      destruct K as (-> & -> & ->). rewrite add_variants_merge.
      destruct (merge_variants_spec (contributed sv m st) (variants_at cs c b m))
        as (more & -> & _).
      unfold variants_at. rewrite Ea. simpl. exists (added ++ more).
      now rewrite app_assoc.
    + exists []. now rewrite app_nil_r.
Qed.

Lemma catalog_only_grows_witness :
  ~ filed_under "Samsung" (sample_device "Samsung Galaxy Tab S9" None)
      "phone" "Samsung" "Galaxy S21" /\
  lookup_variants
    (process_device "Samsung" initial_categories
       (sample_device "Samsung Galaxy Tab S9" None))
    "phone" "Samsung" "Galaxy S21" = None.
Proof.
  assert (N : ~ filed_under "Samsung" (sample_device "Samsung Galaxy Tab S9" None)
                  "phone" "Samsung" "Galaxy S21").
  { intros (H & _). discriminate H. }
  split; [exact N |].
  rewrite (proj1 (catalog_only_grows sample_world) _ _ _ _ _ _ N).
  apply lookup_variants_initial.
Defined.

(** ** The requests of an invocation *)

Section Requests.

Variable w : World.

Lemma reaches_upload_cases :
  (exists ms, reaches_upload w ms) \/
  ((forall ms, ~ reaches_upload w ms) /\
   exists message,
     (serve w = ([], Failure message) /\
      (truthy (env_INTERNAL_API_SECRET w) = false
       \/ truthy (match env_INTERNAL_API_BASE_URL w with
                  | Some u => Some u
                  | None => env_SITE_URL w
                  end) = false))
     \/ (serve w = ([FetchManufacturers manufacturersEndpoint], Failure message) /\
         truthy (env_INTERNAL_API_SECRET w) = true /\
         truthy (match env_INTERNAL_API_BASE_URL w with
                 | Some u => Some u
                 | None => env_SITE_URL w
                 end) = true)).
Proof.
  destruct (truthy (env_INTERNAL_API_SECRET w)) eqn:Hs.
  2:{ right. split; [intros ms (H & _); congruence |].
      eexists. left. unfold serve. rewrite Hs. split; [reflexivity | now left]. }
  destruct (truthy (match env_INTERNAL_API_BASE_URL w with
                    | Some u => Some u
                    | None => env_SITE_URL w
                    end)) eqn:Hb.
  2:{ right. split; [intros ms (_ & H & _); congruence |].
      eexists. left. unfold serve. rewrite Hs, Hb. split; [reflexivity | now right]. }
  destruct (manufacturers_response w) as [msg | | [|mf ms]] eqn:Hm.
  - right. split; [intros ms (_ & _ & H & _); congruence |].
    eexists. right. unfold serve. rewrite Hs, Hb, Hm. now repeat split.
  - right. split; [intros ms (_ & _ & H & _); congruence |].
    eexists. right. unfold serve. rewrite Hs, Hb, Hm. now repeat split.
  - right. split; [intros ms (_ & _ & H & N); congruence |].
    eexists. right. unfold serve. rewrite Hs, Hb, Hm. now repeat split.
  - left. exists (mf :: ms). now repeat split.
Qed.

Lemma process_manufacturers_io (ms : list Manufacturer.t) (i : nat)
    (cats : gmap string CategoryEntry) :
  List.filter is_loop_io (fst (process_manufacturers w i ms cats))
  = concat (map throttled_request ms).
Proof.
  revert i cats; induction ms as [|mf ms IH]; intros i cats; [reflexivity |].
  rewrite process_manufacturers_cons. cbn [fst map concat].
  rewrite List.filter_app, IH. f_equal.
  destruct (process_manufacturer_events w i mf cats) as [ws ->].
  rewrite List.filter_app, filter_warnings by reflexivity.
  now rewrite app_nil_r.
Qed.

Lemma upload_loop_no_request (catalog : DeviceCatalog) (n k : nat)
    (err : option StorageError.t) :
  List.filter is_device_request (fst (upload_loop w catalog n k err)) = [].
Proof.
  revert k err; induction n as [|n IH]; intros k err; [reflexivity |].
  simpl. destruct (upload_response w k) as [e|].
  - specialize (IH (S k) (Some e)).
    destruct (upload_loop w catalog n (S k) (Some e)) as [evs res].
    cbn [fst] in *. rewrite List.filter_app. simpl. rewrite IH.
    now destruct (0 <? k)%nat.
  - cbn [fst]. rewrite List.filter_app. now destruct (0 <? k)%nat.
Qed.

Lemma filter_requests_of_io (l : list Event) :
  List.filter is_device_request l
  = List.filter is_device_request (List.filter is_loop_io l).
Proof.
  induction l as [|e l IH]; [reflexivity |].
  destruct e; simpl; rewrite ?IH; reflexivity.
Qed.

Lemma throttled_requests (ms : list Manufacturer.t) :
  List.filter is_device_request (concat (map throttled_request ms))
  = map (fun m => FetchDevices (Manufacturer.name m)) ms.
Proof. induction ms as [|m ms IH]; [reflexivity |]. simpl. now rewrite IH. Qed.

End Requests.

Lemma process_manufacturers_responses (w w' : World) (ms : list Manufacturer.t)
    (i : nat) (cats : gmap string CategoryEntry) :
  (forall j name, j < length ms ->
                  devices_response w (i + j) name = devices_response w' (i + j) name) ->
  process_manufacturers w i ms cats = process_manufacturers w' i ms cats.
Proof.
  revert i cats; induction ms as [|mf ms IH]; intros i cats H; [reflexivity |].
  rewrite !process_manufacturers_cons.
  assert (E : process_manufacturer w i mf cats = process_manufacturer w' i mf cats).
  { assert (H0 : devices_response w (i + 0) (Manufacturer.name mf)
                 = devices_response w' (i + 0) (Manufacturer.name mf))
      by (apply H; simpl; lia).
    rewrite Nat.add_0_r in H0. unfold process_manufacturer. now rewrite H0. }
  rewrite E, (IH (S i)); [reflexivity |].
  intros j name Hj. replace (S i + j) with (i + S j) by lia. apply H. simpl. lia.
Qed.

Lemma upload_loop_responses (w w' : World) (c : DeviceCatalog) (n k : nat)
    (err : option StorageError.t) :
  (forall j, upload_response w j = upload_response w' j) ->
  upload_loop w c n k err = upload_loop w' c n k err.
Proof.
  intros H. revert k err; induction n as [|n IH]; intros k err; [reflexivity |].
  simpl. rewrite <- H. destruct (upload_response w k) as [e|]; [| reflexivity].
  now rewrite IH.
Qed.

(** X8.  The manufacturer loop waits 1000 ms before each device request and
    makes one request per manufacturer, in the order of the list; an
    invocation requests the devices of the first 50 manufacturers only, and
    what the provider would answer for the others changes nothing. *)
Theorem device_requests_throttled_and_capped (w : World) :
  (forall i ms cats,
      List.filter is_loop_io (fst (process_manufacturers w i ms cats))
      = concat (map throttled_request ms)) /\
  (forall ms,
      reaches_upload w ms ->
      List.filter is_device_request (fst (serve w))
      = map (fun m => FetchDevices (Manufacturer.name m)) (take maxManufacturers ms)
      /\ length (List.filter is_device_request (fst (serve w))) <= 50) /\
  (forall r1 r2,
      (forall i name, i < maxManufacturers -> r1 i name = r2 i name) ->
      serve (with_devices w r1) = serve (with_devices w r2)).
Proof.
  split; [| split].
  - intros i ms cats. apply process_manufacturers_io.
  - intros ms R. rewrite (serve_reaches_upload w ms R). cbn [fst].
    cbn [List.filter is_device_request]. rewrite List.filter_app.
    unfold upload_with_retry. rewrite upload_loop_no_request, app_nil_r.
    rewrite filter_requests_of_io, process_manufacturers_io, throttled_requests.
    split; [reflexivity |]. rewrite length_map, length_take. unfold maxManufacturers. lia.
  - intros r1 r2 H.
    destruct (reaches_upload_cases (with_devices w r1))
      as [[ms R1] | [Hn (message & [[E1 C] | (E1 & Hs & Hb)])]].
    + assert (R2 : reaches_upload (with_devices w r2) ms) by exact R1.
      rewrite (serve_reaches_upload _ ms R1), (serve_reaches_upload _ ms R2).
      assert (E : process_manufacturers (with_devices w r1) 0
                    (take maxManufacturers ms) initial_categories
                  = process_manufacturers (with_devices w r2) 0
                      (take maxManufacturers ms) initial_categories).
      { apply process_manufacturers_responses. intros j name Hj. simpl.
        apply H. rewrite length_take in Hj. lia. }
      assert (Ec : published_catalog (with_devices w r1) ms
                   = published_catalog (with_devices w r2) ms).
      { unfold published_catalog, built_categories. now rewrite E. }
      rewrite E, Ec. unfold upload_with_retry.
      now rewrite (upload_loop_responses (with_devices w r1) (with_devices w r2)).
    + rewrite E1. symmetry. unfold serve in *.
      cbn [with_devices env_INTERNAL_API_SECRET env_INTERNAL_API_BASE_URL env_SITE_URL]
        in *.
      destruct C as [C | C].
      * now rewrite C in *.
      * destruct (truthy (env_INTERNAL_API_SECRET w)); [| exact E1].
        now rewrite C in *.
    + rewrite E1. symmetry. unfold serve in E1 |- *.
      cbn [with_devices env_INTERNAL_API_SECRET env_INTERNAL_API_BASE_URL env_SITE_URL
             manufacturers_response] in Hs, Hb, E1 |- *.
      rewrite Hs, Hb in E1 |- *. cbn [negb] in E1 |- *.
      destruct (manufacturers_response w) as [msg | | [|mf ms]] eqn:Hm; try exact E1.
      exfalso. apply (Hn (mf :: ms)). now repeat split.
Qed.

Lemma device_requests_throttled_and_capped_witness :
  reaches_upload sample_world [acme; samsung] /\
  List.filter is_device_request (fst (serve sample_world))
  = [FetchDevices "Acme"; FetchDevices "Samsung"].
Proof.
  assert (R : reaches_upload sample_world [acme; samsung])
    by (repeat split; discriminate).
  split; [exact R |].
  exact (proj1 (proj1 (proj2 (device_requests_throttled_and_capped sample_world)) _ R)).
Defined.

(** ** How an invocation ends *)

Lemma upload_result_none (w : World) (catalog : DeviceCatalog) :
  snd (upload_with_retry w catalog) = None <-> some_attempt_succeeds w.
Proof.
  split; [| apply upload_with_retry_policy].
  unfold upload_with_retry, some_attempt_succeeds, maxRetries. simpl.
  destruct (upload_response w 0) as [e0|] eqn:E0; [| intros _; exists 0; split; [lia | exact E0]].
  simpl. destruct (upload_response w 1) as [e1|] eqn:E1;
    [| intros _; exists 1; split; [lia | exact E1]].
  simpl. destruct (upload_response w 2) as [e2|] eqn:E2;
    [| intros _; exists 2; split; [lia | exact E2]].
  simpl. destruct (upload_response w 3) as [e3|] eqn:E3;
    [| intros _; exists 3; split; [lia | exact E3]].
  discriminate.
Qed.

Lemma split_after {A : Type} (l1 l2 pre post : list A) (e : A) :
  (l1 ++ l2 = pre ++ e :: post)%list -> ~ In e l1 ->
  exists k, l2 = (k ++ e :: post)%list.
Proof.
  revert pre; induction l1 as [|x l1 IH]; intros pre E N.
  - now exists pre.
  - destruct pre as [|y pre]; simpl in E; injection E as -> E.
    + destruct N. now left.
    + apply (IH pre E). intros H. apply N. now right.
Qed.

(** X9.  An invocation that does not get past its configuration or the
    manufacturer list answers 500 and makes no device request, no wait and
    no upload; when the secret or the base URL is not set it makes no request
    at all. *)
Theorem serve_fails_fast (w : World) :
  (forall ms, ~ reaches_upload w ms) ->
  status (snd (serve w)) = 500%Z /\
  (forall e, In e (fst (serve w)) -> e = FetchManufacturers manufacturersEndpoint) /\
  (truthy (env_INTERNAL_API_SECRET w) = false
   \/ truthy (match env_INTERNAL_API_BASE_URL w with
              | Some u => Some u
              | None => env_SITE_URL w
              end) = false ->
   fst (serve w) = []).
Proof.
  intros Hn.
  destruct (reaches_upload_cases w)
    as [[ms R] | [_ (message & [[E C] | (E & Hs & Hb)])]];
    [now destruct (Hn ms) | |]; rewrite E; cbn [fst snd status].
  - split; [reflexivity |]. split; [intros e [] | reflexivity].
  - split; [reflexivity |]. split; [intros e [<- | []]; reflexivity |].
    intros [C | C]; congruence.
Qed.

(** The sample invocation without its secret. *)
Lemma serve_fails_fast_witness :
  let w := {| env_INTERNAL_API_SECRET := Some "";
              env_INTERNAL_API_BASE_URL := env_INTERNAL_API_BASE_URL sample_world;
              env_SITE_URL := env_SITE_URL sample_world;
              now := now sample_world;
              manufacturers_response := manufacturers_response sample_world;
              devices_response := devices_response sample_world;
              upload_response := upload_response sample_world |} in
  (forall ms, ~ reaches_upload w ms) /\ fst (serve w) = [] /\
  status (snd (serve w)) = 500%Z.
Proof.
  intros w.
  assert (Hn : forall ms, ~ reaches_upload w ms) by (intros ms (H & _); discriminate H).
  split; [exact Hn |].
  destruct (serve_fails_fast w Hn) as (Hs & _ & He).
  split; [apply He; now left | exact Hs].
Defined.

(** X10.  Every upload of an invocation carries one and the same catalog, the
    one built by the whole manufacturer loop and stamped with the clock,
    version "1.0.0" and source "MobileAPI.dev"; and once an upload is made no
    device request follows. *)
Theorem uploads_carry_final_catalog (w : World) :
  (forall b p body u,
      In (Upload b p body u) (fst (serve w)) ->
      exists ms,
        reaches_upload w ms /\
        categories body = built_categories w ms /\
        metadata body
        = {| lastUpdated := now w; version := "1.0.0"; source := "MobileAPI.dev" |}) /\
  (forall e1 e2,
      In e1 (fst (serve w)) -> In e2 (fst (serve w)) ->
      is_upload e1 = true -> is_upload e2 = true -> e1 = e2) /\
  (forall pre e post,
      fst (serve w) = (pre ++ e :: post)%list -> is_upload e = true ->
      List.filter is_device_request post = []).
Proof.
  split; [| split].
  - intros b p body u H. apply serve_upload_inv in H as (ms & R & -> & _).
    now exists ms.
  - intros [| | | |b1 p1 c1 u1] [| | | |b2 p2 c2 u2] H1 H2; try discriminate.
    intros _ _.
    apply serve_upload_inv in H1 as (ms1 & R1 & -> & -> & -> & ->).
    apply serve_upload_inv in H2 as (ms2 & R2 & -> & -> & -> & ->).
    destruct R1 as (_ & _ & E1 & _), R2 as (_ & _ & E2 & _).
    rewrite E1 in E2. now injection E2 as ->.
  - intros pre e post E Hu.
    assert (Hin : In e (fst (serve w))) by (rewrite E; apply in_or_app; right; now left).
    destruct e as [| | | |b p body u]; try discriminate.
    apply serve_upload_inv in Hin as (ms & R & _).
    rewrite (serve_reaches_upload w ms R) in E. cbn [fst] in E.
    change (FetchManufacturers manufacturersEndpoint
              :: fst (process_manufacturers w 0 (take maxManufacturers ms)
                        initial_categories)
              ++ fst (upload_with_retry w (published_catalog w ms)))%list
      with ((FetchManufacturers manufacturersEndpoint
               :: fst (process_manufacturers w 0 (take maxManufacturers ms)
                         initial_categories))
              ++ fst (upload_with_retry w (published_catalog w ms)))%list in E.
    apply split_after in E as (k & E).
    + pose proof (upload_loop_no_request w (published_catalog w ms)
                    (maxRetries + 1) 0 None) as F.
      fold (upload_with_retry w (published_catalog w ms)) in F.
      rewrite E, List.filter_app in F. apply app_eq_nil in F as [_ F].
      exact F.
    + intros [H | H]; [discriminate |].
      assert (F : In (Upload b p body u)
                    (List.filter is_upload
                       (fst (process_manufacturers w 0 (take maxManufacturers ms)
                               initial_categories))))
        by (apply List.filter_In; now split).
      now rewrite process_manufacturers_no_upload in F.
Qed.

Lemma uploads_carry_final_catalog_witness :
  exists ms,
    reaches_upload failing_world ms /\
    categories (published_catalog failing_world [acme; samsung])
    = built_categories failing_world ms /\
    metadata (published_catalog failing_world [acme; samsung])
    = {| lastUpdated := now failing_world; version := "1.0.0";
         source := "MobileAPI.dev" |}.
Proof.
  assert (R : reaches_upload failing_world [acme; samsung])
    by (repeat split; discriminate).
  apply (proj1 (uploads_carry_final_catalog failing_world)
           "catalogs" "deviceCatalog.json" _ true).
  rewrite (serve_reaches_upload failing_world _ R). cbn [fst].
  right. apply in_or_app. right. now left.
Defined.

(** X11.  An invocation answers success exactly when it gets past its
    configuration and a non-empty manufacturer list and one of the four
    upload attempts succeeds; the time it reports is then the one stamped on
    the catalog. *)
Theorem serve_success_iff (w : World) (t : string) :
  snd (serve w) = Success t <->
  t = now w /\ (exists ms, reaches_upload w ms) /\ some_attempt_succeeds w.
Proof.
  split.
  - destruct (reaches_upload_cases w)
      as [[ms R] | [_ (message & [[E _] | (E & _)])]];
      [| rewrite E; discriminate | rewrite E; discriminate].
    rewrite (serve_reaches_upload w ms R). cbn [snd].
    destruct (snd (upload_with_retry w (published_catalog w ms))) as [e|] eqn:Eu;
      [discriminate |].
    intros [= <-]. split; [reflexivity |]. split; [now exists ms |].
    now apply (upload_result_none w (published_catalog w ms)).
  - intros (-> & (ms & R) & Hs).
    rewrite (serve_reaches_upload w ms R). cbn [snd].
    apply (upload_result_none w (published_catalog w ms)) in Hs. now rewrite Hs.
Qed.

Lemma serve_success_iff_witness :
  (exists ms, reaches_upload sample_world ms) /\
  some_attempt_succeeds sample_world /\
  snd (serve sample_world) = Success (now sample_world).
Proof.
  assert (R : exists ms, reaches_upload sample_world ms)
    by (exists [acme; samsung]; repeat split; discriminate).
  assert (Hu : some_attempt_succeeds sample_world)
    by (exists 0; split; [lia | reflexivity]).
  split; [exact R |]. split; [exact Hu |].
  exact (proj2 (serve_success_iff sample_world _) (conj eq_refl (conj R Hu))).
Defined.

(** ** The two readers *)

(** X12.  The API-route reader answers 200 or 500, always as JSON; 200
    exactly when the storage or the local snapshot gives a catalog that
    parses, and then it names its source.  Stored data that does not parse,
    or a download without data, is handled like a failed download; and when
    the storage gives a catalog the local file changes nothing. *)
Theorem GET_outcomes (Json : Type) (parse : string -> option Json)
    (stringify : Json -> string) (d : Download) (f : ReadFile) :
  let r := GET Json parse stringify d f in
  (response_status r = 200%Z \/ response_status r = 500%Z) /\
  header r "Content-Type" = Some "application/json" /\
  (response_status r = 200%Z <->
   is_Some (from_storage Json parse d) \/ is_Some (from_local_file Json parse f)) /\
  (response_status r = 200%Z <-> is_Some (header r "X-Catalog-Source")) /\
  (forall text,
      d = DownloadResult (Some text) None \/ d = DownloadResult None None ->
      from_storage Json parse d = None ->
      r = GET Json parse stringify (DownloadThrows "") f) /\
  (forall f', is_Some (from_storage Json parse d) ->
              r = GET Json parse stringify d f').
Proof.
  assert (Hs : forall (A : Type) (x : A), is_Some (Some x)) by eauto.
  assert (Hn : forall (A : Type), ~ is_Some (@None A)) by (intros A [x H]; discriminate H).
  unfold GET.
  destruct (from_storage Json parse d) as [c|] eqn:Ed;
    [| destruct (from_local_file Json parse f) as [c|] eqn:Ef]; cbn zeta.
  - split; [now left |]. split; [reflexivity |].
    split; [split; [intros _; left; apply Hs | reflexivity] |].
    split; [split; [intros _; apply Hs | reflexivity] |].
    split; [intros text _ H; discriminate H | reflexivity].
  - split; [now left |]. split; [reflexivity |].
    split; [split; [intros _; right; apply Hs | reflexivity] |].
    split; [split; [intros _; apply Hs | reflexivity] |].
    split; [intros text _ _; reflexivity |].
    intros f' H. now destruct (Hn _ H).
  - split; [now right |]. split; [reflexivity |].
    split; [split; [discriminate | intros [H | H]; now destruct (Hn _ H)] |].
    split; [split; [discriminate | intros H; now destruct (Hn _ H)] |].
    split; [intros text _ _; reflexivity |].
    intros f' H. now destruct (Hn _ H).
Qed.

Lemma GET_outcomes_witness :
  from_storage string parse_nonempty (DownloadResult (Some "") None) = None /\
  GET string parse_nonempty id (DownloadResult (Some "") None) (ReadContent "{}")
  = GET string parse_nonempty id (DownloadThrows "") (ReadContent "{}").
Proof.
  split; [reflexivity |].
  exact (proj1 (proj2 (proj2 (proj2 (proj2
           (GET_outcomes string parse_nonempty id (DownloadResult (Some "") None)
              (ReadContent "{}"))))))
           "" (or_introl eq_refl) eq_refl).
Defined.

(** X13.  The private-bucket reader answers a preflight ([OPTIONS]) with
    "ok" without looking at the storage, and treats every other method
    alike.  Every answer allows any origin.  It answers 200, with a cache of
    one hour, exactly when the download gives data without error that
    parses; otherwise 500 with one of two fixed error texts, whatever the
    storage error says. *)
Theorem getDeviceCatalog_outcomes (Json : Type) (parse : string -> option Json)
    (stringify : Json -> string) (method : string) (d : Download) :
  let r := getDeviceCatalog Json parse stringify method d in
  edge_header r "Access-Control-Allow-Origin" = Some "*" /\
  (method = "OPTIONS" ->
   r = preflight_response /\ forall d', getDeviceCatalog Json parse stringify method d' = r) /\
  (method <> "OPTIONS" ->
   r = getDeviceCatalog Json parse stringify "GET" d /\
   edge_header r "Content-Type" = Some "application/json" /\
   (edge_status r = 200%Z <-> is_Some (from_storage Json parse d)) /\
   (forall catalog,
       from_storage Json parse d = Some catalog ->
       edge_body r = EdgeCatalog (stringify catalog) /\
       edge_header r "Cache-Control" ≫= max_age = Some 3600%Z) /\
   (from_storage Json parse d = None ->
    edge_status r = 500%Z /\
    (edge_body r = EdgeError "Failed to fetch device catalog"
     \/ edge_body r = EdgeError "Internal server error"))).
Proof.
  assert (Hs : forall (A : Type) (x : A), is_Some (Some x)) by eauto.
  assert (Hn : forall (A : Type), ~ is_Some (@None A)) by (intros A [x H]; discriminate H).
  assert (Herr : forall error,
    edge_header (edge_error_response error) "Content-Type" = Some "application/json" /\
    (edge_status (edge_error_response error) = 200%Z <-> is_Some (@None Json)) /\
    (forall catalog,
        @None Json = Some catalog ->
        edge_body (edge_error_response error) = EdgeCatalog (stringify catalog) /\
        edge_header (edge_error_response error) "Cache-Control" ≫= max_age
        = Some 3600%Z) /\
    edge_status (edge_error_response error) = 500%Z).
  { intros error. split; [reflexivity |].
    split; [split; [discriminate | intros H; now destruct (Hn _ H)] |].
    split; [discriminate | reflexivity]. }
  unfold getDeviceCatalog. destruct (String.eqb_spec method "OPTIONS") as [-> | N].
  - cbn zeta. split; [reflexivity |]. split; [| congruence].
    intros _. split; reflexivity.
  - cbn zeta. split.
    + destruct d as [m | [text|] [e|]]; try reflexivity.
      now destruct (parse text).
    + split; [congruence |]. intros _.
      change (String.eqb "GET" "OPTIONS") with false. cbv iota.
      split; [reflexivity |].
      destruct d as [m | [text|] [e|]]; cbn [from_storage].
      * destruct (Herr "Internal server error") as (H1 & H2 & H3 & H4).
        split; [exact H1 |]. split; [exact H2 |]. split; [exact H3 |].
        intros _. split; [exact H4 | first [left; reflexivity | right; reflexivity]].
      * destruct (Herr "Failed to fetch device catalog") as (H1 & H2 & H3 & H4).
        split; [exact H1 |]. split; [exact H2 |]. split; [exact H3 |].
        intros _. split; [exact H4 | first [left; reflexivity | right; reflexivity]].
      * destruct (parse text) as [c|].
        -- split; [reflexivity |].
           split; [split; [intros _; apply Hs | reflexivity] |].
           split; [intros c' [= <-]; split; reflexivity | discriminate].
        -- destruct (Herr "Internal server error") as (H1 & H2 & H3 & H4).
           split; [exact H1 |]. split; [exact H2 |]. split; [exact H3 |].
           intros _. split; [exact H4 | first [left; reflexivity | right; reflexivity]].
      * destruct (Herr "Failed to fetch device catalog") as (H1 & H2 & H3 & H4).
        split; [exact H1 |]. split; [exact H2 |]. split; [exact H3 |].
        intros _. split; [exact H4 | first [left; reflexivity | right; reflexivity]].
      * destruct (Herr "Internal server error") as (H1 & H2 & H3 & H4).
        split; [exact H1 |]. split; [exact H2 |]. split; [exact H3 |].
        intros _. split; [exact H4 | first [left; reflexivity | right; reflexivity]].
Qed.

Lemma getDeviceCatalog_outcomes_witness :
  "POST" <> "OPTIONS" /\
  from_storage string parse_nonempty
    (DownloadResult (Some "{}") (Some (storage_error "Object not found"))) = None /\
  edge_status (getDeviceCatalog string parse_nonempty id "POST"
                 (DownloadResult (Some "{}") (Some (storage_error "Object not found"))))
  = 500%Z.
Proof.
  assert (N : "POST" <> "OPTIONS") by discriminate.
  split; [exact N |]. split; [reflexivity |].
  exact (proj1 (proj2 (proj2 (proj2 (proj2
           (proj2 (proj2 (getDeviceCatalog_outcomes string parse_nonempty id "POST"
                            (DownloadResult (Some "{}")
                               (Some (storage_error "Object not found"))))) N))))
           eq_refl)).
Defined.

(** X14.  The two readers agree on a stored catalog: the private-bucket
    reader answers 200 exactly when the API route serves from the storage,
    and then both send the same JSON with the same cache lifetime.  When the
    storage gives no catalog the private-bucket reader answers 500 even
    where the API route still serves its local snapshot. *)
Theorem readers_agree_on_storage (Json : Type) (parse : string -> option Json)
    (stringify : Json -> string) (d : Download) (f : ReadFile) :
  let api := GET Json parse stringify d f in
  let edge := getDeviceCatalog Json parse stringify "GET" d in
  (edge_status edge = 200%Z <->
   header api "X-Catalog-Source" = Some "supabase-storage") /\
  (edge_status edge = 200%Z ->
   exists json,
     response_body api = CatalogBody json /\ edge_body edge = EdgeCatalog json /\
     header api "Cache-Control" = edge_header edge "Cache-Control") /\
  (header api "X-Catalog-Source" = Some "local-fallback" ->
   response_status api = 200%Z /\ edge_status edge = 500%Z).
Proof.
  unfold GET, getDeviceCatalog. change (String.eqb "GET" "OPTIONS") with false.
  cbv iota zeta.
  destruct (from_storage Json parse d) as [c|] eqn:Ed.
  - destruct d as [m | [text|] [e|]]; cbn [from_storage] in Ed; try discriminate Ed.
    rewrite Ed. split; [split; reflexivity |].
    split; [| discriminate]. intros _. eexists. repeat split.
  - assert (E : edge_status
                  match d with
                  | DownloadThrows _ => edge_error_response "Internal server error"
                  | DownloadResult _ (Some _) =>
                      edge_error_response "Failed to fetch device catalog"
                  | DownloadResult None None =>
                      edge_error_response "Internal server error"
                  | DownloadResult (Some text) None =>
                      match parse text with
                      | Some catalog => edge_catalog_response Json stringify catalog
                      | None => edge_error_response "Internal server error"
                      end
                  end = 500%Z).
    { destruct d as [m | [text|] [e|]]; cbn [from_storage] in Ed; try reflexivity.
      now rewrite Ed. }
    rewrite E.
    destruct (from_local_file Json parse f);
      (split; [split; discriminate |]); (split; [discriminate |]);
      [intros _; split; reflexivity | discriminate].
Qed.

Lemma readers_agree_on_storage_witness :
  header (GET string parse_nonempty id (DownloadThrows "timeout") (ReadContent "{}"))
    "X-Catalog-Source" = Some "local-fallback" /\
  edge_status (getDeviceCatalog string parse_nonempty id "GET" (DownloadThrows "timeout"))
  = 500%Z.
Proof.
  split; [reflexivity |].
  exact (proj2 (proj2 (proj2 (readers_agree_on_storage string parse_nonempty id
                                (DownloadThrows "timeout") (ReadContent "{}")))
                  eq_refl)).
Defined.

(** ** The request URL of the proxy client *)

Section TrailingSlashes.

Lemma slashes_only_app (a b : string) :
  slashes_only (a +:+ b) = slashes_only a && slashes_only b.
Proof.
  induction a as [|c a IH]; simpl; [reflexivity |]. rewrite IH. apply andb_assoc.
Qed.

Lemma slashes_eol_only (s : string) :
  slashes_eol s = true <-> s <> "" /\ slashes_only s = true.
Proof.
  induction s as [|c s IH]; simpl.
  - split; [discriminate | intros [H _]; now destruct H].
  - destruct (Ascii.eqb c "/"); simpl; [| split; [discriminate | intros [_ H]; exact H]].
    destruct s as [|d s].
    + simpl. split; [intros _; split; [discriminate | reflexivity] | reflexivity].
    + rewrite orb_false_r, IH. split.
      * intros [_ H]. split; [discriminate | exact H].
      * intros [_ H]. split; [discriminate | exact H].
Qed.

Lemma slashes_only_last (a : string) :
  a <> "" -> slashes_only a = true -> exists r, a = r +:+ "/".
Proof.
  induction a as [|c a IH]; [intros H; now destruct H |].
  intros _. simpl. rewrite andb_true_iff. intros [Hc Ha].
  apply Ascii.eqb_eq in Hc as ->. destruct a as [|d a]; [now exists "" |].
  destruct (IH ltac:(discriminate) Ha) as (r & E). exists (String "/" r).
  simpl. now rewrite <- E.
Qed.

Lemma strip_trailing_slashes_split (s : string) :
  exists t, s = strip_trailing_slashes s +:+ t /\ slashes_only t = true.
Proof.
  induction s as [|c s (t & E & Ht)]; [now exists "" |].
  cbn [strip_trailing_slashes]. destruct (slashes_eol (String c s)) eqn:Es.
  - exists (String c s). split; [reflexivity | now apply slashes_eol_only in Es].
  - exists t. simpl. now rewrite <- E.
Qed.

Lemma strip_trailing_slashes_unique (a t : string) :
  slashes_only t = true -> (forall r, a <> r +:+ "/") ->
  strip_trailing_slashes (a +:+ t) = a.
Proof.
  intros Ht. induction a as [|c a IH]; intros Ha.
  - simpl. destruct t as [|d t]; [reflexivity |].
    assert (E : slashes_eol (String d t) = true)
      by (apply slashes_eol_only; split; [discriminate | exact Ht]).
    cbn [strip_trailing_slashes]. now rewrite E.
  - change (String c a +:+ t) with (String c (a +:+ t)).
    cbn [strip_trailing_slashes].
    destruct (slashes_eol (String c (a +:+ t))) eqn:Es.
    + apply slashes_eol_only in Es as [_ Es].
      change (String c (a +:+ t)) with (String c a +:+ t) in Es.
      rewrite slashes_only_app, andb_true_iff in Es. destruct Es as [Es _].
      destruct (slashes_only_last (String c a) ltac:(discriminate) Es) as (r & E).
      now destruct (Ha r).
    + f_equal. apply IH. intros r E. apply (Ha (String c r)). simpl. now rewrite E.
Qed.

Lemma strip_trailing_slashes_last (s r : string) :
  strip_trailing_slashes s <> r +:+ "/".
Proof.
  revert r; induction s as [|c s IH]; intros r.
  - simpl. destruct r; discriminate.
  - cbn [strip_trailing_slashes]. destruct (slashes_eol (String c s)) eqn:Es.
    + destruct r; discriminate.
    + destruct r as [|d r]; simpl.
      * intros [= -> E]. destruct (strip_trailing_slashes_split s) as (t & Et & Ht).
        rewrite E in Et. simpl in Et.
        assert (H : slashes_eol (String "/" s) = true).
        { apply slashes_eol_only. split; [discriminate |]. simpl. now rewrite Et. }
        congruence.
      * intros [= -> E]. now apply (IH r).
Qed.

End TrailingSlashes.

(** X15.  [makeApiRequest] calls the relay at the base URL without its
    trailing slashes followed by the relay path: what it takes off the base
    is slashes only, what is left does not end with a slash, and a base with
    more slashes at its end gives the same URL.  The call is the same
    whatever the transport answers. *)
Theorem requestUrl_trailing_slashes (base : string) :
  (exists t, base = strip_trailing_slashes base +:+ t /\ slashes_only t = true) /\
  (forall r, strip_trailing_slashes base <> r +:+ "/") /\
  (forall t, slashes_only t = true -> requestUrl (base +:+ t) = requestUrl base) /\
  (forall transport endpoint secret,
      fst (makeApiRequest transport endpoint base secret)
      = {| call_url := strip_trailing_slashes base +:+ relayPath;
           call_secret := secret; call_endpoint := endpoint |}).
Proof.
  split; [apply strip_trailing_slashes_split |].
  split; [intros r; apply strip_trailing_slashes_last |].
  split; [| reflexivity].
  intros t Ht. unfold requestUrl. f_equal.
  destruct (strip_trailing_slashes_split base) as (t0 & E & Ht0).
  rewrite E at 1. rewrite str_app_assoc.
  apply strip_trailing_slashes_unique.
  - now rewrite slashes_only_app, Ht0, Ht.
  - intros r. apply strip_trailing_slashes_last.
Qed.

Lemma requestUrl_trailing_slashes_witness :
  slashes_only "//" = true /\
  requestUrl ("https://shop.example" +:+ "//")
  = "https://shop.example/api/internal/fetch-catalog-data".
Proof.
  split; [reflexivity |].
  exact (proj1 (proj2 (proj2 (requestUrl_trailing_slashes "https://shop.example")))
           "//" eq_refl).
Defined.

(** ** The internal relay *)

Section Relay.

Lemma POST_authorised (env : RelayEnv) (req : RelayRequest) (endpoint key : string) :
  authorised env req endpoint key ->
  POST env req
  = ([UpstreamGet (targetUrl endpoint) ("Token " +:+ key)],
     match upstream env (targetUrl endpoint) with
     | UpstreamThrows message => relay_error 500 "Internal server error" (Some message)
     | UpstreamResponse status contentType text =>
         if response_init_ok status then
           {| relay_status := status;
              relay_body := Relayed text;
              relay_content_type := default "application/json" contentType |}
         else relay_error 500 "Internal server error"
                (Some (response_init_error env status))
     end).
Proof.
  intros ((secret & [Es Ns] & Ep) & Eb & Ne & [Ek Nk]). unfold POST.
  rewrite Es, Ep, Eb, Ek. simpl. rewrite String.eqb_refl.
  destruct secret; [now destruct Ns |]. destruct endpoint; [now destruct Ne |].
  destruct key; [now destruct Nk |]. reflexivity.
Qed.

Lemma POST_refused (env : RelayEnv) (req : RelayRequest) :
  (forall endpoint key, ~ authorised env req endpoint key) ->
  fst (POST env req) = [] /\
  exists status error,
    snd (POST env req) = relay_error status error None /\
    (status = 500%Z \/ status = 403%Z \/ status = 400%Z).
Proof.
  intros Hn. unfold POST.
  destruct (truthy (relay_INTERNAL_API_SECRET env)) eqn:Hs; cbn [negb];
    [| split; [reflexivity | eexists _, _; split; [reflexivity | tauto]]].
  destruct (truthy (provided_secret req)) eqn:Hp; cbn [negb orb];
    [| split; [reflexivity | eexists _, _; split; [reflexivity | tauto]]].
  destruct (same_secret (provided_secret req) (relay_INTERNAL_API_SECRET env)) eqn:Hq;
    cbn [negb]; [| split; [reflexivity | eexists _, _; split; [reflexivity | tauto]]].
  destruct (accepted_endpoint (request_body req)) as [e|] eqn:Ha;
    [| split; [reflexivity | eexists _, _; split; [reflexivity | tauto]]].
  destruct (relay_MOBILEAPI_KEY env) as [k|] eqn:Hk;
    [| split; [reflexivity | eexists _, _; split; [reflexivity | tauto]]].
  destruct (Js.is_empty k) eqn:Hke;
    [split; [reflexivity | eexists _, _; split; [reflexivity | tauto]] |].
  exfalso. apply (Hn e k).
  apply truthy_given in Hs as (secret & Gs).
  unfold same_secret in Hq.
  destruct (provided_secret req) as [p|] eqn:Ep; [| discriminate].
  destruct Gs as [Es Ns]. rewrite Es in Hq. apply String.eqb_eq in Hq as ->.
  split; [exists secret; now repeat split |].
  unfold accepted_endpoint in Ha.
  destruct (request_body req) as [| |[x|]] eqn:Eb; try discriminate.
  destruct (Js.is_empty x) eqn:Hx; [discriminate |]. injection Ha as ->.
  split; [reflexivity |].
  split; [intros ->; discriminate |].
  split; [exact Hk | intros ->; discriminate].
Qed.

End Relay.

(** X16.  The relay asks the provider at most once, and only for a request
    whose secret is the configured one, whose body carries a non-empty
    endpoint string, and with the provider key configured; the request then
    goes to the target of that endpoint with the key as its token.  Every
    other request is refused with 500, 403 or 400 and a fixed error text,
    without any upstream request. *)
Theorem relay_gate (env : RelayEnv) (req : RelayRequest) :
  (forall endpoint key,
      authorised env req endpoint key ->
      fst (POST env req) = [UpstreamGet (targetUrl endpoint) ("Token " +:+ key)]) /\
  (forall url authorization,
      In (UpstreamGet url authorization) (fst (POST env req)) ->
      exists endpoint key,
        authorised env req endpoint key /\
        url = targetUrl endpoint /\ authorization = "Token " +:+ key) /\
  ((forall endpoint key, ~ authorised env req endpoint key) ->
   fst (POST env req) = [] /\
   exists status error,
     snd (POST env req) = relay_error status error None /\
     (status = 500%Z \/ status = 403%Z \/ status = 400%Z)) /\
  length (fst (POST env req)) <= 1.
Proof.
  assert (Hcases : (exists endpoint key, authorised env req endpoint key)
                   \/ forall endpoint key, ~ authorised env req endpoint key).
  { destruct (truthy (relay_INTERNAL_API_SECRET env)) eqn:Hs.
    2:{ right. intros e k ((s & G & _) & _).
        assert (truthy (relay_INTERNAL_API_SECRET env) = true)
          by (apply truthy_given; eauto). congruence. }
    apply truthy_given in Hs as (secret & Gs).
    destruct (provided_secret req) as [p|] eqn:Ep.
    2:{ right. intros e k ((s & _ & H) & _). congruence. }
    destruct (String.eqb_spec p secret) as [-> | Np].
    2:{ right. intros e k ((s & [G _] & H) & _). destruct Gs as [Gs _].
        congruence. }
    destruct (request_body req) as [| |[e|]] eqn:Eb;
      try (right; intros e' k (_ & H & _); congruence).
    destruct e as [|c e].
    { right. intros e' k (_ & H & N & _). rewrite Eb in H. injection H as <-.
      now destruct N. }
    destruct (truthy (relay_MOBILEAPI_KEY env)) eqn:Hk.
    2:{ right. intros e' k (_ & _ & _ & G).
        assert (truthy (relay_MOBILEAPI_KEY env) = true)
          by (apply truthy_given; eauto). congruence. }
    apply truthy_given in Hk as (key & Gk).
    left. exists (String c e), key. split; [now exists secret |].
    split; [exact Eb |]. split; [discriminate | exact Gk]. }
  split; [| split; [| split]].
  - intros endpoint key A. now rewrite (POST_authorised env req endpoint key A).
  - intros url authorization Hin.
    destruct Hcases as [(e & k & A) | Hn].
    + rewrite (POST_authorised env req e k A) in Hin. cbn [fst] in Hin.
      destruct Hin as [[= <- <-] | []]. now exists e, k.
    + destruct (POST_refused env req Hn) as [E _]. rewrite E in Hin. destruct Hin.
  - apply POST_refused.
  - destruct Hcases as [(e & k & A) | Hn].
    + rewrite (POST_authorised env req e k A). simpl. lia.
    + destruct (POST_refused env req Hn) as [E _]. rewrite E. simpl. lia.
Qed.

(** ** Sample relay *)

Lemma relay_gate_witness :
  let env := {| relay_INTERNAL_API_SECRET := Some "s3cret";
                relay_MOBILEAPI_KEY := Some "key-1";
                upstream := fun _ => UpstreamResponse 200 None "[]";
                response_init_error := fun _ => "init" |} in
  let req := {| provided_secret := Some "s3cret";
                request_body := BodyValue (Some "/manufacturers/?limit=200") |} in
  authorised env req "/manufacturers/?limit=200" "key-1" /\
  fst (POST env req)
  = [UpstreamGet "https://api.mobileapi.dev/manufacturers/?limit=200" "Token key-1"].
Proof.
  intros env req.
  assert (A : authorised env req "/manufacturers/?limit=200" "key-1").
  { split; [exists "s3cret"; repeat split; discriminate |].
    repeat split; discriminate. }
  split; [exact A |].
  exact (proj1 (relay_gate env req) _ _ A).
Defined.

(** X17.  The target of an endpoint that starts with [http://] or [https://]
    is the endpoint itself; the target of any other endpoint is the provider
    base, one slash, and the endpoint without its leading slash if it has
    one.  So the targets of the publisher's two endpoints are the base
    followed by the endpoint. *)
Theorem targetUrl_cases (rawEndpoint : string) :
  (Js.startsWith rawEndpoint "http://" = true
   \/ Js.startsWith rawEndpoint "https://" = true ->
   targetUrl rawEndpoint = rawEndpoint) /\
  (Js.startsWith rawEndpoint "http://" = false ->
   Js.startsWith rawEndpoint "https://" = false ->
   exists path,
     targetUrl rawEndpoint = "https://api.mobileapi.dev/" +:+ path /\
     (rawEndpoint = "/" +:+ path
      \/ (rawEndpoint = path /\ Js.startsWith path "/" = false))) /\
  targetUrl manufacturersEndpoint = baseUrl +:+ manufacturersEndpoint /\
  (forall manufacturerName,
      targetUrl (devicesEndpoint manufacturerName)
      = baseUrl +:+ devicesEndpoint manufacturerName).
Proof.
  split; [| split; [| split]].
  - unfold targetUrl. intros [-> | ->]; [reflexivity |]. now rewrite orb_true_r.
  - intros H1 H2. unfold targetUrl. rewrite H1, H2. cbn [orb].
    destruct (Js.startsWith rawEndpoint "/") eqn:Hs.
    + apply startsWith_spec in Hs as (path & ->). exists path. split; [reflexivity |].
      now left.
    + exists rawEndpoint. split; [reflexivity |]. right. now split.
  - reflexivity.
  - intros n. reflexivity.
Qed.

Lemma targetUrl_cases_witness :
  Js.startsWith "devices/42" "http://" = false /\
  Js.startsWith "devices/42" "https://" = false /\
  exists path,
    targetUrl "devices/42" = "https://api.mobileapi.dev/" +:+ path /\
    ("devices/42" = "/" +:+ path
     \/ ("devices/42" = path /\ Js.startsWith path "/" = false)).
Proof.
  split; [reflexivity |]. split; [reflexivity |].
  exact (proj1 (proj2 (targetUrl_cases "devices/42")) eq_refl eq_refl).
Defined.

(** X18.  For a request it forwards, the relay passes on the provider's
    status and text as they are, with the provider's content type or
    [application/json] when there is none, as long as [Response] accepts the
    status; for a status it refuses (outside 200..599, or 204, 205, 304) and
    for a failed upstream request it answers 500 "Internal server error". *)
Theorem relay_passes_upstream (env : RelayEnv) (req : RelayRequest)
    (endpoint key : string) :
  authorised env req endpoint key ->
  (forall status contentType text,
      upstream env (targetUrl endpoint) = UpstreamResponse status contentType text ->
      response_init_ok status = true ->
      snd (POST env req)
      = {| relay_status := status; relay_body := Relayed text;
           relay_content_type := default "application/json" contentType |}) /\
  (forall status contentType text,
      upstream env (targetUrl endpoint) = UpstreamResponse status contentType text ->
      response_init_ok status = false ->
      snd (POST env req)
      = relay_error 500 "Internal server error" (Some (response_init_error env status))) /\
  (forall message,
      upstream env (targetUrl endpoint) = UpstreamThrows message ->
      snd (POST env req) = relay_error 500 "Internal server error" (Some message)).
Proof.
  intros A. rewrite (POST_authorised env req endpoint key A). cbn [snd].
  split; [| split].
  - intros status contentType text -> H. now rewrite H.
  - intros status contentType text -> H. now rewrite H.
  - now intros message ->.
Qed.

Lemma relay_passes_upstream_witness :
  let env := {| relay_INTERNAL_API_SECRET := Some "s3cret";
                relay_MOBILEAPI_KEY := Some "key-1";
                upstream := fun _ => UpstreamResponse 204 None "";
                response_init_error := fun _ => "Invalid response status code 204" |} in
  let req := {| provided_secret := Some "s3cret";
                request_body := BodyValue (Some "/manufacturers/?limit=200") |} in
  authorised env req "/manufacturers/?limit=200" "key-1" /\
  response_init_ok 204 = false /\
  relay_status (snd (POST env req)) = 500%Z.
Proof.
  intros env req.
  assert (A : authorised env req "/manufacturers/?limit=200" "key-1").
  { split; [exists "s3cret"; repeat split; discriminate |].
    repeat split; discriminate. }
  split; [exact A |]. split; [reflexivity |].
  rewrite (proj1 (proj2 (relay_passes_upstream env req _ _ A)) 204%Z None ""
             eq_refl eq_refl).
  reflexivity.
Defined.

(** ** The device endpoint *)

Section Encoding.

Lemma all_units_app (p : ascii -> bool) (a b : string) :
  all_units p (a +:+ b) = all_units p a && all_units p b.
Proof.
  induction a as [|c a IH]; simpl; [reflexivity |]. rewrite IH. apply andb_assoc.
Qed.

Lemma all_units_occurs (p : ascii -> bool) (s : string) (c : ascii) :
  all_units p s = true -> occurs_in (String c "") s -> p c = true.
Proof.
  intros H (a & b & ->). rewrite all_units_app, andb_true_iff in H.
  destruct H as [_ H]. simpl in H. now apply andb_true_iff in H as [H _].
Qed.

Lemma encode_unit_safe (c : ascii) : all_units uri_safe (encode_unit c) = true.
Proof. destruct c as [[] [] [] [] [] [] [] []]; reflexivity. Qed.

Lemma encodeURIComponent_safe (s : string) :
  all_units uri_safe (encodeURIComponent s) = true.
Proof.
  induction s as [|c s IH]; [reflexivity |].
  simpl. now rewrite all_units_app, encode_unit_safe, IH.
Qed.

Lemma decode_encode_unit (c : ascii) (rest : string) :
  decode_unit (encode_unit c +:+ rest) = Some (c, rest).
Proof. destruct c as [[] [] [] [] [] [] [] []]; reflexivity. Qed.

Lemma encodeURIComponent_inj (s1 s2 : string) :
  encodeURIComponent s1 = encodeURIComponent s2 -> s1 = s2.
Proof.
  revert s2; induction s1 as [|c s1 IH]; intros [|d s2] E; simpl in E.
  - reflexivity.
  - apply (f_equal decode_unit) in E. rewrite decode_encode_unit in E. discriminate E.
  - apply (f_equal decode_unit) in E. rewrite decode_encode_unit in E. discriminate E.
  - apply (f_equal decode_unit) in E. rewrite !decode_encode_unit in E.
    injection E as -> E. f_equal. now apply IH.
Qed.

Lemma str_app_inv_tail (a b t : string) : a +:+ t = b +:+ t -> a = b.
Proof.
  intros E. apply (app_length_split a t b t E).
  apply (f_equal String.length) in E. rewrite !str_app_length in E. lia.
Qed.

End Encoding.

(** X19.  [encodeURIComponent] writes letters, digits, [- _ . ! ~ * ' ( )]
    and [%] only, so a manufacturer name brings no [&], [=], [?], [#], [/] or
    space into the device endpoint; and it loses nothing: two names with the
    same encoding, or with the same device endpoint, are the same name. *)
Theorem devicesEndpoint_encoding :
  (forall s c,
      uri_unreserved c = false -> c <> "%"%char ->
      ~ occurs_in (String c "") (encodeURIComponent s)) /\
  (forall s1 s2, encodeURIComponent s1 = encodeURIComponent s2 -> s1 = s2) /\
  (forall n1 n2, devicesEndpoint n1 = devicesEndpoint n2 -> n1 = n2).
Proof.
  split; [| split].
  - intros s c Hu Hp H.
    pose proof (all_units_occurs uri_safe _ c (encodeURIComponent_safe s) H) as Hs.
    unfold uri_safe in Hs. rewrite Hu in Hs. simpl in Hs.
    apply Ascii.eqb_eq in Hs. contradiction.
  - apply encodeURIComponent_inj.
  - intros n1 n2 E. unfold devicesEndpoint in E.
    apply String.app_inj in E. apply str_app_inv_tail in E.
    now apply encodeURIComponent_inj.
Qed.

Lemma devicesEndpoint_encoding_witness :
  uri_unreserved "&" = false /\ "&"%char <> "%"%char /\
  ~ occurs_in "&" (encodeURIComponent "AT&T / O2") /\
  devicesEndpoint "AT&T / O2"
  = "/devices/by-manufacturer/?manufacturer=AT%26T%20%2F%20O2&limit=100".
Proof.
  assert (N : "&"%char <> "%"%char) by discriminate.
  split; [reflexivity |]. split; [exact N |].
  split; [| reflexivity].
  exact (proj1 devicesEndpoint_encoding "AT&T / O2" "&"%char eq_refl N).
Defined.

(** ** The publisher behind the relay *)

Lemma POST_wrong_secret (env : RelayEnv) (req : RelayRequest) (s p : string) :
  given (relay_INTERNAL_API_SECRET env) s ->
  provided_secret req = Some p -> p <> s ->
  POST env req = ([], relay_error 403 "Forbidden" None).
Proof.
  intros [Es Ns] Ep N. unfold POST. rewrite Es, Ep. simpl.
  destruct s; [now destruct Ns |]. simpl.
  destruct (String.eqb_spec p (String a s)) as [-> | _]; [now destruct N |].
  now rewrite orb_true_r.
Qed.

(** X20.  Behind the relay, [fetch] sends the secret of [makeApiRequest]
    without its leading and trailing HTTP white space, and refuses a value
    with a NUL, a line feed or a carriage return inside: the call then
    throws before any request.  When the value sent holds no control
    character and is not the relay's secret, the call reaches no provider and
    throws with the relay's 403 in its message.  When it is the relay's
    secret, a provider answer with a status from 200 to 299 that [Response]
    accepts comes back as the response, text unchanged; any other status the
    relay passes on makes the call throw, with that status and the
    provider's text in the message. *)
Theorem publisher_through_relay (env : RelayEnv) (statusText : Z -> string)
    (render : RelayBody -> string) (headerError endpoint base secret : string) :
  let transport := relay_transport env statusText render headerError in
  let call := fst (makeApiRequest transport endpoint base secret) in
  let result := snd (makeApiRequest transport endpoint base secret) in
  (header_value secret = None -> result = ApiThrows headerError) /\
  (forall sent s,
      header_value secret = Some sent -> header_text sent = true ->
      given (relay_INTERNAL_API_SECRET env) s -> sent <> s ->
      fst (POST env (relay_request_of sent call)) = [] /\
      result = ApiThrows ("Internal API request failed (HTTP 403: "
                          +:+ statusText 403%Z +:+ "). "
                          +:+ render (RelayError "Forbidden" None))) /\
  (forall sent key status contentType text,
      header_value secret = Some sent -> header_text sent = true ->
      authorised env (relay_request_of sent call) endpoint key ->
      upstream env (targetUrl endpoint) = UpstreamResponse status contentType text ->
      response_init_ok status = true ->
      ((200 <= status <= 299)%Z ->
       exists r, result = ApiReturns r /\ answer_status r = status
                 /\ answer_text r = Some (render (Relayed text))) /\
      (~ (200 <= status <= 299)%Z ->
       result = ApiThrows ("Internal API request failed (HTTP "
                           +:+ decimal_of status +:+ ": " +:+ statusText status
                           +:+ "). " +:+ render (Relayed text)))).
Proof.
  cbv zeta. unfold makeApiRequest. cbn [fst snd]. unfold relay_transport.
  cbn [call_secret]. split; [| split].
  - now intros ->.
  - intros sent s -> _ G N.
    rewrite (POST_wrong_secret env
               (relay_request_of sent
                  {| call_url := requestUrl base; call_secret := secret;
                     call_endpoint := endpoint |}) s sent G eq_refl N).
    split; reflexivity.
  - intros sent key status contentType text -> _ A Hu Hi.
    rewrite (POST_authorised env
               (relay_request_of sent
                  {| call_url := requestUrl base; call_secret := secret;
                     call_endpoint := endpoint |}) endpoint key A), Hu, Hi.
    cbn [snd relay_status relay_body answer_ok answer_status answer_statusText
           answer_text default].
    split.
    + intros [H1 H2]. apply Z.leb_le in H1, H2. rewrite H1, H2. cbn [andb].
      eexists. now repeat split.
    + intros H.
      destruct ((200 <=? status)%Z && (status <=? 299)%Z) eqn:E; [| reflexivity].
      apply andb_true_iff in E as [H1 H2]. apply Z.leb_le in H1, H2. lia.
Qed.

Lemma publisher_through_relay_witness :
  let env := {| relay_INTERNAL_API_SECRET := Some "s3cret";
                relay_MOBILEAPI_KEY := Some "key-1";
                upstream := fun _ => UpstreamResponse 200 None "[]";
                response_init_error := fun _ => "init" |} in
  header_value " guess " = Some "guess" /\ header_text "guess" = true /\
  given (relay_INTERNAL_API_SECRET env) "s3cret" /\ "guess" <> "s3cret" /\
  snd (makeApiRequest
         (relay_transport env (fun _ => "Forbidden") (fun _ => "{}") "Invalid header")
         manufacturersEndpoint "https://shop.example/" " guess ")
  = ApiThrows "Internal API request failed (HTTP 403: Forbidden). {}".
Proof.
  intros env.
  assert (G : given (relay_INTERNAL_API_SECRET env) "s3cret")
    by (split; [reflexivity | discriminate]).
  assert (N : "guess" <> "s3cret") by discriminate.
  split; [reflexivity |]. split; [reflexivity |].
  split; [exact G |]. split; [exact N |].
  exact (proj2 (proj1 (proj2 (publisher_through_relay env (fun _ => "Forbidden")
                         (fun _ => "{}") "Invalid header" manufacturersEndpoint
                         "https://shop.example/" " guess "))
                  "guess" "s3cret" eq_refl eq_refl G N)).
Defined.

(** The secret with a space after it is the relay's secret once [fetch] has
    sent it: the relay forwards the request. *)
Example padded_secret_is_accepted :
  let env := {| relay_INTERNAL_API_SECRET := Some "s3cret";
                relay_MOBILEAPI_KEY := Some "key-1";
                upstream := fun _ => UpstreamResponse 200 None "[]";
                response_init_error := fun _ => "init" |} in
  header_value "s3cret " = Some "s3cret" /\
  fst (POST env (relay_request_of "s3cret"
                   {| call_url := requestUrl "https://shop.example/";
                      call_secret := "s3cret ";
                      call_endpoint := manufacturersEndpoint |}))
  = [UpstreamGet "https://api.mobileapi.dev/manufacturers/?limit=200" "Token key-1"] /\
  exists r,
    snd (makeApiRequest
           (relay_transport env (fun _ => "OK") (fun _ => "[]") "Invalid header")
           manufacturersEndpoint "https://shop.example/" "s3cret ")
    = ApiReturns r /\ answer_status r = 200%Z.
Proof.
  intros env. split; [reflexivity |]. split; [reflexivity |].
  eexists. split; [vm_compute; reflexivity | reflexivity].
Qed.

(** ** Devices seen again *)

Lemma fold_device_absorbed (cats : gmap string CategoryEntry) (c b m : string)
    (sv : list string) (st : option string) (vs : list string) :
  lookup_variants cats c b m = Some vs ->
  (forall v, v ∈ contributed sv m st -> v ∈ vs) ->
  fold_device cats c b m sv st = cats.
Proof.
  intros E Hin.
  assert (Hv : variants_at cats c b m = vs) by (unfold variants_at; now rewrite E).
  unfold lookup_variants in E.
  destruct (cats !! c) as [ce|] eqn:Ec; [| discriminate]. simpl in E.
  destruct (brands ce !! b) as [be|] eqn:Eb; [| discriminate]. simpl in E.
  destruct (models be !! m) as [[vs']|] eqn:Em; [| discriminate]. simpl in E.
  injection E as ->.
  assert (Hb : brands_of cats c = brands ce) by (unfold brands_of; now rewrite Ec).
  assert (Hm : models_of (brands_of cats c) b = models be)
    by (rewrite Hb; unfold models_of; now rewrite Eb).
  destruct (fold_device_step_cases cats c b m sv st)
    as [(_ & _ & _ & _ & ->) | [(_ & K & _) | [(_ & _ & K & _)
       | (_ & _ & _ & K & _)]]]; [| congruence | congruence | congruence].
  rewrite (ensure_present c _ cats) by (rewrite Ec; eauto).
  rewrite (ensure_present b _ (brands_of cats c)) by (rewrite Hb, Eb; eauto).
  rewrite (ensure_present m _ (models_of (brands_of cats c) b))
    by (rewrite Hm, Em; eauto).
  rewrite Hv, add_variants_merge, (merge_variants_included _ vs Hin).
  rewrite (insert_id (models_of (brands_of cats c) b) m {| variants := vs |})
    by (now rewrite Hm).
  rewrite brand_entry_id by (rewrite Hb, Eb; eauto).
  apply category_entry_id. rewrite Ec. eauto.
Qed.

(** X21.  A device the invocation has folded into the catalog changes
    nothing when it is processed once more at the end: records repeated by
    the provider leave no trace in the catalog. *)
Theorem repeated_device_absorbed (w : World) (ms : list Manufacturer.t)
    (mn : string) (d : Device.t) :
  (mn, d) ∈ device_stream w 0 (take maxManufacturers ms) ->
  process_device mn (built_categories w ms) d = built_categories w ms.
Proof.
  intros Hs.
  destruct (stream_variant_present w ms mn d Hs) as (vs & E & Hin).
  unfold process_device.
  now apply (fold_device_absorbed _ _ _ _ _ _ vs).
Qed.

Lemma repeated_device_absorbed_witness :
  ("Samsung", sample_device "Samsung Galaxy S21 128GB Black" (Some "128GB, 256GB"))
  ∈ device_stream sample_world 0 (take maxManufacturers [acme; samsung]) /\
  process_device "Samsung" (built_categories sample_world [acme; samsung])
    (sample_device "Samsung Galaxy S21 128GB Black" (Some "128GB, 256GB"))
  = built_categories sample_world [acme; samsung].
Proof.
  assert (P : ("Samsung",
               sample_device "Samsung Galaxy S21 128GB Black" (Some "128GB, 256GB"))
              ∈ device_stream sample_world 0 (take maxManufacturers [acme; samsung])).
  { apply list_elem_of_In. vm_compute. left. reflexivity. }
  split; [exact P |].
  exact (repeated_device_absorbed sample_world _ _ _ P).
Defined.

(** ** The counters of the catalog *)

Section Counters.

Lemma count_models_total (ms : gmap string Model) (b : Stats) :
  stat_categories (map_fold count_model b ms) = stat_categories b /\
  stat_totalBrands (map_fold count_model b ms) = stat_totalBrands b /\
  stat_totalModels (map_fold count_model b ms) = stat_totalModels b + size ms.
Proof.
  apply (map_fold_weak_ind (fun r ms =>
    stat_categories r = stat_categories b /\
    stat_totalBrands r = stat_totalBrands b /\
    stat_totalModels r = stat_totalModels b + size ms)).
  - rewrite map_size_empty. repeat split; lia.
  - intros i x m r Hi (H1 & H2 & H3). rewrite (map_size_insert_None i x m Hi).
    simpl. repeat split; auto; lia.
Qed.

Lemma count_brands_total (bs : gmap string Brand) (b : Stats) :
  (forall k v, bs !! k = Some v -> models v <> ∅) ->
  stat_categories (map_fold count_brand b bs) = stat_categories b /\
  stat_totalBrands (map_fold count_brand b bs) = stat_totalBrands b + size bs /\
  stat_totalModels b + size bs <= stat_totalModels (map_fold count_brand b bs).
Proof.
  apply (map_fold_weak_ind (fun r bs =>
    (forall k v, bs !! k = Some v -> models v <> ∅) ->
    stat_categories r = stat_categories b /\
    stat_totalBrands r = stat_totalBrands b + size bs /\
    stat_totalModels b + size bs <= stat_totalModels r)).
  - intros _. rewrite map_size_empty. repeat split; lia.
  - intros i x m r Hi IH H.
    destruct IH as (H1 & H2 & H3).
    { intros k v Hk. apply (H k v). rewrite lookup_insert_ne; [exact Hk |].
      intros ->. congruence. }
    assert (Hx : models x <> ∅) by (apply (H i x), lookup_insert_eq).
    assert (Hs : 1 <= size (models x)).
    { destruct (size (models x)) eqn:E; [| lia].
      apply map_size_empty_inv in E. contradiction. }
    unfold count_brand.
    destruct (count_models_total (models x)
                {| stat_categories := stat_categories r;
                   stat_totalBrands := stat_totalBrands r + 1;
                   stat_totalModels := stat_totalModels r;
                   stat_totalVariants := stat_totalVariants r |}) as (E1 & E2 & E3).
    rewrite E1, E2, E3, (map_size_insert_None i x m Hi). simpl.
    repeat split; lia.
Qed.

Lemma catalog_stats_brands (cats : gmap string CategoryEntry) (b : Stats) :
  brands_have_models cats ->
  stat_totalBrands b <= stat_totalModels b ->
  stat_categories (map_fold count_category b cats) = stat_categories b /\
  stat_totalBrands (map_fold count_category b cats)
  <= stat_totalModels (map_fold count_category b cats).
Proof.
  intros H Hb. revert H.
  apply (map_fold_weak_ind (fun r cats =>
    brands_have_models cats ->
    stat_categories r = stat_categories b /\
    stat_totalBrands r <= stat_totalModels r)).
  - intros _. now split.
  - intros i x m r Hi IH H.
    destruct IH as (H1 & H2).
    { intros c ce k be Hc Hk. apply (H c ce k be); [| exact Hk].
      rewrite lookup_insert_ne; [exact Hc |]. intros ->. congruence. }
    unfold count_category.
    destruct (count_brands_total (brands x) r) as (E1 & E2 & E3).
    { intros k v Hk. apply (H i x k v); [apply lookup_insert_eq | exact Hk]. }
    rewrite E1, E2. split; [exact H1 | lia].
Qed.

Lemma brands_have_models_step (cats : gmap string CategoryEntry) (c b m : string)
    (sv : list string) (st : option string) :
  brands_have_models cats -> inherited m = false ->
  brands_have_models (fold_device cats c b m sv st).
Proof.
  intros H Im c' ce' b' be' Hc Hb.
  assert (K : brands_of (fold_device cats c b m sv st) c' !! b' = Some be')
    by (unfold brands_of; now rewrite Hc).
  assert (Old : forall be, brands_of cats c' !! b' = Some be -> models be <> ∅).
  { intros be. unfold brands_of.
    destruct (cats !! c') as [ce|] eqn:E; [| now rewrite lookup_empty].
    intros Hbe. now apply (H c' ce b' be). }
  clear Hc Hb. revert K.
  destruct (fold_device_step_cases cats c b m sv st)
    as [(_ & _ & _ & _ & ->) | [(_ & _ & _ & ->) | [(_ & _ & _ & _ & ->)
       | (_ & _ & _ & _ & I & _)]]];
    [| apply Old | rewrite brands_of_ensure; apply Old | congruence].
  unfold brands_of at 1. destruct (decide (c = c')) as [<- | Nc].
  - rewrite lookup_insert_eq. cbn [brands].
    destruct (decide (b = b')) as [<- | Nb].
    + rewrite lookup_insert_eq. intros [= <-]. cbn [models].
      apply insert_non_empty.
    + rewrite lookup_insert_ne, lookup_ensure_ne by exact Nb. apply Old.
  - rewrite lookup_insert_ne by exact Nc.
    fold (brands_of (ensure c {| brands := ∅ |} cats) c').
    rewrite brands_of_ensure. apply Old.
Qed.

Lemma built_brands_have_models (w : World) (ms : list Manufacturer.t) :
  models_plain w ms -> brands_have_models (built_categories w ms).
Proof.
  intros Hp. apply (kept_built w ms brands_have_models).
  - intros mn cats d Hd H. unfold process_device.
    apply brands_have_models_step; [exact H | now apply Hp].
  - intros c ce b be Hc Hb. unfold initial_categories in Hc.
    rewrite !lookup_insert in Hc.
    repeat case_decide; simplify_eq; now rewrite lookup_empty in Hb.
Qed.

Lemma built_categories_size (w : World) (ms : list Manufacturer.t) :
  size (built_categories w ms) = 3.
Proof.
  assert (E : dom (built_categories w ms) = dom initial_categories).
  { apply set_eq. intros k. rewrite !elem_of_dom.
    unfold built_categories.
    apply (kept_manufacturers w (fun cats =>
      is_Some (cats !! k) <-> is_Some (initial_categories !! k)) (fun _ _ => True)).
    - intros mn cats d _ H. unfold process_device. fold (device_category d).
      destruct (decide (device_category d = k)) as [<- | N].
      + split; intros _.
        * rewrite (initial_categories_keys _ (device_category_key d)). eauto.
        * apply fold_device_keeps_category, H.
          rewrite (initial_categories_keys _ (device_category_key d)). eauto.
      + now rewrite fold_device_other_category.
    - auto.
    - reflexivity. }
  rewrite <- size_dom, E. reflexivity.
Qed.

End Counters.

(** X22.  The counters of the catalog an invocation builds: it has 3
    categories; and when no device it processes has a model name that is an
    inherited name, no brand is left without a model and the counters report
    at least as many models as brands. *)
Theorem built_catalog_stats (w : World) (ms : list Manufacturer.t) :
  stat_categories (catalog_stats (built_categories w ms)) = 3 /\
  (models_plain w ms ->
   stat_totalBrands (catalog_stats (built_categories w ms))
   <= stat_totalModels (catalog_stats (built_categories w ms)) /\
   brands_have_models (built_categories w ms)).
Proof.
  split.
  - unfold catalog_stats.
    transitivity (size (built_categories w ms)); [| apply built_categories_size].
    generalize (built_categories w ms) at 2. intros cats.
    generalize (size (built_categories w ms)). intros n.
    apply (map_fold_weak_ind (fun r (_ : gmap string CategoryEntry) =>
             stat_categories r = n)); [reflexivity |].
    intros i x mp r _ IH. unfold count_category.
    apply (map_fold_weak_ind (fun r' (_ : gmap string Brand) =>
             stat_categories r' = n)); [exact IH |].
    intros j y mp' r' _ IH'. unfold count_brand.
    now destruct (count_models_total (models y)
                    {| stat_categories := stat_categories r';
                       stat_totalBrands := stat_totalBrands r' + 1;
                       stat_totalModels := stat_totalModels r';
                       stat_totalVariants := stat_totalVariants r' |}) as (-> & _).
  - intros Hp.
    destruct (catalog_stats_brands (built_categories w ms)
                {| stat_categories := size (built_categories w ms);
                   stat_totalBrands := 0; stat_totalModels := 0;
                   stat_totalVariants := 0 |}
                (built_brands_have_models w ms Hp) (Nat.le_refl 0)) as [_ H].
    split; [exact H | now apply built_brands_have_models].
Qed.

Lemma built_catalog_stats_witness :
  models_plain sample_world [acme; samsung] /\
  stat_totalBrands (catalog_stats (built_categories sample_world [acme; samsung]))
  <= stat_totalModels (catalog_stats (built_categories sample_world [acme; samsung])).
Proof.
  assert (Hp : models_plain sample_world [acme; samsung]).
  { intros mn d (i & mf & ds & Hi & Hr & Hd & ->).
    destruct i as [|[|i]]; simpl in Hi; [| | discriminate].
    - injection Hi as <-. discriminate Hr.
    - injection Hi as <-. injection Hr as <-.
      unfold samsung_devices in Hd.
      repeat (apply elem_of_cons in Hd as [-> | Hd]; [reflexivity |]).
      inversion Hd. }
  split; [exact Hp |].
  exact (proj1 (proj2 (built_catalog_stats sample_world [acme; samsung]) Hp)).
Defined.

Example sample_catalog_stats :
  catalog_stats (built_categories sample_world [acme; samsung])
  = {| stat_categories := 3; stat_totalBrands := 2;
       stat_totalModels := 2; stat_totalVariants := 4 |}.
Proof. vm_compute. reflexivity. Qed.

(** A device whose model name is an inherited name leaves its brand without
    a model: the counters then report more brands than models. *)
Example dropping_catalog_stats :
  catalog_stats (built_categories dropping_world [acme; google])
  = {| stat_categories := 3; stat_totalBrands := 1;
       stat_totalModels := 0; stat_totalVariants := 0 |}.
Proof. vm_compute. reflexivity. Qed.

(** ** The catalog as a function of the device stream *)

Section FirstSeen.

Lemma filter_filter_and {A : Type} (p q : A -> bool) (l : list A) :
  List.filter p (List.filter q l) = List.filter (fun y => q y && p y) l.
Proof.
  induction l as [|x l IH]; [reflexivity |]. simpl.
  destruct (q x); simpl; [destruct (p x) |]; now rewrite IH.
Qed.

Lemma array_includes_snoc (vs : list string) (x y : string) :
  Js.array_includes (vs ++ [x]) y = Js.array_includes vs y || String.eqb x y.
Proof.
  unfold Js.array_includes. rewrite existsb_app. simpl.
  now rewrite orb_false_r, (String.eqb_sym y x).
Qed.

(** The merge loop appends, at its first occurrence, every variant that is
    not in the list yet. *)
Lemma merge_variants_first_seen (l vs : list string) :
  merge_variants vs l
  = (vs ++ List.filter (fun y => negb (Js.array_includes vs y)) (first_seen l))%list.
Proof.
  revert vs; induction l as [|x l IH]; intros vs.
  - simpl. now rewrite app_nil_r.
  - unfold merge_variants. cbn [fold_left]. fold (merge_variants (push_new vs x) l).
    rewrite IH. unfold push_new. cbn [first_seen List.filter].
    destruct (Js.array_includes vs x) eqn:E; cbn [negb].
    + f_equal. rewrite filter_filter_and. apply List.filter_ext. intros y.
      destruct (String.eqb x y) eqn:Exy; [| reflexivity].
      apply String.eqb_eq in Exy. subst y. now rewrite E.
    + rewrite <- app_assoc. cbn [app]. do 2 f_equal.
      rewrite filter_filter_and. apply List.filter_ext. intros y.
      rewrite array_includes_snoc. now destruct (Js.array_includes vs y), (String.eqb x y).
Qed.

End FirstSeen.

(** X23.  The catalog as a function of the devices folded into it: a key is
    in the built catalog exactly when a device of the stream is filed under
    it, and its variants are the variants those devices bring, in the order
    of processing, each kept at its first occurrence.  The stream holds, for
    each of the first 50 manufacturers whose request answers an array, the
    devices before the first one whose brand or model name is an inherited
    name. *)
Theorem built_variants_first_seen (w : World) (ms : list Manufacturer.t)
    (c b m : string) :
  lookup_variants (built_categories w ms) c b m
  = match List.filter (files_under c b m)
            (device_stream w 0 (take maxManufacturers ms)) with
    | [] => None
    | filed =>
        Some (first_seen
                (concat (map (fun p => device_variants (fst p) (snd p)) filed)))
    end.
Proof.
  rewrite built_variants. unfold brought.
  destruct (List.filter _ _) as [|p filed]; [reflexivity |].
  cbn [map merged default]. rewrite merge_variants_first_seen. cbn [app].
  do 2 f_equal.
  rewrite <- (List.filter_ext (fun _ => true)) by reflexivity.
  clear. induction (first_seen _) as [|x l IH]; [reflexivity |].
  simpl. now rewrite IH.
Qed.

Example sample_variants_first_seen :
  device_stream sample_world 0 [acme; samsung]
  = map (pair "Samsung") samsung_devices /\
  device_stream dropping_world 0 [acme; google] = [] /\
  lookup_variants (built_categories sample_world [acme; samsung])
    "phone" "Samsung" "Galaxy S21"
  = Some (first_seen ["128GB"; "256GB"; "256GB"; "512GB"]) /\
  first_seen ["128GB"; "256GB"; "256GB"; "512GB"] = ["128GB"; "256GB"; "512GB"].
Proof. repeat split; vm_compute; reflexivity. Qed.

(** ** The upload stops at the first success *)

Section FirstSuccess.

Variable w : World.
Variable catalog : DeviceCatalog.

Lemma upload_loop_first_success (d n k : nat) (err : option StorageError.t) :
  d < n ->
  upload_response w (k + d) = None ->
  (forall j, j < d -> upload_response w (k + j) <> None) ->
  let run := upload_loop w catalog n k err in
  (exists pre, fst run = (pre ++ [attempt catalog])%list) /\
  List.filter is_upload (fst run) = replicate (S d) (attempt catalog) /\
  upload_warnings (fst run) = seq (S k) d /\
  snd run = None.
Proof.
  revert n k err; induction d as [|d IH]; intros n k err Hn Hk Hf;
    (destruct n as [|n]; [lia |]); cbn zeta.
  - rewrite Nat.add_0_r in Hk. simpl. rewrite Hk. cbn [fst snd].
    split; [eexists; reflexivity |].
    now destruct (0 <? k)%nat.
  - simpl. destruct (upload_response w k) as [e|] eqn:Ek.
    2:{ exfalso. apply (Hf 0); [lia |]. now rewrite Nat.add_0_r. }
    destruct (IH n (S k) (Some e)) as ((pre & Hp) & Hu & Hw & Hr).
    + lia.
    + now replace (S k + d) with (k + S d) by lia.
    + intros j Hj. replace (S k + j) with (k + S j) by lia. apply Hf. lia.
    + destruct (upload_loop w catalog n (S k) (Some e)) as [evs res].
      cbn [fst snd] in *. subst evs.
      split; [| split; [| split]].
      * exists ((if (0 <? k)%nat then [Sleep 1000] else [])
                ++ attempt catalog
                   :: Warn (UploadAttemptFailed (k + 1) (StorageError.message e))
                   :: pre)%list.
        now rewrite <- app_assoc.
      * rewrite List.filter_app. cbn [List.filter is_upload].
        rewrite Hu. now destruct (0 <? k)%nat.
      * replace (k + 1) with (S k) by lia.
        destruct (0 <? k)%nat; cbn [app upload_warnings]; now rewrite Hw.
      * exact Hr.
Qed.

Lemma process_manufacturers_no_upload_warning (ms : list Manufacturer.t) (i : nat)
    (cats : gmap string CategoryEntry) (evs : list Event) :
  upload_warnings (fst (process_manufacturers w i ms cats) ++ evs)
  = upload_warnings evs.
Proof.
  revert i cats; induction ms as [|mf ms IH]; intros i cats; [reflexivity |].
  rewrite process_manufacturers_cons. cbn [fst]. rewrite <- app_assoc.
  unfold process_manufacturer.
  destruct (devices_response w i (Manufacturer.name mf)) as [msg | | [|d ds]];
    try (cbn [fst app upload_warnings]; apply IH).
  destruct (process_devices _ _ _) as [cats' [p|]];
    cbn [fst snd app upload_warnings]; apply IH.
Qed.

End FirstSuccess.

(** X24.  The upload stops at its first success: when the upload of retry
    [k] is the first one the storage accepts, the invocation makes [k + 1]
    uploads of the built catalog, warns about the attempts 1 to [k], does
    nothing after the accepted upload and answers with success. *)
Theorem upload_stops_at_first_success (w : World) (ms : list Manufacturer.t)
    (k : nat) :
  reaches_upload w ms ->
  k <= maxRetries ->
  upload_response w k = None ->
  (forall j, j < k -> upload_response w j <> None) ->
  (exists pre, fst (serve w) = (pre ++ [attempt (published_catalog w ms)])%list) /\
  List.filter is_upload (fst (serve w))
  = replicate (S k) (attempt (published_catalog w ms)) /\
  upload_warnings (fst (serve w)) = seq 1 k /\
  snd (serve w) = Success (now w).
Proof.
  intros R Hk Hs Hf. rewrite (serve_reaches_upload w ms R). cbn [fst snd].
  destruct (upload_loop_first_success w (published_catalog w ms) k
              (maxRetries + 1) 0 None) as ((pre & Hp) & Hu & Hw & Hr).
  - unfold maxRetries in *. lia.
  - exact Hs.
  - exact Hf.
  - fold (upload_with_retry w (published_catalog w ms)) in Hp, Hu, Hw, Hr.
    split; [| split; [| split]].
    + rewrite Hp, app_assoc. eexists (_ :: _)%list. reflexivity.
    + cbn [List.filter is_upload].
      now rewrite List.filter_app, process_manufacturers_no_upload, Hu.
    + cbn [upload_warnings].
      now rewrite process_manufacturers_no_upload_warning, Hw.
    + now rewrite Hr.
Qed.

Lemma upload_stops_at_first_success_witness :
  reaches_upload flaky_world [acme; samsung] /\
  List.filter is_upload (fst (serve flaky_world))
  = replicate 3 (attempt (published_catalog flaky_world [acme; samsung])) /\
  upload_warnings (fst (serve flaky_world)) = [1; 2].
Proof.
  assert (R : reaches_upload flaky_world [acme; samsung])
    by (repeat split; discriminate).
  split; [exact R |].
  destruct (upload_stops_at_first_success flaky_world [acme; samsung] 2 R)
    as (_ & Hu & Hw & _).
  - unfold maxRetries. lia.
  - reflexivity.
  - intros [|[|j]] Hj; [discriminate | discriminate | lia].
  - split; [exact Hu | exact Hw].
Defined.

(** ** Models and variants in the counters *)

Section VariantCounters.







End VariantCounters.



(** A device with a blank name leaves a model without a variant, and the
    counters then report more models than variants. *)
Example blank_catalog_stats :
  catalog_stats (built_categories blank_world [acme])
  = {| stat_categories := 3; stat_totalBrands := 1;
       stat_totalModels := 1; stat_totalVariants := 0 |}.
Proof. vm_compute. reflexivity. Qed.
